(** * Document segmentation core of the RLM package ([src/rlm/core.py])

    A shallow embedding of [RLMContext], [create_metadata], [chunk_document],
    [chunk_by_paragraphs] and [chunk_by_headers], together with the parts of
    Python's [str] and [re] API these functions call.

    Conventions.
    - A Python [str] is a list of code points ([pystr]); a code point is an [N].
    - A Python [int] is a [Z]; [//] is [Z.div] (both round towards minus
      infinity for the positive divisor 4 used here).
    - The [while] loop of [chunk_document] is run with fuel: [None] means
      that the fuel ran out, [Some l] that the loop was left and [l] returned. *)

From Stdlib Require Import String Ascii.
From Stdlib Require Import List ZArith NArith Lia Bool.
Import ListNotations.
Local Open Scope Z_scope.

(* ------------------------------------------------------------------ *)
(** ** Python strings *)

Module Py.

Definition char := N.
Definition pystr := list char.

(** [len(s)] *)
Definition len (s : pystr) : Z := Z.of_nat (length s).

(** Literals for the examples: the code points of an ASCII text. *)
Definition str (s : string) : pystr := map N_of_ascii (list_ascii_of_string s).

Definition NL : char := 10%N.     (* '\n' *)
Definition SP : char := 32%N.     (* ' '  *)
Definition DOT : char := 46%N.    (* '.'  *)
Definition HASH : char := 35%N.   (* '#'  *)

Definition char_eqb (a b : char) : bool := N.eqb a b.

Fixpoint str_eqb (a b : pystr) : bool :=
  match a, b with
  | [], [] => true
  | x :: a', y :: b' => char_eqb x y && str_eqb a' b'
  | _, _ => false
  end.

(** [Py_UNICODE_ISSPACE]: the whitespace of [str.strip()], [str.split()] and
    of [\s] in a [str] pattern. *)
Definition isspace (c : char) : bool :=
  ((9 <=? c) && (c <=? 13) || (28 <=? c) && (c <=? 32)
   || (c =? 133) || (c =? 160) || (c =? 5760)
   || (8192 <=? c) && (c <=? 8202)
   || (c =? 8232) || (c =? 8233) || (c =? 8239) || (c =? 8287)
   || (c =? 12288))%N.

(** [bool(s.strip())]: some character of [s] is not whitespace. *)
Definition strip_nonempty (s : pystr) : bool := existsb (fun c => negb (isspace c)) s.

(** [bool(s)] *)
Definition nonempty (s : pystr) : bool :=
  match s with [] => false | _ :: _ => true end.

(** Index normalisation of a slice [s[i:j]]: a negative index counts from the
    end, and the result is clipped to [0 .. len(s)]. *)
Definition slice_index (n i : Z) : Z :=
  if i <? 0 then Z.max 0 (i + n) else Z.min i n.

(** [s[i:j]] *)
Definition slice (s : pystr) (i j : Z) : pystr :=
  let lo := slice_index (len s) i in
  let hi := slice_index (len s) j in
  firstn (Z.to_nat (hi - lo)) (skipn (Z.to_nat lo) s).

(** [s[:j]] and [s[i:]] *)
Definition slice_to (s : pystr) (j : Z) : pystr := slice s 0 j.
Definition slice_from (s : pystr) (i : Z) : pystr := slice s i (len s).

(** [s.startswith(sub)] *)
Fixpoint startswith (sub s : pystr) : bool :=
  match sub, s with
  | [], _ => true
  | x :: sub', y :: s' => char_eqb x y && startswith sub' s'
  | _ :: _, [] => false
  end.

(** Index adjustment of [str.find]/[str.rfind] (CPython's [ADJUST_INDICES]):
    [end] is clipped to [len], negative indices count from the end and are
    then clipped to 0; a non-negative [start] is left as it is. *)
Definition adjust_end (n e : Z) : Z :=
  if e >? n then n else if e <? 0 then Z.max 0 (e + n) else e.
Definition adjust_start (n s : Z) : Z :=
  if s <? 0 then Z.max 0 (s + n) else s.

(** Highest [i] in [lo .. lo + k - 1] at which [sub] occurs in [s], or -1. *)
Fixpoint rfind_down (s sub : pystr) (lo : Z) (k : nat) : Z :=
  match k with
  | O => -1
  | S k' =>
      let i := lo + Z.of_nat k' in
      if startswith sub (skipn (Z.to_nat i) s) then i
      else rfind_down s sub lo k'
  end.

(** [s.rfind(sub, start, end)] for a non-empty [sub]: the highest index [i]
    with [start' <= i], [i + len(sub) <= end'] and [s[i:i+len(sub)] == sub],
    for the adjusted [start'] and [end']; -1 when there is none. *)
Definition rfind (s sub : pystr) (start end_ : Z) : Z :=
  let lo := adjust_start (len s) start in
  let hi := adjust_end (len s) end_ in
  rfind_down s sub lo (Z.to_nat (hi - len sub - lo + 1)).

End Py.
Import Py.

(* ------------------------------------------------------------------ *)
(** ** [ChunkInfo] and the uniform strategy, [chunk_document] *)

Record ChunkInfo := mkChunkInfo {
  index : Z;
  start_char : Z;
  end_char : Z;
  content : pystr;
  token_estimate : Z
}.

(** Lines 165-177: the end of the chunk that starts at [start]. *)
Definition chunk_end (document : pystr) (chunk_size start : Z) : Z :=
  let end_ := Z.min (start + chunk_size) (len document) in
  if end_ <? len document then
    let newline_pos := rfind document [NL] (end_ - 200) end_ in
    if newline_pos >? start then newline_pos + 1
    else
      let period_pos := rfind document [DOT; SP] (end_ - 200) end_ in
      if period_pos >? start then period_pos + 2 else end_
  else end_.

(** Lines 164-189: the [while] loop, entered with the current [start] and
    [index]; the result lists the chunks appended from here on. *)
Fixpoint chunk_document_loop (fuel : nat) (document : pystr)
    (chunk_size overlap start idx : Z) : option (list ChunkInfo) :=
  match fuel with
  | O => None
  | S fuel' =>
      if start <? len document then
        let end_ := chunk_end document chunk_size start in
        let chunk_content := slice document start end_ in
        let c := mkChunkInfo idx start end_ chunk_content (len chunk_content / 4) in
        let start' := if end_ <? len document then end_ - overlap else end_ in
        match chunk_document_loop fuel' document chunk_size overlap start' (idx + 1) with
        | Some chunks => Some (c :: chunks)
        | None => None
        end
      else Some []
  end.

Definition chunk_document (fuel : nat) (document : pystr)
    (chunk_size overlap : Z) : option (list ChunkInfo) :=
  chunk_document_loop fuel document chunk_size overlap 0 0.

Definition spans (chunks : list ChunkInfo) : list (Z * Z) :=
  map (fun c => (start_char c, end_char c)) chunks.

(* ------------------------------------------------------------------ *)
(** ** The two regular expressions of the module

    [re.split] and [re.findall] scan the text from left to right; at each
    position the pattern is tried, a match is consumed whole and the scan
    resumes behind it.  Both patterns only match non-empty texts.  The scans
    below walk the text once: [skip] counts the characters of the current
    match that are still to be consumed. *)

Module Re.

(** [\n\s*\n] tried at the start of [s].  [\s*] is greedy and [\n] is itself
    whitespace, so the match runs up to the last line break of the whitespace
    run that follows the first [\n].

    [last_nl_in_ws s] is the largest [j] such that [s[0..j]] is whitespace and
    [s[j]] is a line break. *)
Fixpoint last_nl_in_ws (s : pystr) : option nat :=
  match s with
  | [] => None
  | c :: s' =>
      if isspace c then
        match last_nl_in_ws s' with
        | Some j => Some (S j)
        | None => if char_eqb c NL then Some O else None
        end
      else None
  end.

(** Length of the match of [\n\s*\n] at the start of [s]. *)
Definition match_blank (s : pystr) : option nat :=
  match s with
  | c :: s' =>
      if char_eqb c NL then
        match last_nl_in_ws s' with
        | Some j => Some (S (S j))
        | None => None
        end
      else None
  | [] => None
  end.

(** [re.split(r'\n\s*\n', s)], with [cur] the piece read so far. *)
Fixpoint split_blank (skip : nat) (cur : pystr) (s : pystr) : list pystr :=
  match s with
  | [] => [cur]
  | c :: s' =>
      match skip with
      | S k => split_blank k cur s'
      | O =>
          match match_blank s with
          | Some n => cur :: split_blank (pred n) [] s'
          | None => split_blank O (cur ++ [c]) s'
          end
      end
  end.

Definition split_paragraphs (document : pystr) : list pystr :=
  split_blank O [] document.

(** Number of leading characters of [s] that satisfy [p]. *)
Fixpoint run (p : char -> bool) (s : pystr) : nat :=
  match s with
  | c :: s' => if p c then S (run p s') else O
  | [] => O
  end.

Definition is_hash (c : char) : bool := char_eqb c HASH.
Definition not_nl (c : char) : bool := negb (char_eqb c NL).

(** [\s+] followed by [.+]: the largest [j >= 1] such that [s[0..j)] is
    whitespace and [s[j]] exists and is not a line break ([\s+] is greedy and
    gives characters back until [.] can match one). *)
Fixpoint ws_then_text (s : pystr) : option nat :=
  match s with
  | [] => None
  | c :: s' =>
      if isspace c then
        match ws_then_text s' with
        | Some j => Some (S j)
        | None =>
            match s' with
            | d :: _ => if not_nl d then Some 1%nat else None
            | [] => None
            end
        end
      else None
  end.

(** Length of the match of [#{1,6}\s+.+$] tried at the start of a line, [s]
    being the text from there on: one to six [#] (a seventh one cannot be
    matched by [\s]), whitespace, then the rest of a line. *)
Definition match_header (s : pystr) : option nat :=
  let h := run is_hash s in
  if ((1 <=? h) && (h <=? 6))%nat then
    match ws_then_text (skipn h s) with
    | Some j => Some (h + j + run not_nl (skipn (h + j) s))%nat
    | None => None
    end
  else None.

(** [re.match(r'^#{1,6}\s+', s)] succeeds. *)
Definition starts_header (s : pystr) : bool :=
  let h := run is_hash s in
  ((1 <=? h) && (h <=? 6))%nat &&
  match skipn h s with
  | c :: _ => isspace c
  | [] => false
  end.

(** [re.split(r'(^#{1,6}\s+.+$)', s, flags=re.MULTILINE)]: the texts between
    the matches alternate with the matches (the pattern is one capture
    group).  [bol] tells whether the scan is at the start of a line. *)
Fixpoint split_hdr (skip : nat) (bol : bool) (cur : pystr) (s : pystr)
  : list pystr :=
  match s with
  | [] => [cur]
  | c :: s' =>
      match skip with
      | S k => split_hdr k (char_eqb c NL) cur s'
      | O =>
          match (if bol then match_header s else None) with
          | Some (S n) =>
              cur :: firstn (S n) s :: split_hdr n (char_eqb c NL) [] s'
          | _ => split_hdr O (char_eqb c NL) (cur ++ [c]) s'
          end
      end
  end.

Definition split_headers (document : pystr) : list pystr :=
  split_hdr O true [] document.

(** [re.findall(r'^#{1,6}\s+.+$', s, re.MULTILINE)] *)
Fixpoint findall_hdr (skip : nat) (bol : bool) (s : pystr) : list pystr :=
  match s with
  | [] => []
  | c :: s' =>
      match skip with
      | S k => findall_hdr k (char_eqb c NL) s'
      | O =>
          match (if bol then match_header s else None) with
          | Some (S n) => firstn (S n) s :: findall_hdr n (char_eqb c NL) s'
          | _ => findall_hdr O (char_eqb c NL) s'
          end
      end
  end.

Definition findall_headers (document : pystr) : list pystr :=
  findall_hdr O true document.

End Re.

(* ------------------------------------------------------------------ *)
(** ** The paragraph and semantic strategies *)

(** The variables of the packing loops of [chunk_by_paragraphs] and
    [chunk_by_headers]. *)
Record PackState := mkPackState {
  st_chunks : list ChunkInfo;
  st_current_chunk : pystr;
  st_current_start : Z;
  st_index : Z
}.

Definition pack_init : PackState := mkPackState [] [] 0 0.

(** The chunk built from the loop variables (lines 204-210, 218-224, 250-256,
    264-270). *)
Definition current_chunk_info (st : PackState) : ChunkInfo :=
  mkChunkInfo (st_index st) (st_current_start st)
    (st_current_start st + len (st_current_chunk st))
    (st_current_chunk st)
    (len (st_current_chunk st) / 4).

(** Lines 203-215: the body of [for para in paragraphs]. *)
Definition paragraph_step (max_chunk_size : Z) (st : PackState) (para : pystr)
  : PackState :=
  if (len (st_current_chunk st) + len para >? max_chunk_size)
     && nonempty (st_current_chunk st)
  then mkPackState (st_chunks st ++ [current_chunk_info st])
         (para ++ [NL; NL])
         (st_current_start st + len (st_current_chunk st))
         (st_index st + 1)
  else mkPackState (st_chunks st)
         (st_current_chunk st ++ para ++ [NL; NL])
         (st_current_start st) (st_index st).

(** Lines 217-226 and 263-272: the last block is appended when stripping it
    leaves something. *)
Definition pack_finish (st : PackState) : list ChunkInfo :=
  if strip_nonempty (st_current_chunk st)
  then st_chunks st ++ [current_chunk_info st]
  else st_chunks st.

Definition chunk_by_paragraphs (document : pystr) (max_chunk_size : Z)
  : list ChunkInfo :=
  let paragraphs := Re.split_paragraphs document in
  pack_finish (fold_left (paragraph_step max_chunk_size) paragraphs pack_init).

(** Lines 249-261: the packing part of the body of the [while] loop. *)
Definition header_step (max_chunk_size : Z) (st : PackState) (section : pystr)
  : PackState :=
  if (len (st_current_chunk st) + len section >? max_chunk_size)
     && nonempty (st_current_chunk st)
  then mkPackState (st_chunks st ++ [current_chunk_info st])
         section
         (st_current_start st + len (st_current_chunk st))
         (st_index st + 1)
  else mkPackState (st_chunks st)
         (st_current_chunk st ++ section)
         (st_current_start st) (st_index st).

(** Lines 239-261: [while i < len(sections)], [sections] being the part of
    the list from index [i] on.  A section that starts like a header and is
    not the last one is joined with the next one ([i += 2]). *)
Fixpoint headers_loop (max_chunk_size : Z) (sections : list pystr)
    (st : PackState) : PackState :=
  match sections with
  | [] => st
  | section :: rest =>
      match rest with
      | next :: rest' =>
          if Re.starts_header section
          then headers_loop max_chunk_size rest'
                 (header_step max_chunk_size st (section ++ next))
          else headers_loop max_chunk_size rest
                 (header_step max_chunk_size st section)
      | [] =>
          headers_loop max_chunk_size rest
            (header_step max_chunk_size st section)
      end
  end.

Definition chunk_by_headers (document : pystr) (max_chunk_size : Z)
  : list ChunkInfo :=
  let sections := Re.split_headers document in
  pack_finish (headers_loop max_chunk_size sections pack_init).

(* ------------------------------------------------------------------ *)
(** ** [create_metadata] *)

(** [s.split(sep)] for a one-character separator, [cur] being the piece read
    so far. *)
Fixpoint split_on (sep : char) (cur : pystr) (s : pystr) : list pystr :=
  match s with
  | [] => [cur]
  | c :: s' =>
      if char_eqb c sep then cur :: split_on sep [] s'
      else split_on sep (cur ++ [c]) s'
  end.

(** [s.split()]: the maximal runs of characters that are not whitespace. *)
Fixpoint split_ws (cur : pystr) (s : pystr) : list pystr :=
  match s with
  | [] => match cur with [] => [] | _ :: _ => [cur] end
  | c :: s' =>
      if isspace c
      then match cur with
           | [] => split_ws [] s'
           | _ :: _ => cur :: split_ws [] s'
           end
      else split_ws (cur ++ [c]) s'
  end.

Record Metadata := mkMetadata {
  char_count : Z;
  md_token_estimate : Z;
  line_count : Z;
  word_count : Z;
  header_count : Z;
  headers_preview : list pystr;
  first_500_chars : pystr;
  last_500_chars : pystr
}.

Definition create_metadata (document : pystr) : Metadata :=
  let lines := split_on NL [] document in
  let headers := Re.findall_headers document in
  mkMetadata
    (len document)
    (len document / 4)
    (Z.of_nat (length lines))
    (Z.of_nat (length (split_ws [] document)))
    (Z.of_nat (length headers))
    (firstn 10 headers)
    (slice_to document 500)
    (if len document >? 500 then slice_from document (-500) else document).

(* ------------------------------------------------------------------ *)
(** ** [RLMContext]

    The fields [buffer] and [sub_call_results] are not read or written by
    the operations below and are left out. *)

Record RLMContext := mkRLMContext {
  document : pystr;
  metadata : Metadata;
  chunks : list ChunkInfo
}.

(** [__post_init__] *)
Definition post_init (self : RLMContext) : RLMContext :=
  mkRLMContext (document self) (create_metadata (document self)) (chunks self).

(** How a call ends: it returns, it raises, or (for the model of a loop)
    the fuel runs out. *)
Inductive exn := ValueError (message : pystr).

Inductive outcome (A : Type) :=
| Returned (a : A)
| Raised (e : exn)
| OutOfFuel.
Arguments Returned {A} a.
Arguments Raised {A} e.
Arguments OutOfFuel {A}.

(** [RLMContext.chunk]: the new context and the value returned. *)
Definition chunk (fuel : nat) (self : RLMContext)
    (chunk_size overlap : Z) (strategy : pystr)
  : outcome (RLMContext * list ChunkInfo) :=
  let store cs := Returned (mkRLMContext (document self) (metadata self) cs, cs) in
  if str_eqb strategy (str "uniform") then
    match chunk_document fuel (document self) chunk_size overlap with
    | Some cs => store cs
    | None => OutOfFuel
    end
  else if str_eqb strategy (str "paragraph") then
    store (chunk_by_paragraphs (document self) chunk_size)
  else if str_eqb strategy (str "semantic") then
    store (chunk_by_headers (document self) chunk_size)
  else Raised (ValueError (str "Unknown chunking strategy: " ++ strategy)).

(* ------------------------------------------------------------------ *)
(** ** [RLMContext.search] *)

(** What [search] reads from a match object of [re]. *)
Record MatchObject := mkMatchObject {
  m_group : pystr;
  m_start : Z;
  m_end : Z;
  m_groups : list (option pystr)
}.

(** An entry of the list that [search] returns. *)
Record SearchHit := mkSearchHit {
  hit_match : pystr;
  hit_start : Z;
  hit_end : Z;
  hit_groups : list (option pystr);
  hit_context : pystr
}.

(** Lines 48-54 for one match. *)
Definition search_hit (doc : pystr) (m : MatchObject) : SearchHit :=
  mkSearchHit (m_group m) (m_start m) (m_end m) (m_groups m)
    (slice doc (Z.max 0 (m_start m - 50)) (m_end m + 50)).

Section Search.

(** The regular-expression engine is Python's: [finditer pattern text
    flags] stands for [list(re.finditer(pattern, text, flags))], [None]
    for a pattern that does not compile. *)
Variable finditer : pystr -> pystr -> Z -> option (list MatchObject).

Definition search (self : RLMContext) (pattern : pystr) (flags : Z)
  : option (list SearchHit) :=
  match finditer pattern (document self) flags with
  | Some ms => Some (map (search_hit (document self)) ms)
  | None => None
  end.

End Search.

(** A small engine for the examples: the pattern is read as a literal text
    and its occurrences are reported from left to right, without overlaps. *)
Fixpoint literal_scan (pattern : pystr) (skip : nat) (pos : Z) (s : pystr)
  : list MatchObject :=
  match s with
  | [] => []
  | _ :: s' =>
      match skip with
      | S k => literal_scan pattern k (pos + 1) s'
      | O =>
          if nonempty pattern && startswith pattern s
          then mkMatchObject pattern pos (pos + len pattern) []
                 :: literal_scan pattern (pred (length pattern)) (pos + 1) s'
          else literal_scan pattern O (pos + 1) s'
      end
  end.

Definition literal_finditer (pattern text : pystr) (flags : Z)
  : option (list MatchObject) :=
  Some (literal_scan pattern O 0 text).

(* ------------------------------------------------------------------ *)
(** ** Specification vocabulary *)

(** The text of [doc] between two offsets [0 <= lo <= hi <= len doc]. *)
Definition substring (doc : pystr) (lo hi : Z) : pystr :=
  firstn (Z.to_nat (hi - lo)) (skipn (Z.to_nat lo) doc).

Definition all_space (s : pystr) : Prop := Forall (fun c => isspace c = true) s.

(** The invariants of a segment as section 3 of the specification lists
    them. *)
Definition segment_ok (doc : pystr) (c : ChunkInfo) : Prop :=
  0 <= start_char c < end_char c /\ end_char c <= len doc /\
  content c = substring doc (start_char c) (end_char c) /\
  token_estimate c = len (content c) / 4.

(** The run of the uniform loop entered at [start]: every chunk begins where
    the loop stands, ends behind its start and inside the document, and the
    loop goes on from [end - overlap] or, at the end of the document, stops. *)
Inductive Chain (doc : pystr) (overlap : Z) : Z -> list ChunkInfo -> Prop :=
| Chain_nil : forall start, len doc <= start -> Chain doc overlap start []
| Chain_cons : forall start c rest,
    start < len doc ->
    start_char c = start ->
    start < end_char c <= len doc ->
    Chain doc overlap
      (if end_char c <? len doc then end_char c - overlap else end_char c) rest ->
    Chain doc overlap start (c :: rest).

(** Adjacent segments leave no gap. *)
Definition no_gaps (cs : list ChunkInfo) : Prop :=
  forall i c1 c2,
    nth_error cs i = Some c1 -> nth_error cs (S i) = Some c2 ->
    start_char c2 <= end_char c1.

(** Every offset of the document lies in the span of some segment. *)
Definition covers (doc : pystr) (cs : list ChunkInfo) : Prop :=
  forall x, 0 <= x < len doc ->
    exists c, In c cs /\ start_char c <= x < end_char c.

(** The strategy name is one of the three of [RLMContext.chunk]. *)
Definition known_strategy (strategy : pystr) : bool :=
  str_eqb strategy (str "uniform") || str_eqb strategy (str "paragraph")
  || str_eqb strategy (str "semantic").

(** The parameters that section 6 of the specification calls invalid. *)
Definition invalid_parameters (chunk_size overlap : Z) (strategy : pystr) : bool :=
  negb (known_strategy strategy)
  || (chunk_size <=? 0)
  || (str_eqb strategy (str "uniform") && (chunk_size <=? overlap)).

Definition raises {A} (o : outcome A) : Prop := exists e, o = Raised e.

(** A fresh context for a document, as the dataclass builds it: whatever
    [metadata] holds before [__post_init__] is overwritten there. *)
Definition new_context (doc : pystr) : RLMContext :=
  post_init (mkRLMContext doc (create_metadata []) []).

(** *** Packing of units into blocks *)

(** The text of a group of units, each followed by the separator that the
    strategy puts behind a unit (two line breaks for paragraphs, nothing for
    sections). *)
Definition block (sep : pystr) (g : list pystr) : pystr :=
  concat (map (fun u => u ++ sep) g).

(** The chunks whose contents are the given blocks, laid end to end from
    offset [start] and numbered from [idx]. *)
Fixpoint chunks_of (start idx : Z) (blocks : list pystr) : list ChunkInfo :=
  match blocks with
  | [] => []
  | b :: bs =>
      mkChunkInfo idx start (start + len b) b (len b / 4)
        :: chunks_of (start + len b) (idx + 1) bs
  end.

(** The packing loop seen on groups: the closed groups and the open one. *)
Definition groups := (list (list pystr) * list pystr)%type.

Definition group_step (sep : pystr) (max_size : Z) (Gg : groups) (u : pystr)
  : groups :=
  let (G, g) := Gg in
  if (len (block sep g) + len u >? max_size) && nonempty (block sep g)
  then (G ++ [g], [u]) else (G, g ++ [u]).

Definition pack_groups (sep : pystr) (max_size : Z) (units : list pystr) : groups :=
  fold_left (group_step sep max_size) units ([], []).

Definition state_of (sep : pystr) (Gg : groups) : PackState :=
  let (G, g) := Gg in
  mkPackState (chunks_of 0 0 (map (block sep) G)) (block sep g)
    (len (concat (map (block sep) G))) (Z.of_nat (length G)).

(** The groups that become segments: all of them, but for a last group
    without any character other than whitespace. *)
Definition emitted (sep : pystr) (gs : list (list pystr)) : list (list pystr) :=
  if strip_nonempty (block sep (last gs [])) then gs else removelast gs.

(** The units of the semantic strategy: the sections, a header joined with
    the section behind it. *)
Fixpoint header_units (sections : list pystr) : list pystr :=
  match sections with
  | [] => []
  | section :: rest =>
      match rest with
      | next :: rest' =>
          if Re.starts_header section
          then (section ++ next) :: header_units rest'
          else section :: header_units rest
      | [] => [section]
      end
  end.

Definition paragraph_units (doc : pystr) : list pystr := Re.split_paragraphs doc.
Definition semantic_units (doc : pystr) : list pystr :=
  header_units (Re.split_headers doc).

Definition SEP2 : pystr := [NL; NL].

(** [u] occurs in [s] as a contiguous piece. *)
Definition infix (u s : pystr) : Prop := exists a b, s = a ++ u ++ b.

(** *** Example inputs *)

(** A short text with a line break and a sentence end. *)
Definition demo_doc : pystr :=
  str "Hello. World" ++ [NL] ++ str "more text here".

Definition demo_chunks : list ChunkInfo :=
  Eval vm_compute in
    match chunk_document 20 demo_doc 10 1 with Some l => l | None => [] end.

(** 1000 times the letter A. *)
Definition doc_1000_A : pystr := repeat 65%N 1000.

(** A line break at offset 2 with two more characters behind it. *)
Definition doc_stuck : pystr := str "ab" ++ [NL] ++ str "cd".

(** A line break at offset 2 in a text of 303 characters. *)
Definition doc_wrap : pystr := str "ab" ++ [NL] ++ repeat 99%N 300.

(** The closed groups followed by the open one. *)
Definition all_groups (Gg : groups) : list (list pystr) := fst Gg ++ [snd Gg].

(** A unit larger than [max_size] is the last one of its group and has only
    empty text in front of it there. *)
Definition oversized_alone (sep : pystr) (max_size : Z) (g : list pystr) : Prop :=
  forall pre u post,
    g = pre ++ u :: post -> max_size < len u -> post = [] /\ block sep pre = [].

Definition doc_abc : pystr := str "abc".

(** Two headed sections. *)
Definition doc_headers : pystr :=
  str "# H1" ++ [NL] ++ str "body1" ++ [NL] ++ str "# H2" ++ [NL] ++ str "body2".

(** Three short paragraphs. *)
Definition doc_paragraphs : pystr :=
  str "Para one." ++ SEP2 ++ str "Para two." ++ SEP2 ++ str "Para three.".

(** Two spaces. *)
Definition doc_spaces : pystr := str "  ".

(** Two whitespace paragraphs. *)
Definition doc_blank : pystr := str "  " ++ SEP2 ++ str "  ".

(** "Every unit lies within a single segment", for the semantic strategy. *)
Definition units_in_segments (doc : pystr) (max_size : Z) : Prop :=
  forall u, In u (semantic_units doc) ->
    exists c, In c (chunk_by_headers doc max_size) /\ infix u (content c).

(** "A document of whitespace gives no segment under both strategies." *)
Definition whitespace_gives_nothing (doc : pystr) (max_size : Z) : Prop :=
  all_space doc ->
  chunk_by_paragraphs doc max_size = [] /\ chunk_by_headers doc max_size = [].

(** "The segment operation raises exactly on invalid parameters." *)
Definition rejects_invalid (fuel : nat) (self : RLMContext)
    (chunk_size overlap : Z) (strategy : pystr) : Prop :=
  raises (chunk fuel self chunk_size overlap strategy)
  <-> invalid_parameters chunk_size overlap strategy = true.

(** The phrase "Metric A" at offset 120. *)
Definition doc_metric : pystr :=
  repeat 120%N 120 ++ str "Metric A" ++ str " is high".

Definition demo_hits : list SearchHit :=
  match search literal_finditer (new_context doc_metric) (str "Metric A") 0 with
  | Some hits => hits
  | None => []
  end.

(** The context of a hit, as the specification words it. *)
Definition context_clipped (doc : pystr) (h : SearchHit) : Prop :=
  let lo := Z.max 0 (hit_start h - 50) in
  let hi := Z.min (len doc) (hit_end h + 50) in
  0 <= lo <= hi /\ hi <= len doc /\
  hit_context h = substring doc lo hi /\
  len (hit_context h) = hi - lo.

(** What C2 asks of the segments [l] of a document: no gap between adjacent
    segments, the first one starts at 0, the last one ends at the end of the
    document, and every offset is covered. *)
Definition covers_without_gaps (doc : pystr) (l : list ChunkInfo) : Prop :=
  no_gaps l /\
  (forall c, hd_error l = Some c -> start_char c = 0) /\
  (forall c, nth_error l (pred (length l)) = Some c -> end_char c = len doc) /\
  covers doc l.

(** *** The boundary policy of the uniform strategy, as section 4.3 of the
    specification words it *)

(** [sub] occurs in [doc] at offset [i]. *)
Definition occurs (sub doc : pystr) (i : Z) : bool :=
  startswith sub (skipn (Z.to_nat i) doc).

(** No occurrence of [sub] behind [start] lies within the window
    [lo .. hi). *)
Definition none_behind (sub doc : pystr) (lo hi start : Z) : Prop :=
  forall j, lo <= j -> j + len sub <= hi -> start < j -> occurs sub doc j = false.

(** [i] is the last occurrence of [sub] within the window [lo .. hi). *)
Definition last_in_window (sub doc : pystr) (lo hi i : Z) : Prop :=
  lo <= i /\ i + len sub <= hi /\ occurs sub doc i = true /\
  forall j, i < j -> j + len sub <= hi -> occurs sub doc j = false.

(** The cut for a segment that starts at [start] and has the provisional
    end [p]: behind the last line break of the window of 200 characters if
    that lies behind the start, else behind the last period-and-space, else
    at [p]. *)
Inductive Cut (doc : pystr) (start p : Z) : Z -> Prop :=
| cut_line : forall i,
    last_in_window [NL] doc (p - 200) p i -> start < i ->
    Cut doc start p (i + 1)
| cut_sentence : forall i,
    none_behind [NL] doc (p - 200) p start ->
    last_in_window [DOT; SP] doc (p - 200) p i -> start < i ->
    Cut doc start p (i + 2)
| cut_hard :
    none_behind [NL] doc (p - 200) p start ->
    none_behind [DOT; SP] doc (p - 200) p start ->
    Cut doc start p p.

(** The strategy name is none of the three that [RLMContext.chunk] knows. *)
Definition unknown_strategy (strategy : pystr) : Prop :=
  strategy <> str "uniform" /\ strategy <> str "paragraph" /\
  strategy <> str "semantic".

(** A line break at offset 1 in a text of 302 characters. *)
Definition doc_back : pystr := str "a" ++ [NL] ++ repeat 97%N 300.

(* ------------------------------------------------------------------ *)
(** ** Further operations of [ChunkInfo] and [RLMContext] *)

(** [ChunkInfo.preview] *)
Definition preview (c : ChunkInfo) : pystr :=
  if len (content c) >? 100 then slice_to (content c) 100 ++ str "..."
  else content c.

(** [RLMContext.get_section] *)
Definition get_section (self : RLMContext) (start end_ : Z) : pystr :=
  slice (document self) start end_.

(** [RLMContext.filter_chunks] *)
Definition filter_chunks (self : RLMContext) (predicate : ChunkInfo -> bool)
  : list ChunkInfo :=
  filter predicate (chunks self).

(** *** Vocabulary for the further properties *)

(** The chunk at position [n] carries the index [n]. *)
Definition indexed_from_zero (l : list ChunkInfo) : Prop :=
  forall n c, nth_error l n = Some c -> index c = Z.of_nat n.

(** Each segment starts [overlap] characters before the end of the one in
    front of it. *)
Definition overlap_exact (overlap : Z) (l : list ChunkInfo) : Prop :=
  forall i c1 c2,
    nth_error l i = Some c1 -> nth_error l (S i) = Some c2 ->
    start_char c2 = end_char c1 - overlap.

(** The starts grow from segment to segment. *)
Definition starts_increase (l : list ChunkInfo) : Prop :=
  forall i c1 c2,
    nth_error l i = Some c1 -> nth_error l (S i) = Some c2 ->
    start_char c1 < start_char c2.

(** The segments lie end to end from offset 0. *)
Definition tiles_from_zero (l : list ChunkInfo) : Prop :=
  (forall c, hd_error l = Some c -> start_char c = 0) /\
  forall i c1 c2,
    nth_error l i = Some c1 -> nth_error l (S i) = Some c2 ->
    start_char c2 = end_char c1.

(** The one chunk that holds a whole text. *)
Definition whole_chunk (text : pystr) : ChunkInfo :=
  mkChunkInfo 0 0 (len text) text (len text / 4).

(** The characters of a text that are not whitespace. *)
Definition ink (s : pystr) : pystr := filter (fun c => negb (isspace c)) s.

(** Two paragraphs of four letters. *)
Definition doc_two_paragraphs : pystr := str "aaaa" ++ SEP2 ++ str "bbbb".

(** A group is empty, or its block is within the bound (the unit added last
    was measured without its separator), or it is one unit behind empty
    text. *)
Definition within_or_single (sep : pystr) (max_size : Z) (g : list pystr) : Prop :=
  g = [] \/
  len (block sep g) <= max_size + len sep \/
  exists pre u, g = pre ++ [u] /\ block sep pre = [].

(** The items at the odd positions of a list. *)
Fixpoint odd_items (l : list pystr) : list pystr :=
  match l with
  | _ :: x :: rest => x :: odd_items rest
  | _ => []
  end.

(** The context of a hit is the match with up to 50 characters on either
    side. *)
Definition context_surrounds (doc : pystr) (h : SearchHit) : Prop :=
  exists before after,
    hit_context h = before ++ hit_match h ++ after /\
    len before = Z.min 50 (hit_start h) /\
    len after = Z.min 50 (len doc - hit_end h).

(* ------------------------------------------------------------------ *)
(** ** The orchestrator ([src/rlm/orchestrator.py]) *)

Record SubAgentTask := mkSubAgentTask {
  task_chunk : ChunkInfo;
  task_description : pystr;
  agent_type : pystr;
  run_in_background : bool
}.

(** [RLMOrchestrator].  Its field [ctx] refers to the context object, whose
    chunks may change after the orchestrator is built: the operations below
    take the context as it is when they are called.  [completed_results] is
    not read or written after construction and is left out. *)
Record RLMOrchestrator := mkRLMOrchestrator {
  pending_tasks : list SubAgentTask
}.

(** [RLMOrchestrator.create_chunk_tasks]: the new orchestrator and the list
    returned.  [chunk_filter] is [None] or a predicate. *)
Definition create_chunk_tasks (ctx : RLMContext) (self : RLMOrchestrator)
    (description agent : pystr) (parallel : bool)
    (chunk_filter : option (ChunkInfo -> bool))
  : RLMOrchestrator * list SubAgentTask :=
  let cs := chunks ctx in
  let cs := match chunk_filter with
            | Some f => filter f cs
            | None => cs
            end in
  let tasks := map (fun c => mkSubAgentTask c description agent parallel) cs in
  (mkRLMOrchestrator tasks, tasks).

(** An entry of [STRATEGIES]. *)
Record Strategy := mkStrategy {
  description : pystr;
  chunk_strategy : pystr;
  strategy_chunk_size : Z;
  approach : pystr
}.

Definition strategy_needle_search : Strategy :=
  mkStrategy
    (str "Find specific information in a large document")
    (str "uniform")
    50000
    ([NL]
       ++ str "1. First, use ctx.search() with keywords from the query"
       ++ [NL]
       ++ str "2. If matches found, extract surrounding context only"
       ++ [NL]
       ++ str "3. If no matches, chunk entire document"
       ++ [NL]
       ++ str "4. Sub-agents verify if their chunk contains the answer"
       ++ [NL]
       ++ str "5. Aggregate: return first HIGH confidence match"
       ++ [NL]).

Definition strategy_summarization : Strategy :=
  mkStrategy
    (str "Summarize a large document")
    (str "semantic")
    40000
    ([NL]
       ++ str "1. Chunk by semantic boundaries (headers)"
       ++ [NL]
       ++ str "2. Sub-agents summarize each section"
       ++ [NL]
       ++ str "3. Aggregate summaries hierarchically"
       ++ [NL]
       ++ str "4. Final pass: create cohesive overall summary"
       ++ [NL]).

Definition strategy_multi_hop_qa : Strategy :=
  mkStrategy
    (str "Answer questions requiring multiple pieces of information")
    (str "semantic")
    40000
    ([NL]
       ++ str "1. Chunk semantically"
       ++ [NL]
       ++ str "2. First pass: sub-agents identify chunks with relevant info"
       ++ [NL]
       ++ str "3. Collect all relevant chunks"
       ++ [NL]
       ++ str "4. Second pass: answer query using only relevant chunks"
       ++ [NL]
       ++ str "5. Verify answer coherence"
       ++ [NL]).

Definition strategy_aggregation : Strategy :=
  mkStrategy
    (str "Count, list, or aggregate items across document")
    (str "uniform")
    50000
    ([NL]
       ++ str "1. Chunk uniformly"
       ++ [NL]
       ++ str "2. Sub-agents extract/count items in their chunk"
       ++ [NL]
       ++ str "3. Aggregate: sum counts, merge lists, deduplicate"
       ++ [NL]
       ++ str "4. Verify completeness"
       ++ [NL]).

Definition strategy_comparison : Strategy :=
  mkStrategy
    (str "Compare entities or concepts across document")
    (str "semantic")
    30000
    ([NL]
       ++ str "1. First pass: identify all entities to compare"
       ++ [NL]
       ++ str "2. Create focused chunks around each entity"
       ++ [NL]
       ++ str "3. Sub-agents extract attributes for each entity"
       ++ [NL]
       ++ str "4. Create comparison matrix"
       ++ [NL]
       ++ str "5. Synthesize findings"
       ++ [NL]).

(** [STRATEGIES], in the order of the source. *)
Definition STRATEGIES : list (pystr * Strategy) :=
  [(str "needle_search", strategy_needle_search);
   (str "summarization", strategy_summarization);
   (str "multi_hop_qa", strategy_multi_hop_qa);
   (str "aggregation", strategy_aggregation);
   (str "comparison", strategy_comparison)].

(** [d.get(key)] on a dict kept as the list of its items. *)
Fixpoint strategy_lookup (key : pystr) (d : list (pystr * Strategy))
  : option Strategy :=
  match d with
  | [] => None
  | (k, s) :: d' => if str_eqb key k then Some s else strategy_lookup key d'
  end.

(** [get_strategy]: the default [STRATEGIES["needle_search"]] is looked up
    first, as the argument of [get]; [None] stands for its [KeyError]. *)
Definition get_strategy (task_type : pystr) : option Strategy :=
  match strategy_lookup (str "needle_search") STRATEGIES with
  | Some default =>
      Some (match strategy_lookup task_type STRATEGIES with
            | Some s => s
            | None => default
            end)
  | None => None
  end.

(** The default overlap of [RLMContext.chunk]. *)
Definition default_overlap : Z := 500.

(* ------------------------------------------------------------------ *)
(** ** The result buffer of [RLMContext]

    [store_result] and [append_result] work on the dict [self.buffer] only.
    A value of the buffer is taken to be [None], a number, a text or a list.
    [append] changes a list in place and the same list may be reachable
    under several keys, so a list is an object of a store ([lists]) and the
    dict holds references to it. *)

Inductive pyval :=
| VNone
| VInt (z : Z)
| VStr (s : pystr)
| VList (ref : nat).

Record Buffer := mkBuffer {
  lists : list (list pyval);
  entries : list (pystr * pyval)
}.

(** [d.get(key)] on a dict kept as the list of its items, in their order. *)
Fixpoint dict_get (key : pystr) (d : list (pystr * pyval)) : option pyval :=
  match d with
  | [] => None
  | (k, v) :: d' => if str_eqb key k then Some v else dict_get key d'
  end.

(** [d[key] = value]: a key that is present keeps its place, a new key goes
    to the end. *)
Fixpoint dict_set (key : pystr) (value : pyval) (d : list (pystr * pyval))
  : list (pystr * pyval) :=
  match d with
  | [] => [(key, value)]
  | (k, v) :: d' =>
      if str_eqb key k then (k, value) :: d' else (k, v) :: dict_set key value d'
  end.

(** [RLMContext.store_result] *)
Definition store_result (self : Buffer) (key : pystr) (value : pyval) : Buffer :=
  mkBuffer (lists self) (dict_set key value (entries self)).

(** The list [l] with [x] at position [n]. *)
Fixpoint set_nth (n : nat) (x : list pyval) (l : list (list pyval))
  : list (list pyval) :=
  match l, n with
  | [], _ => []
  | _ :: l', O => x :: l'
  | y :: l', S n' => y :: set_nth n' x l'
  end.

(** How [append_result] ends: it returns, or [self.buffer[key]] has no
    [append] ([AttributeError]).  [NoObject] marks a reference without a
    list behind it, which no state of the program has. *)
Inductive buffer_result :=
| Done (b : Buffer)
| AttributeError
| NoObject.

(** [RLMContext.append_result] *)
Definition append_result (self : Buffer) (key : pystr) (value : pyval)
  : buffer_result :=
  let self1 :=
    match dict_get key (entries self) with
    | None =>
        mkBuffer (lists self ++ [[]])
          (dict_set key (VList (length (lists self))) (entries self))
    | Some _ => self
    end in
  match dict_get key (entries self1) with
  | Some (VList r) =>
      match nth_error (lists self1) r with
      | Some xs => Done (mkBuffer (set_nth r (xs ++ [value]) (lists self1))
                           (entries self1))
      | None => NoObject
      end
  | Some _ => AttributeError
  | None => NoObject
  end.

(** A run of [append_result] calls, stopped by the first error. *)
Fixpoint append_all (calls : list (pystr * pyval)) (b : Buffer) : buffer_result :=
  match calls with
  | [] => Done b
  | (k, v) :: rest =>
      match append_result b k v with
      | Done b' => append_all rest b'
      | AttributeError => AttributeError
      | NoObject => NoObject
      end
  end.

(** *** Vocabulary for the buffer *)

(** The list behind [self.buffer[key]], if that is a list. *)
Definition read (b : Buffer) (key : pystr) : option (list pyval) :=
  match dict_get key (entries b) with
  | Some (VList r) => nth_error (lists b) r
  | _ => None
  end.

(** The keys with [key] added behind them unless it is among them. *)
Definition add_key (key : pystr) (ks : list pystr) : list pystr :=
  if existsb (str_eqb key) ks then ks else ks ++ [key].

(** The keys of a run of calls in the order of their first use. *)
Definition first_keys (calls : list (pystr * pyval)) : list pystr :=
  fold_left (fun ks kv => add_key (fst kv) ks) calls [].

(** The values that a run of calls gives under [key], in their order. *)
Definition grouped (key : pystr) (calls : list (pystr * pyval)) : list pyval :=
  map snd (filter (fun kv => str_eqb key (fst kv)) calls).

(** The lists that a run of [append_result] calls has built, the items
    in the order of the keys: the abstract state of the buffer. *)
Definition key_groups := list (pystr * list pyval).

Fixpoint entries_of (n : nat) (gs : key_groups) : list (pystr * pyval) :=
  match gs with
  | [] => []
  | (k, _) :: gs' => (k, VList n) :: entries_of (S n) gs'
  end.

Definition buffer_of (others : list (list pyval)) (gs : key_groups) : Buffer :=
  mkBuffer (others ++ map snd gs) (entries_of (length others) gs).

Fixpoint push (key : pystr) (value : pyval) (gs : key_groups) : key_groups :=
  match gs with
  | [] => [(key, [value])]
  | (k, xs) :: gs' =>
      if str_eqb key k then (k, xs ++ [value]) :: gs'
      else (k, xs) :: push key value gs'
  end.

Fixpoint assoc (key : pystr) (gs : key_groups) : option (list pyval) :=
  match gs with
  | [] => None
  | (k, xs) :: gs' => if str_eqb key k then Some xs else assoc key gs'
  end.

(** The text begins with the header sign. *)
Definition headed (u : pystr) : Prop := exists t, u = HASH :: t.

(** A list of sections that starts with a header and goes on header, body,
    header, body. *)
Inductive Alternating : list pystr -> Prop :=
| Alternating_nil : Alternating []
| Alternating_cons : forall h b rest,
    Re.starts_header h = true -> Alternating rest ->
    Alternating (h :: b :: rest).

(** The first unit of a group begins with the header sign. *)
Definition first_headed (g : list pystr) : Prop :=
  exists u t, g = u :: t /\ headed u.

(** All groups but the first begin with a header. *)
Definition tail_headed (gs : list (list pystr)) : Prop :=
  match gs with
  | [] => True
  | _ :: gs' => Forall first_headed gs'
  end.

(* ------------------------------------------------------------------ *)
(** ** The list under construction in [chunk_document]

    Lines 161-189 of [chunk_document]: the local list [chunks] after at most
    [n] passes through the body of the [while] loop, entered with the current
    [start] and [index].  It is what the loop has appended so far, whether or
    not the loop goes on afterwards. *)

Fixpoint chunk_document_passes (n : nat) (document : pystr)
    (chunk_size overlap start idx : Z) : list ChunkInfo :=
  match n with
  | O => []
  | S n' =>
      if start <? len document then
        let end_ := chunk_end document chunk_size start in
        let chunk_content := slice document start end_ in
        let c := mkChunkInfo idx start end_ chunk_content (len chunk_content / 4) in
        let start' := if end_ <? len document then end_ - overlap else end_ in
        c :: chunk_document_passes n' document chunk_size overlap start' (idx + 1)
      else []
  end.

(* ================================================================== *)
(** * Properties *)

(** ** Strings, slices and [rfind] *)

Lemma len_nonneg (s : pystr) : 0 <= len s.
Proof. unfold len. lia. Qed.

Lemma len_app (a b : pystr) : len (a ++ b) = len a + len b.
Proof. unfold len. rewrite length_app. lia. Qed.

Lemma str_eqb_eq (a b : pystr) : str_eqb a b = true <-> a = b.
Proof.
  revert b. induction a as [|x a IH]; intros [|y b]; simpl; split; intros H;
    try reflexivity; try discriminate.
  - apply andb_true_iff in H as [Hx Hab]. apply N.eqb_eq in Hx.
    apply IH in Hab. congruence.
  - inversion H; subst. apply andb_true_iff. split.
    + apply N.eqb_refl.
    + apply IH. reflexivity.
Qed.

Lemma rfind_down_range (s sub : pystr) (lo : Z) (k : nat) :
  rfind_down s sub lo k = -1 \/
  lo <= rfind_down s sub lo k < lo + Z.of_nat k.
Proof.
  induction k as [|k IH]; simpl.
  - left; reflexivity.
  - destruct (startswith sub (skipn (Z.to_nat (lo + Z.of_nat k)) s)).
    + right. lia.
    + destruct IH as [IH | IH]; [left; exact IH | right; lia].
Qed.

Lemma adjust_end_le (n e : Z) : 0 <= n -> adjust_end n e <= n.
Proof.
  intros Hn. unfold adjust_end.
  destruct (e >? n) eqn:E1; [lia|].
  destruct (e <? 0) eqn:E2; lia.
Qed.

(** A position reported by [rfind] lies inside the text, with the whole
    occurrence in front of the adjusted end. *)
Lemma rfind_range (s sub : pystr) (start end_ : Z) :
  rfind s sub start end_ = -1 \/
  (adjust_start (len s) start <= rfind s sub start end_ /\
   rfind s sub start end_ + len sub <= adjust_end (len s) end_).
Proof.
  unfold rfind.
  set (lo := adjust_start (len s) start).
  set (hi := adjust_end (len s) end_).
  destruct (rfind_down_range s sub lo (Z.to_nat (hi - len sub - lo + 1)))
    as [H | H]; [left; exact H | right].
  lia.
Qed.

Lemma rfind_lower (s sub : pystr) (start end_ : Z) : -1 <= rfind s sub start end_.
Proof.
  destruct (rfind_range s sub start end_) as [H | [H _]]; [lia|].
  unfold adjust_start in H. destruct (start <? 0) eqn:E; lia.
Qed.

Lemma rfind_found_bounds (s sub : pystr) (start end_ : Z) :
  0 <= rfind s sub start end_ ->
  rfind s sub start end_ + len sub <= len s.
Proof.
  intros H0. destruct (rfind_range s sub start end_) as [H | [_ H]]; [lia|].
  pose proof (adjust_end_le (len s) end_ (len_nonneg s)). lia.
Qed.

(** ** The uniform strategy *)

Lemma chunk_end_bounds (doc : pystr) (chunk_size start : Z) :
  0 < chunk_size -> start < len doc ->
  start < chunk_end doc chunk_size start <= len doc.
Proof.
  intros Hcs Hlt. unfold chunk_end.
  set (e := Z.min (start + chunk_size) (len doc)).
  assert (He : start < e <= len doc) by (unfold e; lia).
  destruct (e <? len doc) eqn:E; [|lia].
  set (nl := rfind doc [NL] (e - 200) e).
  pose proof (rfind_lower doc [NL] (e - 200) e) as Hnl. fold nl in Hnl.
  destruct (nl >? start) eqn:E1.
  - apply Z.gtb_lt in E1. split; [lia|].
    destruct (Z.eq_dec nl (-1)) as [-> | Hne].
    + pose proof (len_nonneg doc). lia.
    + pose proof (@rfind_found_bounds doc [NL] (e - 200) e) as Hb. fold nl in Hb.
      unfold len in Hb at 1. simpl in Hb. lia.
  - assert (Hs : nl <= start) by (destruct (Z.gtb_spec nl start); [discriminate | lia]).
    set (pp := rfind doc [DOT; SP] (e - 200) e).
    destruct (pp >? start) eqn:E2; [|lia].
    apply Z.gtb_lt in E2. split; [lia|].
    pose proof (@rfind_found_bounds doc [DOT; SP] (e - 200) e) as Hb. fold pp in Hb.
    unfold len in Hb at 1. simpl in Hb. lia.
Qed.

Lemma chunk_document_loop_S (fuel : nat) (doc : pystr) (cs ov start idx : Z) :
  chunk_document_loop (S fuel) doc cs ov start idx =
  if start <? len doc then
    let end_ := chunk_end doc cs start in
    let chunk_content := slice doc start end_ in
    match chunk_document_loop fuel doc cs ov
            (if end_ <? len doc then end_ - ov else end_) (idx + 1) with
    | Some l => Some (mkChunkInfo idx start end_ chunk_content
                        (len chunk_content / 4) :: l)
    | None => None
    end
  else Some [].
Proof. reflexivity. Qed.

(** More fuel does not change a result. *)
Lemma chunk_document_loop_mono (fuel : nat) (doc : pystr) (cs ov : Z) :
  forall start idx l,
    chunk_document_loop fuel doc cs ov start idx = Some l ->
    forall fuel', (fuel <= fuel')%nat ->
    chunk_document_loop fuel' doc cs ov start idx = Some l.
Proof.
  induction fuel as [|fuel IH]; intros start idx l H fuel' Hle.
  - discriminate.
  - destruct fuel' as [|fuel']; [lia|].
    rewrite chunk_document_loop_S in *.
    destruct (start <? len doc); [|exact H].
    cbv zeta in *.
    destruct (chunk_document_loop fuel doc cs ov _ (idx + 1)) as [l'|] eqn:E;
      [|discriminate].
    rewrite (IH _ _ _ E fuel') by lia. exact H.
Qed.

Lemma loop_chain (fuel : nat) (doc : pystr) (cs ov : Z) :
  0 < cs ->
  forall start idx l,
    chunk_document_loop fuel doc cs ov start idx = Some l ->
    Chain doc ov start l.
Proof.
  intros Hcs. induction fuel as [|fuel IH]; intros start idx l H.
  - discriminate.
  - rewrite chunk_document_loop_S in H.
    destruct (start <? len doc) eqn:E.
    + apply Z.ltb_lt in E. cbv zeta in H.
      destruct (chunk_document_loop fuel doc cs ov _ (idx + 1)) as [l'|] eqn:E';
        [|discriminate].
      injection H as <-. apply IH in E'.
      apply Chain_cons; simpl; auto using chunk_end_bounds.
    + injection H as <-. apply Chain_nil.
      destruct (Z.ltb_spec start (len doc)); [discriminate | assumption].
Qed.

Lemma chain_head (doc : pystr) (ov start : Z) (c : ChunkInfo) (l : list ChunkInfo) :
  Chain doc ov start (c :: l) -> start_char c = start.
Proof. inversion 1; assumption. Qed.

Lemma chain_no_gaps (doc : pystr) (ov start : Z) (l : list ChunkInfo) :
  0 <= ov -> Chain doc ov start l -> no_gaps l.
Proof.
  intros Hov H. induction H as [| start c rest Hlt Hs He Hrest IH].
  - intros [|i] c1 c2 H1; discriminate.
  - intros [|i] c1 c2 H1 H2; simpl in H1, H2.
    + injection H1 as <-. destruct rest as [|c' rest]; [discriminate|].
      injection H2 as <-. apply chain_head in Hrest. rewrite Hrest.
      destruct (end_char c <? len doc); lia.
    + exact (IH i c1 c2 H1 H2).
Qed.

Lemma chain_last (doc : pystr) (ov start : Z) (l : list ChunkInfo) :
  0 <= ov -> Chain doc ov start l ->
  forall c, nth_error l (pred (length l)) = Some c -> end_char c = len doc.
Proof.
  intros Hov H. induction H as [| start c rest Hlt Hs He Hrest IH]; intros c0 Hc0.
  - discriminate.
  - destruct rest as [|c' rest].
    + simpl in Hc0. injection Hc0 as <-. inversion Hrest; subst.
      destruct (Z.ltb_spec (end_char c) (len doc)); lia.
    + apply IH. exact Hc0.
Qed.

Lemma chain_covers (doc : pystr) (ov start : Z) (l : list ChunkInfo) :
  0 <= ov -> Chain doc ov start l ->
  forall x, start <= x < len doc ->
    exists c, In c l /\ start_char c <= x < end_char c.
Proof.
  intros Hov H. induction H as [| start c rest Hlt Hs He Hrest IH]; intros x Hx.
  - lia.
  - destruct (Z.lt_ge_cases x (end_char c)) as [Hin | Hout].
    + exists c. split; [left; reflexivity | lia].
    + destruct (IH x) as [c' [Hc' Hr]].
      * destruct (Z.ltb_spec (end_char c) (len doc)); lia.
      * exists c'. split; [right; exact Hc' | exact Hr].
Qed.

(** C7. On 1000 times the letter A with [chunk_size = 300] and
    [overlap = 50] the uniform strategy returns exactly four segments, with
    the spans (0,300), (250,550), (500,800), (750,1000) in this order. *)
Theorem uniform_scenario_1000_A (fuel : nat) :
  (5 <= fuel)%nat ->
  option_map spans (chunk_document fuel doc_1000_A 300 50)
  = Some [(0, 300); (250, 550); (500, 800); (750, 1000)].
Proof.
  intros Hfuel.
  assert (E : exists l, chunk_document 5 doc_1000_A 300 50 = Some l /\
                        spans l = [(0, 300); (250, 550); (500, 800); (750, 1000)]).
  { vm_compute. eexists. split; reflexivity. }
  destruct E as [l [E1 E2]].
  unfold chunk_document in *.
  rewrite (chunk_document_loop_mono _ _ _ _ _ _ _ E1 _ Hfuel).
  simpl. rewrite E2. reflexivity.
Qed.

Lemma uniform_scenario_1000_A_witness :
  option_map spans (chunk_document 5 doc_1000_A 300 50)
  = Some [(0, 300); (250, 550); (500, 800); (750, 1000)].
Proof. apply (@uniform_scenario_1000_A 5). lia. Defined.

(** *** Termination *)

(** With at least 200 characters between overlap and chunk size every cut
    lies behind the previous start plus the overlap, and the loop ends. *)
Lemma chunk_end_progress (doc : pystr) (cs ov start : Z) :
  0 <= ov -> ov + 200 <= cs -> 0 <= start ->
  chunk_end doc cs start < len doc ->
  start + ov < chunk_end doc cs start.
Proof.
  intros Hov Hcs Hs. unfold chunk_end.
  set (e := Z.min (start + cs) (len doc)).
  destruct (e <? len doc) eqn:E; [|unfold e; lia].
  apply Z.ltb_lt in E. assert (He : e = start + cs) by (unfold e; lia).
  assert (Hadj : adjust_start (len doc) (e - 200) = e - 200).
  { unfold adjust_start. destruct (e - 200 <? 0) eqn:E'; [|reflexivity].
    apply Z.ltb_lt in E'. lia. }
  set (nl := rfind doc [NL] (e - 200) e).
  destruct (nl >? start) eqn:E1.
  - apply Z.gtb_lt in E1. intros _.
    destruct (rfind_range doc [NL] (e - 200) e) as [H | [H _]]; fold nl in H; lia.
  - set (pp := rfind doc [DOT; SP] (e - 200) e).
    destruct (pp >? start) eqn:E2; [|lia].
    apply Z.gtb_lt in E2. intros _.
    destruct (rfind_range doc [DOT; SP] (e - 200) e) as [H | [H _]]; fold pp in H; lia.
Qed.

Lemma chunk_document_loop_terminates (doc : pystr) (cs ov : Z) :
  0 <= ov -> ov + 200 <= cs ->
  forall (n : nat) (start idx : Z),
    0 <= start -> len doc - start <= Z.of_nat n ->
    exists l, chunk_document_loop (S n) doc cs ov start idx = Some l.
Proof.
  intros Hov Hcs. induction n as [|n IH]; intros start idx Hs Hn.
  - exists []. rewrite chunk_document_loop_S.
    destruct (Z.ltb_spec start (len doc)); [lia | reflexivity].
  - rewrite chunk_document_loop_S.
    destruct (Z.ltb_spec start (len doc)) as [Hlt | Hge]; [|exists []; reflexivity].
    cbv zeta.
    pose proof (@chunk_end_bounds doc cs start ltac:(lia) Hlt) as Hb.
    pose proof (@chunk_end_progress doc cs ov start Hov Hcs Hs) as Hp.
    destruct (IH (if chunk_end doc cs start <? len doc
                  then chunk_end doc cs start - ov
                  else chunk_end doc cs start) (idx + 1)) as [l Hl].
    + destruct (Z.ltb_spec (chunk_end doc cs start) (len doc)); lia.
    + destruct (Z.ltb_spec (chunk_end doc cs start) (len doc)); lia.
    + rewrite Hl. eexists; reflexivity.
Qed.

(** The uniform strategy returns whenever [chunk_size >= overlap + 200],
    which includes its default parameters. *)
Lemma chunk_document_terminates_wide (doc : pystr) (cs ov : Z) :
  0 <= ov -> ov + 200 <= cs ->
  exists l, chunk_document (S (length doc)) doc cs ov = Some l.
Proof.
  intros Hov Hcs. unfold chunk_document.
  apply chunk_document_loop_terminates; try assumption; unfold len; lia.
Qed.

(** The properties of the result that C2 lists. *)
Lemma chain_covers_document (doc : pystr) (overlap : Z) (l : list ChunkInfo) :
  0 <= overlap -> Chain doc overlap 0 l -> covers_without_gaps doc l.
Proof.
  intros Hov H. unfold covers_without_gaps. split; [|split; [|split]].
  - eapply chain_no_gaps; eassumption.
  - intros c Hc. destruct l as [|c' l]; [discriminate|].
    injection Hc as <-. eapply chain_head; exact H.
  - eapply chain_last; eassumption.
  - intros x Hx. eapply chain_covers; [exact Hov | exact H | lia].
Qed.

(** For a positive chunk size and [0 <= overlap < chunk_size], whatever
    the uniform strategy returns leaves no gap between adjacent segments
    (the next one starts at or before the end of the previous one), starts
    at offset 0, ends at [len(document)], and so covers every offset of the
    document.  When [chunk_size >= overlap + 200] there is such a result;
    for narrower pairs there may be none, as [doc_stuck] shows. *)
Theorem uniform_covers_document (doc : pystr) (chunk_size overlap : Z) :
  0 < chunk_size -> 0 <= overlap < chunk_size ->
  (forall fuel l,
      chunk_document fuel doc chunk_size overlap = Some l ->
      covers_without_gaps doc l) /\
  (overlap + 200 <= chunk_size ->
   exists l, chunk_document (S (length doc)) doc chunk_size overlap = Some l /\
             covers_without_gaps doc l).
Proof.
  intros Hcs Hov.
  assert (Hall : forall fuel l,
             chunk_document fuel doc chunk_size overlap = Some l ->
             covers_without_gaps doc l).
  { intros fuel l H. apply loop_chain in H; [|exact Hcs].
    apply (chain_covers_document doc overlap); [lia | exact H]. }
  split; [exact Hall|].
  intros Hwide.
  destruct (chunk_document_terminates_wide doc chunk_size overlap) as [l Hl];
    [lia | exact Hwide |].
  exists l. split; [exact Hl | exact (Hall _ _ Hl)].
Qed.

Lemma uniform_covers_document_witness :
  covers_without_gaps demo_doc demo_chunks /\
  exists l, chunk_document (S (length doc_1000_A)) doc_1000_A 300 50 = Some l /\
            covers_without_gaps doc_1000_A l.
Proof.
  split.
  - apply (proj1 (uniform_covers_document demo_doc 10 1 ltac:(lia) ltac:(lia))
             20%nat demo_chunks).
    vm_compute. reflexivity.
  - apply (proj2 (uniform_covers_document doc_1000_A 300 50 ltac:(lia) ltac:(lia))).
    lia.
Defined.

(** *** The boundary policy *)

Lemma rfind_down_last (s sub : pystr) (lo : Z) (k : nat) :
  (rfind_down s sub lo k = -1 /\
   forall i, lo <= i < lo + Z.of_nat k -> occurs sub s i = false) \/
  (lo <= rfind_down s sub lo k < lo + Z.of_nat k /\
   occurs sub s (rfind_down s sub lo k) = true /\
   forall i, rfind_down s sub lo k < i < lo + Z.of_nat k -> occurs sub s i = false).
Proof.
  induction k as [|k IH]; cbn [rfind_down].
  - left. split; [reflexivity | intros i Hi; lia].
  - fold (occurs sub s (lo + Z.of_nat k)).
    destruct (occurs sub s (lo + Z.of_nat k)) eqn:E.
    + right. split; [lia | split; [exact E | intros i Hi; lia]].
    + assert (Hstep : forall i, i = lo + Z.of_nat k \/ i < lo + Z.of_nat k ->
                                 lo + Z.of_nat k <= i -> occurs sub s i = false).
      { intros i [-> | Hi] Hge; [exact E | lia]. }
      destruct IH as [[Hr Hnone] | [Hr [Hocc Hnone]]].
      * left. split; [exact Hr|]. intros i Hi.
        destruct (Z.lt_ge_cases i (lo + Z.of_nat k)); [apply Hnone; lia|].
        apply Hstep; lia.
      * right. split; [lia | split; [exact Hocc|]]. intros i Hi.
        destruct (Z.lt_ge_cases i (lo + Z.of_nat k)); [apply Hnone; lia|].
        apply Hstep; lia.
Qed.

(** [rfind] on a window that lies inside the text: the last occurrence in
    the window, or -1 when the window has none. *)
Lemma rfind_window (s sub : pystr) (lo hi : Z) :
  0 <= lo -> 0 <= hi <= len s ->
  (rfind s sub lo hi = -1 /\
   forall j, lo <= j -> j + len sub <= hi -> occurs sub s j = false) \/
  last_in_window sub s lo hi (rfind s sub lo hi).
Proof.
  intros Hlo Hhi. unfold rfind, last_in_window.
  assert (Es : adjust_start (len s) lo = lo).
  { unfold adjust_start. destruct (Z.ltb_spec lo 0); [lia | reflexivity]. }
  assert (Ee : adjust_end (len s) hi = hi).
  { unfold adjust_end. destruct (Z.gtb_spec hi (len s)); [lia|].
    destruct (Z.ltb_spec hi 0); [lia | reflexivity]. }
  rewrite Es, Ee.
  set (k := Z.to_nat (hi - len sub - lo + 1)).
  destruct (rfind_down_last s sub lo k) as [[Hr Hnone] | [Hr [Hocc Hnone]]].
  - left. split; [exact Hr|]. intros j H1 H2. apply Hnone. unfold k. lia.
  - right. assert (Hk : Z.of_nat k = hi - len sub - lo + 1) by (unfold k; lia).
    split; [lia | split; [lia | split; [exact Hocc|]]].
    intros j H1 H2. apply Hnone. lia.
Qed.

(** At the end of the document the cut is not refined. *)
Lemma chunk_end_at_end (doc : pystr) (cs start : Z) :
  len doc <= start + cs -> chunk_end doc cs start = len doc.
Proof.
  intros H. unfold chunk_end. rewrite Z.min_r by lia.
  rewrite Z.ltb_irrefl. reflexivity.
Qed.

(** Where the window of 200 characters does not reach in front of the text
    (and the segment starts inside it), the cut follows the policy. *)
Lemma chunk_end_policy (doc : pystr) (cs start : Z) :
  0 <= start -> 200 <= start + cs -> start + cs < len doc ->
  Cut doc start (start + cs) (chunk_end doc cs start).
Proof.
  intros Hs Hp Hlt. unfold chunk_end. rewrite Z.min_l by lia.
  set (p := start + cs) in *.
  destruct (Z.ltb_spec p (len doc)) as [_ | Hge]; [|lia].
  destruct (rfind_window doc [NL] (p - 200) p ltac:(lia) ltac:(lia))
    as [[Hr Hnone] | Hlast].
  - rewrite Hr. destruct (Z.gtb_spec (-1) start) as [Hgt | _]; [lia|].
    assert (Hnl : none_behind [NL] doc (p - 200) p start)
      by (intros j H1 H2 _; apply Hnone; assumption).
    destruct (rfind_window doc [DOT; SP] (p - 200) p ltac:(lia) ltac:(lia))
      as [[Hr' Hnone'] | Hlast'].
    + rewrite Hr'. destruct (Z.gtb_spec (-1) start) as [Hgt | _]; [lia|].
      apply cut_hard; [exact Hnl|]. intros j H1 H2 _. apply Hnone'; assumption.
    + destruct (Z.gtb_spec (rfind doc [DOT; SP] (p - 200) p) start) as [Hgt | Hle].
      * apply cut_sentence; assumption.
      * apply cut_hard; [exact Hnl|]. intros j H1 H2 H3.
        destruct Hlast' as [_ [_ [_ Hmax]]]. apply Hmax; lia.
  - destruct (Z.gtb_spec (rfind doc [NL] (p - 200) p) start) as [Hgt | Hle].
    + apply cut_line; assumption.
    + assert (Hnl : none_behind [NL] doc (p - 200) p start).
      { intros j H1 H2 H3. destruct Hlast as [_ [_ [_ Hmax]]]. apply Hmax; lia. }
      destruct (rfind_window doc [DOT; SP] (p - 200) p ltac:(lia) ltac:(lia))
        as [[Hr' Hnone'] | Hlast'].
      * rewrite Hr'. destruct (Z.gtb_spec (-1) start) as [Hgt | _]; [lia|].
        apply cut_hard; [exact Hnl|]. intros j H1 H2 _. apply Hnone'; assumption.
      * destruct (Z.gtb_spec (rfind doc [DOT; SP] (p - 200) p) start) as [Hgt | Hle'].
        -- apply cut_sentence; assumption.
        -- apply cut_hard; [exact Hnl|]. intros j H1 H2 H3.
           destruct Hlast' as [_ [_ [_ Hmax]]]. apply Hmax; lia.
Qed.

Lemma doc_stuck_loops (fuel : nat) :
  forall idx, chunk_document_loop fuel doc_stuck 3 2 1 idx = None.
Proof.
  assert (E : chunk_end doc_stuck 3 1 = 3) by (vm_compute; reflexivity).
  assert (L : len doc_stuck = 5) by reflexivity.
  induction fuel as [|fuel IH]; intros idx; [reflexivity|].
  rewrite chunk_document_loop_S, E, L. simpl.
  rewrite IH. reflexivity.
Qed.

(** C4. The loop of the uniform strategy does not end on the text
    [ab\ncd] with [chunk_size = 3] and [overlap = 2], although
    [chunk_size > overlap >= 0]: the cut behind the line break at offset 2
    sends [start] from 1 back to 1, so no amount of fuel yields a result. *)
Theorem uniform_loop_diverges :
  0 < 3 /\ 0 <= 2 < 3 /\
  forall fuel, chunk_document fuel doc_stuck 3 2 = None.
Proof.
  split; [lia | split; [lia|]].
  intros [|fuel]; [reflexivity|].
  unfold chunk_document. rewrite chunk_document_loop_S.
  assert (E : chunk_end doc_stuck 3 0 = 3) by (vm_compute; reflexivity).
  assert (L : len doc_stuck = 5) by reflexivity.
  rewrite E, L. simpl. rewrite doc_stuck_loops. reflexivity.
Qed.

(** The list under construction agrees with the result, when there is
    one. *)
Lemma chunk_document_passes_result (fuel : nat) (doc : pystr) (cs ov : Z) :
  forall start idx l,
    chunk_document_loop fuel doc cs ov start idx = Some l ->
    chunk_document_passes fuel doc cs ov start idx = l.
Proof.
  induction fuel as [|fuel IH]; intros start idx l H; [discriminate|].
  rewrite chunk_document_loop_S in H. cbn [chunk_document_passes].
  destruct (start <? len doc); [|congruence].
  cbv zeta in *.
  destruct (chunk_document_loop fuel doc cs ov
              (if chunk_end doc cs start <? len doc
               then chunk_end doc cs start - ov
               else chunk_end doc cs start) (idx + 1)) as [l'|] eqn:E;
    [|discriminate].
  injection H as <-. f_equal. apply IH. exact E.
Qed.

(** Before the loop ends, the list under construction is the beginning of
    the result. *)
Lemma chunk_document_passes_prefix (fuel : nat) (doc : pystr) (cs ov : Z) :
  forall start idx l,
    chunk_document_loop fuel doc cs ov start idx = Some l ->
    forall n, chunk_document_passes n doc cs ov start idx = firstn n l.
Proof.
  induction fuel as [|fuel IH]; intros start idx l H n; [discriminate|].
  rewrite chunk_document_loop_S in H.
  destruct n as [|n]; [reflexivity|]. cbn [chunk_document_passes].
  destruct (start <? len doc); [|injection H as <-; reflexivity].
  cbv zeta in *.
  destruct (chunk_document_loop fuel doc cs ov
              (if chunk_end doc cs start <? len doc
               then chunk_end doc cs start - ov
               else chunk_end doc cs start) (idx + 1)) as [l'|] eqn:E;
    [|discriminate].
  injection H as <-. cbn [firstn]. f_equal. apply IH. exact E.
Qed.

Lemma doc_stuck_passes (n : nat) :
  forall idx,
    spans (chunk_document_passes n doc_stuck 3 2 1 idx) = repeat (1, 3) n.
Proof.
  assert (E : chunk_end doc_stuck 3 1 = 3) by (vm_compute; reflexivity).
  assert (L : len doc_stuck = 5) by reflexivity.
  induction n as [|n IH]; intros idx; [reflexivity|].
  cbn [chunk_document_passes]. rewrite E, L.
  change (1 <? 5) with true. change (3 <? 5) with true. cbv iota zeta.
  change (3 - 2) with 1. cbn [spans map start_char end_char repeat].
  f_equal. apply IH.
Qed.

(** C2. The pair [chunk_size = 3], [overlap = 2] is valid, yet on the text
    [ab\ncd] the uniform strategy has no output that covers the document.
    No amount of fuel yields a segment list, and the list the loop is
    building never gets there: after the first pass it holds the segment from
    0 to 3, every further pass appends the segment from 1 to 3, so at no
    point does its last segment end at [len(document) = 5], and the offsets 3
    and 4 lie in none of its segments. *)
Theorem uniform_cover_not_produced :
  (0 < 3 /\ 0 <= 2 < 3) /\
  (forall fuel, chunk_document fuel doc_stuck 3 2 = None) /\
  len doc_stuck = 5 /\
  (forall n, spans (chunk_document_passes (S n) doc_stuck 3 2 0 0)
             = (0, 3) :: repeat (1, 3) n) /\
  (forall n, ~ covers_without_gaps doc_stuck
                 (chunk_document_passes n doc_stuck 3 2 0 0)).
Proof.
  assert (E : chunk_end doc_stuck 3 0 = 3) by (vm_compute; reflexivity).
  assert (L : len doc_stuck = 5) by reflexivity.
  assert (Hspans : forall n,
             spans (chunk_document_passes (S n) doc_stuck 3 2 0 0)
             = (0, 3) :: repeat (1, 3) n).
  { intros n. cbn [chunk_document_passes]. rewrite E, L.
    change (0 <? 5) with true. change (3 <? 5) with true. cbv iota zeta.
    change (3 - 2) with 1. cbn [spans map start_char end_char].
    f_equal. apply doc_stuck_passes. }
  split; [lia|]. split; [|split; [exact L | split; [exact Hspans|]]].
  - intros [|fuel]; [reflexivity|].
    unfold chunk_document. rewrite chunk_document_loop_S, E, L. simpl.
    rewrite doc_stuck_loops. reflexivity.
  - intros n [_ [_ [_ Hcov]]].
    destruct (Hcov 3 ltac:(rewrite L; lia)) as [c [Hin Hc]].
    assert (Hsp : In (start_char c, end_char c)
                     (spans (chunk_document_passes n doc_stuck 3 2 0 0))).
    { unfold spans. apply (in_map (fun c => (start_char c, end_char c))).
      exact Hin. }
    destruct n as [|n]; [exact Hsp|].
    rewrite Hspans in Hsp. destruct Hsp as [Hsp | Hsp].
    + injection Hsp as _ He. lia.
    + apply repeat_spec in Hsp. injection Hsp as _ He. lia.
Qed.

Lemma doc_wrap_line_break : occurs [NL] doc_wrap 2 = true.
Proof. reflexivity. Qed.

(** C5. In [doc_wrap] the first cut has the provisional end 10, inside the
    text; offset 2 holds a line break, behind the start 0 and inside the
    window from 10 - 200 to 10, so the policy puts the cut at 3.  The code
    leaves it at 10: [rfind] reads the negative window start -190 from the
    end of the text, finds nothing, and the first segment spans 0 to 10. *)
Theorem boundary_window_wraps :
  0 + 10 < len doc_wrap /\
  Cut doc_wrap 0 10 3 /\
  rfind doc_wrap [NL] (10 - 200) 10 = -1 /\
  chunk_end doc_wrap 10 0 = 10 /\
  ~ Cut doc_wrap 0 10 (chunk_end doc_wrap 10 0) /\
  option_map (fun l => firstn 1 (spans l)) (chunk_document 40 doc_wrap 10 0)
  = Some [(0, 10)].
Proof.
  assert (E : chunk_end doc_wrap 10 0 = 10) by (vm_compute; reflexivity).
  split; [vm_compute; reflexivity|].
  split.
  - apply (cut_line doc_wrap 0 10 2); [|lia].
    split; [lia | split; [unfold len; simpl; lia | split; [reflexivity|]]].
    intros j H1 H2. unfold len in H2. simpl in H2.
    assert (Hj : j = 3 \/ j = 4 \/ j = 5 \/ j = 6 \/ j = 7 \/ j = 8 \/ j = 9) by lia.
    repeat (destruct Hj as [-> | Hj]; [reflexivity|]). subst j. reflexivity.
  - split; [vm_compute; reflexivity|]. split; [exact E|].
    split; [|vm_compute; reflexivity].
    rewrite E. intros H.
    assert (Hnone : none_behind [NL] doc_wrap (10 - 200) 10 0 -> False).
    { intros Hn. specialize (Hn 2). rewrite doc_wrap_line_break in Hn.
      assert (true = false); [|discriminate].
      apply Hn; unfold len; simpl; lia. }
    remember 10 as p eqn:Ep in H at 2.
    destruct H as [i Hlast Hi | i Hn Hlast Hi | Hn Hn'].
    + assert (i = 9) by lia. subst i.
      destruct Hlast as [_ [_ [Hocc _]]]. vm_compute in Hocc. discriminate.
    + exact (Hnone Hn).
    + exact (Hnone Hn).
Qed.

(** ** Packing: the loops of the paragraph and semantic strategies *)

Lemma block_cons (sep u : pystr) (g : list pystr) :
  block sep (u :: g) = (u ++ sep) ++ block sep g.
Proof. reflexivity. Qed.

Lemma block_app (sep : pystr) (g h : list pystr) :
  block sep (g ++ h) = block sep g ++ block sep h.
Proof. unfold block. rewrite map_app, concat_app. reflexivity. Qed.

Lemma block_one (sep u : pystr) : block sep [u] = u ++ sep.
Proof. unfold block. simpl. apply app_nil_r. Qed.

Lemma block_empty_sep (g : list pystr) : block [] g = concat g.
Proof.
  induction g as [|u g IH]; [reflexivity|].
  rewrite block_cons, IH, app_nil_r. reflexivity.
Qed.

Lemma chunks_of_app (A B : list pystr) :
  forall start idx,
    chunks_of start idx (A ++ B) =
    chunks_of start idx A ++
    chunks_of (start + len (concat A)) (idx + Z.of_nat (length A)) B.
Proof.
  induction A as [|a A IH]; intros start idx.
  - unfold len. simpl. rewrite !Z.add_0_r. reflexivity.
  - cbn [app chunks_of concat length].
    rewrite IH, len_app, Nat2Z.inj_succ, Z.add_assoc.
    replace (idx + Z.succ (Z.of_nat (length A)))
      with (idx + 1 + Z.of_nat (length A)) by lia.
    reflexivity.
Qed.

Lemma chunks_of_snoc (A : list pystr) (b : pystr) :
  chunks_of 0 0 (A ++ [b]) =
  chunks_of 0 0 A ++
  [mkChunkInfo (Z.of_nat (length A)) (len (concat A))
     (len (concat A) + len b) b (len b / 4)].
Proof. rewrite chunks_of_app. reflexivity. Qed.

Lemma concat_snoc (A : list pystr) (b : pystr) : concat (A ++ [b]) = concat A ++ b.
Proof. rewrite concat_app. simpl. rewrite app_nil_r. reflexivity. Qed.

Lemma state_of_emit (sep : pystr) (G : list (list pystr)) (g h : list pystr) :
  mkPackState
    (st_chunks (state_of sep (G, g)) ++ [current_chunk_info (state_of sep (G, g))])
    (block sep h)
    (st_current_start (state_of sep (G, g)) + len (st_current_chunk (state_of sep (G, g))))
    (st_index (state_of sep (G, g)) + 1)
  = state_of sep (G ++ [g], h).
Proof.
  unfold state_of, current_chunk_info. simpl.
  rewrite map_app. simpl.
  rewrite chunks_of_snoc, concat_snoc, len_app, length_map, length_app. simpl.
  f_equal. lia.
Qed.

Lemma paragraph_step_groups (max_size : Z) (Gg : groups) (u : pystr) :
  paragraph_step max_size (state_of SEP2 Gg) u
  = state_of SEP2 (group_step SEP2 max_size Gg u).
Proof.
  destruct Gg as [G g]. unfold paragraph_step, group_step.
  change (st_current_chunk (state_of SEP2 (G, g))) with (block SEP2 g).
  destruct ((len (block SEP2 g) + len u >? max_size) && nonempty (block SEP2 g)).
  - rewrite <- state_of_emit. rewrite block_one. reflexivity.
  - unfold state_of. simpl. rewrite block_app, block_one. reflexivity.
Qed.

Lemma header_step_groups (max_size : Z) (Gg : groups) (u : pystr) :
  header_step max_size (state_of [] Gg) u
  = state_of [] (group_step [] max_size Gg u).
Proof.
  destruct Gg as [G g]. unfold header_step, group_step.
  change (st_current_chunk (state_of [] (G, g))) with (block [] g).
  destruct ((len (block [] g) + len u >? max_size) && nonempty (block [] g)).
  - rewrite <- state_of_emit. rewrite block_one, app_nil_r. reflexivity.
  - unfold state_of. simpl. rewrite block_app, block_one, app_nil_r. reflexivity.
Qed.

Lemma paragraph_fold_groups (max_size : Z) (units : list pystr) :
  forall Gg,
    fold_left (paragraph_step max_size) units (state_of SEP2 Gg)
    = state_of SEP2 (fold_left (group_step SEP2 max_size) units Gg).
Proof.
  induction units as [|u units IH]; intros Gg; simpl; [reflexivity|].
  rewrite paragraph_step_groups. apply IH.
Qed.

Lemma header_fold_groups (max_size : Z) (units : list pystr) :
  forall Gg,
    fold_left (header_step max_size) units (state_of [] Gg)
    = state_of [] (fold_left (group_step [] max_size) units Gg).
Proof.
  induction units as [|u units IH]; intros Gg; simpl; [reflexivity|].
  rewrite header_step_groups. apply IH.
Qed.

Lemma headers_loop_two (max_size : Z) (s s' : pystr) (rest : list pystr)
    (st : PackState) :
  headers_loop max_size (s :: s' :: rest) st =
  if Re.starts_header s
  then headers_loop max_size rest (header_step max_size st (s ++ s'))
  else headers_loop max_size (s' :: rest) (header_step max_size st s).
Proof. reflexivity. Qed.

Lemma header_units_two (s s' : pystr) (rest : list pystr) :
  header_units (s :: s' :: rest) =
  if Re.starts_header s
  then (s ++ s') :: header_units rest
  else s :: header_units (s' :: rest).
Proof. reflexivity. Qed.

(** The [while] loop over the sections is the packing of the units. *)
Lemma headers_loop_units (max_size : Z) (n : nat) :
  forall sections st,
    (length sections <= n)%nat ->
    headers_loop max_size sections st
    = fold_left (header_step max_size) (header_units sections) st.
Proof.
  induction n as [|n IH]; intros sections st Hn.
  - destruct sections; [reflexivity | simpl in Hn; lia].
  - destruct sections as [|s [|s' rest]]; try reflexivity.
    simpl in Hn. rewrite headers_loop_two, header_units_two.
    destruct (Re.starts_header s); cbn [fold_left]; apply IH; simpl; lia.
Qed.

Lemma pack_finish_groups (sep : pystr) (Gg : groups) :
  pack_finish (state_of sep Gg)
  = chunks_of 0 0 (map (block sep) (emitted sep (all_groups Gg))).
Proof.
  destruct Gg as [G g]. unfold pack_finish, emitted, all_groups. simpl fst. simpl snd.
  rewrite last_last, removelast_last.
  change (st_current_chunk (state_of sep (G, g))) with (block sep g).
  destruct (strip_nonempty (block sep g)); [|reflexivity].
  rewrite map_app. simpl. rewrite chunks_of_snoc, length_map.
  reflexivity.
Qed.

(** Both strategies lay the blocks of the emitted groups end to end. *)
Lemma chunk_by_paragraphs_groups (doc : pystr) (max_size : Z) :
  chunk_by_paragraphs doc max_size
  = chunks_of 0 0
      (map (block SEP2)
         (emitted SEP2 (all_groups (pack_groups SEP2 max_size (paragraph_units doc))))).
Proof.
  unfold chunk_by_paragraphs, pack_groups, paragraph_units.
  change pack_init with (state_of SEP2 ([], [])).
  rewrite paragraph_fold_groups. apply pack_finish_groups.
Qed.

Lemma chunk_by_headers_groups (doc : pystr) (max_size : Z) :
  chunk_by_headers doc max_size
  = chunks_of 0 0
      (map (block [])
         (emitted [] (all_groups (pack_groups [] max_size (semantic_units doc))))).
Proof.
  unfold chunk_by_headers, pack_groups, semantic_units.
  rewrite (headers_loop_units max_size (length (Re.split_headers doc))) by lia.
  change pack_init with (state_of [] ([], [])).
  rewrite header_fold_groups. apply pack_finish_groups.
Qed.

(** *** Invariants of the groups *)

Section Groups.

Variable sep : pystr.
Variable max_size : Z.

Lemma group_step_concat (Gg : groups) (u : pystr) :
  concat (all_groups (group_step sep max_size Gg u))
  = concat (all_groups Gg) ++ [u].
Proof.
  destruct Gg as [G g]. unfold group_step, all_groups.
  destruct ((len (block sep g) + len u >? max_size) && nonempty (block sep g));
    simpl fst; simpl snd; rewrite !concat_app; simpl;
    rewrite ?app_nil_r, <- ?app_assoc; reflexivity.
Qed.

Lemma groups_concat (units : list pystr) :
  forall Gg,
    concat (all_groups (fold_left (group_step sep max_size) units Gg))
    = concat (all_groups Gg) ++ units.
Proof.
  induction units as [|u units IH]; intros Gg; simpl.
  - rewrite app_nil_r. reflexivity.
  - rewrite IH, group_step_concat, <- app_assoc. reflexivity.
Qed.

Lemma group_step_closed_nonempty (Gg : groups) (u : pystr) :
  Forall (fun g => block sep g <> []) (fst Gg) ->
  Forall (fun g => block sep g <> []) (fst (group_step sep max_size Gg u)).
Proof.
  destruct Gg as [G g]. unfold group_step. simpl fst.
  destruct (len (block sep g) + len u >? max_size); simpl andb; [|auto].
  destruct (block sep g) eqn:E; simpl; [auto|].
  intros H. apply Forall_app. split; [exact H|].
  constructor; [|constructor]. rewrite E. discriminate.
Qed.

Lemma groups_closed_nonempty (units : list pystr) :
  forall Gg,
    Forall (fun g => block sep g <> []) (fst Gg) ->
    Forall (fun g => block sep g <> [])
      (fst (fold_left (group_step sep max_size) units Gg)).
Proof.
  induction units as [|u units IH]; intros Gg H; simpl; [exact H|].
  apply IH, group_step_closed_nonempty, H.
Qed.

Hypothesis max_nonneg : 0 <= max_size.

Lemma oversized_alone_one (u : pystr) : oversized_alone sep max_size [u].
Proof.
  intros pre v post E _. destruct pre as [|p pre]; simpl in E.
  - injection E as _ <-. split; reflexivity.
  - injection E as _ E. destruct pre; discriminate.
Qed.

Lemma oversized_alone_nil : oversized_alone sep max_size [].
Proof. intros pre v post E _. destruct pre; discriminate. Qed.

Lemma oversized_alone_snoc (g : list pystr) (u : pystr) :
  oversized_alone sep max_size g ->
  (len (block sep g) + len u >? max_size) && nonempty (block sep g) = false ->
  oversized_alone sep max_size (g ++ [u]).
Proof.
  intros Hg Hc pre v post E Hv.
  revert E. induction post as [|u' post' _] using rev_ind; intros E.
  - apply app_inj_tail in E as [-> ->]. split; [reflexivity|].
    apply andb_false_iff in Hc as [Hc | Hc].
    + pose proof (len_nonneg (block sep pre)).
      destruct (Z.gtb_spec (len (block sep pre) + len v) max_size);
        [discriminate | lia].
    + destruct (block sep pre); [reflexivity | discriminate].
  - exfalso.
    change (pre ++ v :: post' ++ [u']) with (pre ++ (v :: post') ++ [u']) in E.
    rewrite app_assoc in E. apply app_inj_tail in E as [-> ->].
    destruct (Hg pre v post' eq_refl Hv) as [-> Hpre].
    rewrite block_app, block_one, Hpre in Hc. simpl app in Hc.
    pose proof (len_nonneg u'). pose proof (len_nonneg sep).
    assert (Hlen : max_size < len (v ++ sep)) by (rewrite len_app; lia).
    apply andb_false_iff in Hc as [Hc | Hc].
    + destruct (Z.gtb_spec (len (v ++ sep) + len u') max_size);
        [discriminate | lia].
    + destruct (v ++ sep) eqn:Evs; [|discriminate].
      unfold len in Hlen. simpl in Hlen. lia.
Qed.

Lemma group_step_oversized (Gg : groups) (u : pystr) :
  Forall (oversized_alone sep max_size) (all_groups Gg) ->
  Forall (oversized_alone sep max_size) (all_groups (group_step sep max_size Gg u)).
Proof.
  destruct Gg as [G g]. unfold group_step, all_groups. simpl fst. simpl snd.
  intros H. apply Forall_app in H as [HG Hg]. inversion Hg as [|? ? Hg' _]; subst.
  destruct ((len (block sep g) + len u >? max_size) && nonempty (block sep g)) eqn:E;
    simpl fst; simpl snd.
  - apply Forall_app. split.
    + apply Forall_app. split; [exact HG | constructor; [exact Hg' | constructor]].
    + constructor; [apply oversized_alone_one | constructor].
  - apply Forall_app. split; [exact HG|].
    constructor; [|constructor]. apply oversized_alone_snoc; assumption.
Qed.

Lemma groups_oversized (units : list pystr) :
  forall Gg,
    Forall (oversized_alone sep max_size) (all_groups Gg) ->
    Forall (oversized_alone sep max_size)
      (all_groups (fold_left (group_step sep max_size) units Gg)).
Proof.
  induction units as [|u units IH]; intros Gg H; simpl; [exact H|].
  apply IH, group_step_oversized, H.
Qed.

End Groups.

(** ** The regular expressions *)

Lemma all_space_app (a b : pystr) : all_space a -> all_space b -> all_space (a ++ b).
Proof. intros Ha Hb. apply Forall_app. split; assumption. Qed.

Lemma strip_nonempty_false (s : pystr) : strip_nonempty s = false <-> all_space s.
Proof.
  unfold strip_nonempty, all_space. induction s as [|c s IH]; simpl.
  - split; [constructor | reflexivity].
  - rewrite orb_false_iff, IH, negb_false_iff. split.
    + intros [Hc Hs]. constructor; assumption.
    + intros H. inversion H; subst. split; assumption.
Qed.

Lemma strip_nonempty_nonempty (s : pystr) : strip_nonempty s = true -> s <> [].
Proof. intros H ->. discriminate. Qed.

Lemma space_not_hash (c : char) : isspace c = true -> Re.is_hash c = false.
Proof.
  intros H. unfold Re.is_hash, char_eqb. destruct (N.eqb_spec c HASH) as [-> | _];
    [discriminate H | reflexivity].
Qed.

Lemma match_header_space (c : char) (s : pystr) :
  isspace c = true -> Re.match_header (c :: s) = None.
Proof.
  intros H. unfold Re.match_header. simpl. rewrite (space_not_hash c H). reflexivity.
Qed.

(** A text of whitespace has no header: the split leaves it in one piece. *)
Lemma split_hdr_space (s : pystr) :
  all_space s -> forall bol cur, Re.split_hdr O bol cur s = [cur ++ s].
Proof.
  induction s as [|c s IH]; intros H bol cur; simpl.
  - rewrite app_nil_r. reflexivity.
  - inversion H; subst. rewrite match_header_space by assumption.
    destruct bol; rewrite IH by assumption; rewrite <- app_assoc; reflexivity.
Qed.

(** The pieces of the header split, put together, are the text. *)
Lemma split_hdr_concat (s : pystr) :
  forall skip bol cur, concat (Re.split_hdr skip bol cur s) = cur ++ skipn skip s.
Proof.
  induction s as [|c s IH]; intros skip bol cur.
  - simpl. rewrite skipn_nil. reflexivity.
  - destruct skip as [|k]; cbn [Re.split_hdr].
    + destruct (if bol then Re.match_header (c :: s) else None) as [[|n]|];
        cbn [concat]; rewrite IH; simpl skipn.
      * rewrite <- app_assoc. reflexivity.
      * simpl firstn. simpl app. rewrite firstn_skipn. reflexivity.
      * rewrite <- app_assoc. reflexivity.
    + rewrite IH. reflexivity.
Qed.

Lemma header_units_concat (n : nat) :
  forall sections, (length sections <= n)%nat ->
    concat (header_units sections) = concat sections.
Proof.
  induction n as [|n IH]; intros sections Hn.
  - destruct sections; [reflexivity | simpl in Hn; lia].
  - destruct sections as [|s [|s' rest]]; try reflexivity.
    simpl in Hn. rewrite header_units_two.
    destruct (Re.starts_header s); cbn [concat]; rewrite IH by (simpl; lia).
    + rewrite <- app_assoc. reflexivity.
    + reflexivity.
Qed.

(** The units of the semantic strategy, in order, make up the document. *)
Lemma semantic_units_concat (doc : pystr) : concat (semantic_units doc) = doc.
Proof.
  unfold semantic_units.
  rewrite (header_units_concat (length (Re.split_headers doc))) by lia.
  unfold Re.split_headers. rewrite split_hdr_concat. reflexivity.
Qed.

Lemma last_nl_in_ws_bound (s : pystr) (j : nat) :
  Re.last_nl_in_ws s = Some j -> (j < length s)%nat.
Proof.
  revert j. induction s as [|c s IH]; intros j; simpl; [discriminate|].
  destruct (isspace c); [|discriminate].
  destruct (Re.last_nl_in_ws s) as [j'|].
  - intros [= <-]. specialize (IH j' eq_refl). lia.
  - destruct (char_eqb c NL); [|discriminate]. intros [= <-]. lia.
Qed.

(** A paragraph separator has at least two characters, all within the text. *)
Lemma match_blank_bound (s : pystr) (n : nat) :
  Re.match_blank s = Some n -> (2 <= n <= length s)%nat.
Proof.
  destruct s as [|c s]; simpl; [discriminate|].
  destruct (char_eqb c NL); [|discriminate].
  destruct (Re.last_nl_in_ws s) as [j|] eqn:E; [|discriminate].
  intros [= <-]. apply last_nl_in_ws_bound in E. lia.
Qed.

(** The paragraphs of a whitespace text are whitespace. *)
Lemma split_blank_space (s : pystr) :
  all_space s -> forall skip cur, all_space cur ->
    Forall all_space (Re.split_blank skip cur s).
Proof.
  induction s as [|c s IH]; intros H skip cur Hcur; cbn [Re.split_blank].
  - constructor; [assumption | constructor].
  - inversion H; subst. destruct skip as [|k]; [|auto].
    destruct (Re.match_blank (c :: s)).
    + constructor; [assumption|]. apply IH; [assumption | constructor].
    + apply IH; [assumption|]. apply all_space_app; [assumption|].
      constructor; [assumption | constructor].
Qed.

(** Putting the paragraphs together again, two line breaks behind each,
    gives at most two characters more than the text had. *)
Lemma split_blank_len (s : pystr) :
  forall skip cur,
    len (block SEP2 (Re.split_blank skip cur s)) + Z.of_nat (Nat.min skip (length s))
    <= len cur + len s + 2.
Proof.
  induction s as [|c s IH]; intros skip cur; cbn [Re.split_blank].
  - rewrite block_one, len_app. unfold len. simpl. lia.
  - destruct skip as [|k].
    + destruct (Re.match_blank (c :: s)) as [n|] eqn:E.
      * apply match_blank_bound in E. simpl in E.
        rewrite block_cons, !len_app. specialize (IH (pred n) []).
        unfold len in *. simpl in *. lia.
      * specialize (IH O (cur ++ [c])). rewrite len_app in IH.
        unfold len in *. simpl in *. lia.
    + specialize (IH k cur). unfold len in *. simpl in *. lia.
Qed.

Lemma paragraph_units_len (doc : pystr) :
  len (block SEP2 (paragraph_units doc)) <= len doc + 2.
Proof.
  pose proof (split_blank_len doc O []) as H.
  unfold paragraph_units, Re.split_paragraphs. unfold len in *. simpl in *. lia.
Qed.

Lemma block_space (sep : pystr) (g : list pystr) :
  all_space sep -> Forall all_space g -> all_space (block sep g).
Proof.
  intros Hsep. induction 1 as [|u g Hu Hg IH].
  - constructor.
  - rewrite block_cons. repeat apply all_space_app; assumption.
Qed.

Lemma SEP2_space : all_space SEP2.
Proof. repeat constructor. Qed.

(** ** Offsets and contents of the segments *)

Lemma slice_substring (doc : pystr) (a b : Z) :
  0 <= a -> a <= b -> b <= len doc -> slice doc a b = substring doc a b.
Proof.
  intros Ha Hab Hb. unfold slice, substring, slice_index.
  destruct (Z.ltb_spec a 0); [lia|]. destruct (Z.ltb_spec b 0); [lia|].
  rewrite !Z.min_l by lia. reflexivity.
Qed.

Lemma substring_len (doc : pystr) (lo hi : Z) :
  0 <= lo -> lo <= hi -> hi <= len doc -> len (substring doc lo hi) = hi - lo.
Proof.
  intros Hlo Hle Hhi. unfold substring, len in *.
  rewrite length_firstn, length_skipn. lia.
Qed.

Lemma skipn_length_app (a b : pystr) : skipn (length a) (a ++ b) = b.
Proof. induction a as [|x a IH]; simpl; auto. Qed.

Lemma firstn_length_app (a b : pystr) : firstn (length a) (a ++ b) = a.
Proof. induction a as [|x a IH]; simpl; [reflexivity | rewrite IH; reflexivity]. Qed.

Lemma substring_mid (pre b rest : pystr) :
  substring (pre ++ b ++ rest) (len pre) (len pre + len b) = b.
Proof.
  unfold substring, len.
  replace (Z.of_nat (length pre) + Z.of_nat (length b) - Z.of_nat (length pre))
    with (Z.of_nat (length b)) by lia.
  rewrite !Nat2Z.id, skipn_length_app, firstn_length_app. reflexivity.
Qed.

Lemma chunks_of_content (B : list pystr) :
  forall start idx, map content (chunks_of start idx B) = B.
Proof.
  induction B as [|b B IH]; intros start idx; simpl; [reflexivity|].
  rewrite IH. reflexivity.
Qed.

Lemma chunks_of_fields (B : list pystr) :
  forall start idx c,
    In c (chunks_of start idx B) ->
    start <= start_char c /\
    end_char c = start_char c + len (content c) /\
    token_estimate c = len (content c) / 4 /\
    In (content c) B.
Proof.
  induction B as [|b B IH]; intros start idx c Hc; simpl in Hc; [contradiction|].
  destruct Hc as [<- | Hc]; simpl.
  - repeat split; auto; lia.
  - destruct (IH _ _ _ Hc) as [H1 [H2 [H3 H4]]].
    pose proof (len_nonneg b). repeat split; auto; lia.
Qed.

Lemma chunks_of_substring (B : list pystr) (rest : pystr) :
  forall pre idx c,
    In c (chunks_of (len pre) idx B) ->
    content c = substring (pre ++ concat B ++ rest) (start_char c) (end_char c) /\
    end_char c <= len (pre ++ concat B ++ rest).
Proof.
  induction B as [|b B IH]; intros pre idx c Hc; simpl in Hc; [contradiction|].
  destruct Hc as [<- | Hc]; cbn [concat]; simpl.
  - rewrite <- app_assoc, substring_mid. split; [reflexivity|].
    rewrite !len_app.
    pose proof (len_nonneg (concat B)). pose proof (len_nonneg rest). lia.
  - rewrite <- len_app in Hc. destruct (IH _ _ _ Hc) as [H1 H2].
    rewrite <- !app_assoc in *. split; assumption.
Qed.

Lemma concat_map_block (sep : pystr) (gs : list (list pystr)) :
  concat (map (block sep) gs) = block sep (concat gs).
Proof.
  induction gs as [|g gs IH]; simpl; [reflexivity|].
  rewrite block_app, IH. reflexivity.
Qed.

(** What the emitted groups leave out is whitespace at the very end. *)
Lemma emitted_cover (sep : pystr) (Gg : groups) :
  exists rest,
    all_space rest /\
    concat (map (block sep) (emitted sep (all_groups Gg))) ++ rest
    = block sep (concat (all_groups Gg)).
Proof.
  destruct Gg as [G g]. unfold emitted, all_groups. simpl fst. simpl snd.
  rewrite last_last, removelast_last.
  destruct (strip_nonempty (block sep g)) eqn:E.
  - exists []. split; [constructor|]. rewrite app_nil_r. apply concat_map_block.
  - exists (block sep g). split; [apply strip_nonempty_false, E|].
    rewrite concat_map_block, concat_app, block_app. simpl.
    rewrite app_nil_r. reflexivity.
Qed.

Lemma emitted_nonempty (sep : pystr) (Gg : groups) :
  Forall (fun g => block sep g <> []) (fst Gg) ->
  Forall (fun b => b <> []) (map (block sep) (emitted sep (all_groups Gg))).
Proof.
  destruct Gg as [G g]. unfold emitted, all_groups. simpl fst. simpl snd.
  intros H. rewrite last_last, removelast_last. apply Forall_map.
  destruct (strip_nonempty (block sep g)) eqn:E; [|exact H].
  apply Forall_app. split; [exact H|].
  constructor; [|constructor]. apply strip_nonempty_nonempty, E.
Qed.

Lemma pack_groups_nonempty (sep : pystr) (max_size : Z) (units : list pystr) :
  Forall (fun b => b <> [])
    (map (block sep) (emitted sep (all_groups (pack_groups sep max_size units)))).
Proof.
  apply emitted_nonempty. unfold pack_groups.
  apply groups_closed_nonempty. constructor.
Qed.

Lemma pack_groups_concat (sep : pystr) (max_size : Z) (units : list pystr) :
  concat (all_groups (pack_groups sep max_size units)) = units.
Proof. unfold pack_groups. rewrite groups_concat. reflexivity. Qed.

Lemma nonempty_block_len (B : list pystr) (b : pystr) :
  Forall (fun b => b <> []) B -> In b B -> 0 < len b.
Proof.
  intros H Hb. rewrite Forall_forall in H. specialize (H b Hb).
  destruct b; [contradiction | unfold len; simpl; lia].
Qed.

Lemma chain_spans (doc : pystr) (ov start : Z) (l : list ChunkInfo) :
  Chain doc ov start l ->
  forall c, In c l -> start_char c < end_char c <= len doc.
Proof.
  induction 1 as [| start c rest Hlt Hs He Hrest IH]; intros c0 Hc0.
  - contradiction.
  - destruct Hc0 as [<- | Hc0]; [lia | auto].
Qed.

Lemma loop_fields (fuel : nat) (doc : pystr) (cs ov : Z) :
  forall start idx l,
    chunk_document_loop fuel doc cs ov start idx = Some l ->
    forall c, In c l ->
      content c = slice doc (start_char c) (end_char c) /\
      token_estimate c = len (content c) / 4.
Proof.
  induction fuel as [|fuel IH]; intros start idx l H c Hc; [discriminate|].
  rewrite chunk_document_loop_S in H.
  destruct (start <? len doc); [|injection H as <-; contradiction].
  cbv zeta in H.
  destruct (chunk_document_loop fuel doc cs ov _ (idx + 1)) as [l'|] eqn:E;
    [|discriminate].
  injection H as <-. destruct Hc as [<- | Hc].
  - split; reflexivity.
  - eapply IH; eassumption.
Qed.

(** With [chunk_size = 200] and [overlap = 3] the cut behind the line break
    at offset 1 of [doc_back] sends the loop to the start -1; the run ends
    all the same, with a second segment whose content is empty. *)
Lemma uniform_negative_start :
  option_map (map (fun c => (start_char c, end_char c, len (content c))))
    (chunk_document 4 doc_back 200 3)
  = Some [(0, 2, 2); (-1, 199, 0); (196, 302, 106)].
Proof. vm_compute. reflexivity. Qed.

Lemma semantic_segment_ok (doc : pystr) (max_size : Z) (c : ChunkInfo) :
  In c (chunk_by_headers doc max_size) -> segment_ok doc c.
Proof.
  rewrite chunk_by_headers_groups.
  set (Gg := pack_groups [] max_size (semantic_units doc)).
  set (B := map (block []) (emitted [] (all_groups Gg))).
  intros Hc.
  destruct (emitted_cover [] Gg) as [rest [_ Hcov]]. fold B in Hcov.
  unfold Gg in Hcov at 1.
  rewrite pack_groups_concat, block_empty_sep, semantic_units_concat in Hcov.
  destruct (chunks_of_fields B 0 0 c Hc) as [H1 [H2 [H3 H4]]].
  pose proof (nonempty_block_len B (content c)
                (pack_groups_nonempty [] max_size (semantic_units doc)) H4) as Hne.
  change 0 with (len []) in Hc at 1.
  destruct (chunks_of_substring B rest [] 0 c Hc) as [H5 H6].
  simpl app in H5, H6. rewrite Hcov in H5, H6.
  unfold segment_ok. repeat split; try assumption; lia.
Qed.

Lemma paragraph_segment_fields (doc : pystr) (max_size : Z) (c : ChunkInfo) :
  In c (chunk_by_paragraphs doc max_size) ->
  0 <= start_char c < end_char c /\
  end_char c - start_char c = len (content c) /\
  token_estimate c = len (content c) / 4.
Proof.
  rewrite chunk_by_paragraphs_groups. intros Hc.
  destruct (chunks_of_fields _ 0 0 c Hc) as [H1 [H2 [H3 H4]]].
  pose proof (nonempty_block_len _ (content c)
                (pack_groups_nonempty SEP2 max_size (paragraph_units doc)) H4) as Hne.
  repeat split; try assumption; lia.
Qed.

(** C3 (as the code has it). A segment of the semantic strategy satisfies
    [0 <= start < end <= len(document)], its content is the text of the
    document between its offsets, and its token estimate is
    [len(content) // 4].  A segment of the uniform strategy, for a positive
    chunk size and [0 <= overlap < chunk_size], satisfies
    [start < end <= len(document)] and the token estimate, and its content
    is the text between its offsets when its start is not negative.  A segment
    of the paragraph strategy satisfies [0 <= start < end], spans as many
    offsets as its content has characters, and has the token estimate; its
    end is not bounded by the document and its content not read from it. *)
Theorem segment_invariants (doc : pystr) :
  (forall max_size c, In c (chunk_by_headers doc max_size) -> segment_ok doc c) /\
  (forall fuel chunk_size overlap l c,
      0 < chunk_size -> 0 <= overlap < chunk_size ->
      chunk_document fuel doc chunk_size overlap = Some l -> In c l ->
      start_char c < end_char c <= len doc /\
      token_estimate c = len (content c) / 4 /\
      (0 <= start_char c ->
       content c = substring doc (start_char c) (end_char c))) /\
  (forall max_size c, In c (chunk_by_paragraphs doc max_size) ->
      0 <= start_char c < end_char c /\
      end_char c - start_char c = len (content c) /\
      token_estimate c = len (content c) / 4).
Proof.
  split; [|split].
  - apply semantic_segment_ok.
  - intros fuel cs ov l c Hcs Hov H Hc.
    pose proof (loop_chain fuel doc cs ov Hcs 0 0 l H) as Hchain.
    pose proof (chain_spans doc ov 0 l Hchain c Hc) as Hspan.
    destruct (loop_fields fuel doc cs ov 0 0 l H c Hc) as [Hcontent Htok].
    split; [exact Hspan | split; [exact Htok|]].
    intros H0. rewrite Hcontent at 1. apply slice_substring; lia.
  - apply paragraph_segment_fields.
Qed.

Lemma segment_invariants_witness :
  Forall (segment_ok doc_headers) (chunk_by_headers doc_headers 3) /\
  Forall (fun c => start_char c < end_char c <= len demo_doc /\
                   token_estimate c = len (content c) / 4 /\
                   (0 <= start_char c ->
                    content c = substring demo_doc (start_char c) (end_char c)))
    demo_chunks.
Proof.
  split.
  - apply Forall_forall. intros c Hc.
    exact (proj1 (segment_invariants doc_headers) 3 c Hc).
  - apply Forall_forall. intros c Hc.
    apply (proj1 (proj2 (segment_invariants demo_doc)) 20%nat 10 1 demo_chunks c);
      [lia | lia | vm_compute; reflexivity | exact Hc].
Defined.

(** C3, counterexample: on the text [abc] the paragraph strategy returns one
    segment with the offsets 0 and 5 and the content [abc\n\n]; its end lies
    behind the three characters of the document. *)
Lemma paragraph_segment_exceeds_document :
  chunk_by_paragraphs doc_abc 10 = [mkChunkInfo 0 0 5 (doc_abc ++ SEP2) 1] /\
  len doc_abc = 3 /\
  ~ Forall (segment_ok doc_abc) (chunk_by_paragraphs doc_abc 10).
Proof.
  assert (E : chunk_by_paragraphs doc_abc 10 = [mkChunkInfo 0 0 5 (doc_abc ++ SEP2) 1])
    by (vm_compute; reflexivity).
  split; [exact E | split; [reflexivity|]].
  rewrite E. intros H. inversion H as [|c l [_ [Hend _]] _]; subst.
  simpl in Hend. unfold len in Hend. simpl in Hend. lia.
Qed.

(** ** Units and segments *)

Lemma block_SEP2_nil (g : list pystr) : block SEP2 g = [] -> g = [].
Proof.
  destruct g as [|u g]; [reflexivity|]. rewrite block_cons.
  intros H. apply app_eq_nil in H as [H _]. apply app_eq_nil in H as [_ H].
  discriminate.
Qed.

Lemma pack_groups_oversized (sep : pystr) (max_size : Z) (units : list pystr) :
  0 <= max_size ->
  Forall (oversized_alone sep max_size) (all_groups (pack_groups sep max_size units)).
Proof.
  intros Hmax. unfold pack_groups. apply groups_oversized; [exact Hmax|].
  constructor; [apply oversized_alone_nil | constructor].
Qed.

(** C6 (as the code has it). For [max_size > 0] both strategies cut the
    sequence of units into consecutive groups and emit each group as one
    segment, the units of a group one behind the other (each paragraph
    followed by two line breaks), so that no segment boundary falls inside a
    unit; only a last group without any non-whitespace character is left
    out.  A paragraph larger than [max_size] is a group of its own; a
    semantic unit larger than [max_size] is the last unit of its group, with
    nothing but empty units in front of it. *)
Theorem units_never_split (doc : pystr) (max_size : Z) :
  0 < max_size ->
  (exists gs,
      concat gs = paragraph_units doc /\
      map content (chunk_by_paragraphs doc max_size)
        = map (block SEP2) (emitted SEP2 gs) /\
      (forall g u, In g gs -> In u g -> max_size < len u -> g = [u])) /\
  (exists gs,
      concat gs = semantic_units doc /\
      concat (semantic_units doc) = doc /\
      map content (chunk_by_headers doc max_size)
        = map (@concat char) (emitted [] gs) /\
      (forall g pre u post,
          In g gs -> g = pre ++ u :: post -> max_size < len u ->
          post = [] /\ concat pre = [])).
Proof.
  intros Hmax. split.
  - exists (all_groups (pack_groups SEP2 max_size (paragraph_units doc))).
    split; [apply pack_groups_concat | split].
    + rewrite chunk_by_paragraphs_groups. apply chunks_of_content.
    + intros g u Hg Hu Hlen.
      pose proof (pack_groups_oversized SEP2 max_size (paragraph_units doc)
                    ltac:(lia)) as Hall.
      rewrite Forall_forall in Hall. specialize (Hall g Hg).
      apply in_split in Hu as [pre [post ->]].
      destruct (Hall pre u post eq_refl Hlen) as [-> Hpre].
      apply block_SEP2_nil in Hpre. subst pre. reflexivity.
  - exists (all_groups (pack_groups [] max_size (semantic_units doc))).
    split; [apply pack_groups_concat | split; [apply semantic_units_concat | split]].
    + rewrite chunk_by_headers_groups, chunks_of_content.
      apply map_ext. apply block_empty_sep.
    + intros g pre u post Hg Eg Hlen.
      pose proof (pack_groups_oversized [] max_size (semantic_units doc)
                    ltac:(lia)) as Hall.
      rewrite Forall_forall in Hall. specialize (Hall g Hg).
      destruct (Hall pre u post Eg Hlen) as [-> Hpre].
      rewrite block_empty_sep in Hpre. split; [reflexivity | exact Hpre].
Qed.

Lemma units_never_split_witness :
  (exists gs,
      concat gs = paragraph_units doc_paragraphs /\
      map content (chunk_by_paragraphs doc_paragraphs 15)
        = map (block SEP2) (emitted SEP2 gs) /\
      (forall g u, In g gs -> In u g -> 15 < len u -> g = [u])) /\
  (exists gs,
      concat gs = semantic_units doc_headers /\
      concat (semantic_units doc_headers) = doc_headers /\
      map content (chunk_by_headers doc_headers 3)
        = map (@concat char) (emitted [] gs) /\
      (forall g pre u post,
          In g gs -> g = pre ++ u :: post -> 3 < len u ->
          post = [] /\ concat pre = [])).
Proof.
  split.
  - apply (proj1 (units_never_split doc_paragraphs 15 ltac:(lia))).
  - apply (proj2 (units_never_split doc_headers 3 ltac:(lia))).
Defined.

(** C6, counterexample: the document of two spaces is one unit of size 2;
    with [max_size = 1] the semantic strategy returns no segment at all, so
    the unit lies in none and is not emitted as a segment of its own. *)
Lemma oversized_blank_unit_dropped :
  doc_spaces <> [] /\ 0 < 1 /\
  semantic_units doc_spaces = [doc_spaces] /\ 1 < len doc_spaces /\
  chunk_by_headers doc_spaces 1 = [] /\
  ~ units_in_segments doc_spaces 1.
Proof.
  assert (E : chunk_by_headers doc_spaces 1 = []) by (vm_compute; reflexivity).
  assert (U : semantic_units doc_spaces = [doc_spaces]) by (vm_compute; reflexivity).
  repeat split; try assumption; try lia; try discriminate.
  intros H. destruct (H doc_spaces) as [c [Hc _]].
  - rewrite U. left. reflexivity.
  - rewrite E in Hc. contradiction.
Qed.

(** ** Whitespace *)

Lemma groups_no_close (sep : pystr) (max_size : Z) (units : list pystr) :
  forall G g,
    len (block sep (g ++ units)) <= max_size + len sep ->
    fold_left (group_step sep max_size) units (G, g) = (G, g ++ units).
Proof.
  induction units as [|u units IH]; intros G g H; cbn [fold_left].
  - rewrite app_nil_r. reflexivity.
  - assert (E : group_step sep max_size (G, g) u = (G, g ++ [u])).
    { unfold group_step. rewrite block_app, block_cons, !len_app in H.
      pose proof (len_nonneg (block sep units)).
      destruct (Z.gtb_spec (len (block sep g) + len u) max_size); [lia | reflexivity]. }
    rewrite E, IH; rewrite <- app_assoc; [reflexivity | exact H].
Qed.

Lemma paragraphs_of_whitespace (doc : pystr) (max_size : Z) :
  all_space doc -> len doc <= max_size -> chunk_by_paragraphs doc max_size = [].
Proof.
  intros Hws Hmax. rewrite chunk_by_paragraphs_groups. unfold pack_groups.
  rewrite groups_no_close.
  - unfold all_groups, emitted. simpl.
    assert (E : strip_nonempty (block SEP2 (paragraph_units doc)) = false).
    { apply strip_nonempty_false, block_space; [apply SEP2_space|].
      apply split_blank_space; [exact Hws | constructor]. }
    rewrite E. reflexivity.
  - pose proof (paragraph_units_len doc). simpl app.
    change (len SEP2) with 2. lia.
Qed.

Lemma headers_of_whitespace (doc : pystr) (max_size : Z) :
  all_space doc -> chunk_by_headers doc max_size = [].
Proof.
  intros Hws. unfold chunk_by_headers, Re.split_headers.
  rewrite split_hdr_space by exact Hws. simpl.
  unfold header_step, pack_finish. simpl. rewrite andb_false_r. simpl.
  apply strip_nonempty_false in Hws. rewrite Hws. reflexivity.
Qed.

Lemma pack_finish_cases (st : PackState) :
  (all_space (st_current_chunk st) -> pack_finish st = st_chunks st) /\
  (~ all_space (st_current_chunk st) ->
   pack_finish st = st_chunks st ++ [current_chunk_info st]).
Proof.
  unfold pack_finish. destruct (strip_nonempty (st_current_chunk st)) eqn:E.
  - split; [|reflexivity]. intros H. apply strip_nonempty_false in H. congruence.
  - split; [reflexivity|]. intros H. exfalso. apply H, strip_nonempty_false, E.
Qed.

(** C10 (as the code has it). The block left at the end of either loop
    becomes a segment exactly when it has a character that is not
    whitespace.  So what the segments leave out of the assembled units is
    whitespace at the very end; a whitespace document gives no segment under
    the semantic strategy, and none under the paragraph strategy when
    [max_size >= len(document)]. *)
Theorem final_block_whitespace (doc : pystr) (max_size : Z) :
  (forall st, all_space (st_current_chunk st) -> pack_finish st = st_chunks st) /\
  (forall st, ~ all_space (st_current_chunk st) ->
     pack_finish st = st_chunks st ++ [current_chunk_info st]) /\
  (all_space doc -> chunk_by_headers doc max_size = []) /\
  (all_space doc -> len doc <= max_size -> chunk_by_paragraphs doc max_size = []) /\
  (exists rest, all_space rest /\
     concat (map content (chunk_by_headers doc max_size)) ++ rest = doc) /\
  (exists rest, all_space rest /\
     concat (map content (chunk_by_paragraphs doc max_size)) ++ rest
     = block SEP2 (paragraph_units doc)).
Proof.
  split; [intros st; apply pack_finish_cases|].
  split; [intros st; apply pack_finish_cases|].
  split; [apply headers_of_whitespace|].
  split; [apply paragraphs_of_whitespace|].
  split.
  - rewrite chunk_by_headers_groups, chunks_of_content.
    destruct (emitted_cover [] (pack_groups [] max_size (semantic_units doc)))
      as [rest [Hrest Hcov]].
    rewrite pack_groups_concat, block_empty_sep, semantic_units_concat in Hcov.
    exists rest. split; assumption.
  - rewrite chunk_by_paragraphs_groups, chunks_of_content.
    destruct (emitted_cover SEP2 (pack_groups SEP2 max_size (paragraph_units doc)))
      as [rest [Hrest Hcov]].
    rewrite pack_groups_concat in Hcov.
    exists rest. split; assumption.
Qed.

Lemma final_block_whitespace_witness :
  chunk_by_headers doc_blank 1 = [] /\ chunk_by_paragraphs doc_blank 6 = [].
Proof.
  assert (Hws : all_space doc_blank) by (repeat constructor).
  destruct (final_block_whitespace doc_blank 1) as [_ [_ [H1 _]]].
  destruct (final_block_whitespace doc_blank 6) as [_ [_ [_ [H2 _]]]].
  split; [apply H1; exact Hws | apply H2; [exact Hws | vm_compute; discriminate]].
Defined.

(** C10, counterexample: the document of two whitespace paragraphs, with
    [max_size = 1], makes the paragraph strategy return a segment: the first
    paragraph is emitted when the second one arrives, without a look at its
    characters. *)
Lemma whitespace_paragraph_emitted :
  all_space doc_blank /\
  chunk_by_paragraphs doc_blank 1 = [mkChunkInfo 0 0 4 (str "  " ++ SEP2) 1] /\
  ~ whitespace_gives_nothing doc_blank 1.
Proof.
  assert (Hws : all_space doc_blank) by (repeat constructor).
  assert (E : chunk_by_paragraphs doc_blank 1 = [mkChunkInfo 0 0 4 (str "  " ++ SEP2) 1])
    by (vm_compute; reflexivity).
  split; [exact Hws | split; [exact E|]].
  intros H. destruct (H Hws) as [H1 _]. rewrite E in H1. discriminate.
Qed.

(** ** Parameter errors *)

Lemma str_eqb_false (a b : pystr) : str_eqb a b = false <-> a <> b.
Proof.
  split.
  - intros H E. apply str_eqb_eq in E. congruence.
  - intros H. destruct (str_eqb a b) eqn:E; [|reflexivity].
    apply str_eqb_eq in E. contradiction.
Qed.

Lemma known_strategy_false (strategy : pystr) :
  known_strategy strategy = false <-> unknown_strategy strategy.
Proof.
  unfold known_strategy, unknown_strategy.
  rewrite !orb_false_iff, !str_eqb_false. tauto.
Qed.

(** C1 (as the code has it). [RLMContext.chunk] raises exactly when the
    strategy name is none of uniform, paragraph and semantic, and what it
    raises is the [ValueError] that names the strategy; neither the chunk
    size nor the overlap is looked at. *)
Theorem chunk_raises_iff_unknown_strategy (fuel : nat) (self : RLMContext)
    (chunk_size overlap : Z) (strategy : pystr) :
  (raises (chunk fuel self chunk_size overlap strategy)
   <-> unknown_strategy strategy) /\
  (unknown_strategy strategy ->
   chunk fuel self chunk_size overlap strategy
   = Raised (ValueError (str "Unknown chunking strategy: " ++ strategy))).
Proof.
  rewrite <- known_strategy_false.
  unfold chunk, known_strategy, raises.
  destruct (str_eqb strategy (str "uniform")).
  - simpl orb. split; [split|]; try discriminate.
    intros [e He].
    destruct (chunk_document fuel (document self) chunk_size overlap); discriminate.
  - destruct (str_eqb strategy (str "paragraph")).
    + simpl orb. split; [split|]; try discriminate. intros [e He]. discriminate.
    + destruct (str_eqb strategy (str "semantic")).
      * simpl orb. split; [split|]; try discriminate. intros [e He]. discriminate.
      * simpl orb. split; [split|]; try reflexivity.
        intros _. eexists. reflexivity.
Qed.

Lemma chunk_raises_iff_unknown_strategy_witness :
  chunk 1 (new_context doc_abc) 10 0 (str "zigzag")
  = Raised (ValueError (str "Unknown chunking strategy: zigzag")).
Proof.
  apply (proj2 (chunk_raises_iff_unknown_strategy
                  1 (new_context doc_abc) 10 0 (str "zigzag"))).
  repeat split; intros H; vm_compute in H; discriminate.
Defined.

(** C1, counterexample: with [chunk_size = 0] the paragraph strategy returns
    a segment for the text [abc], and with [overlap = 7 >= chunk_size = 5]
    the uniform strategy returns one as well; no error is raised. *)
Lemma invalid_parameters_accepted :
  invalid_parameters 0 0 (str "paragraph") = true /\
  (exists ctx, chunk 1 (new_context doc_abc) 0 0 (str "paragraph")
               = Returned (ctx, [mkChunkInfo 0 0 5 (doc_abc ++ SEP2) 1])) /\
  invalid_parameters 5 7 (str "uniform") = true /\
  (exists ctx, chunk 2 (new_context doc_abc) 5 7 (str "uniform")
               = Returned (ctx, [mkChunkInfo 0 0 3 doc_abc 0])) /\
  ~ rejects_invalid 1 (new_context doc_abc) 0 0 (str "paragraph") /\
  ~ rejects_invalid 2 (new_context doc_abc) 5 7 (str "uniform").
Proof.
  split; [reflexivity|]. split; [eexists; vm_compute; reflexivity|].
  split; [reflexivity|]. split; [eexists; vm_compute; reflexivity|].
  split; intros [_ H]; destruct (H eq_refl) as [e He]; vm_compute in He; discriminate.
Qed.

(** ** Search *)

(** C8. For a match that lies inside the document, the context that
    [search] reports is the text of the document from
    [max(0, start - 50)] to [min(len(document), end + 50)]; both offsets lie
    inside the document. *)
Theorem search_context_clipped
    (finditer : pystr -> pystr -> Z -> option (list MatchObject))
    (self : RLMContext) (pattern : pystr) (flags : Z)
    (hits : list SearchHit) (h : SearchHit) :
  (forall ms m, finditer pattern (document self) flags = Some ms -> In m ms ->
                0 <= m_start m <= m_end m /\ m_end m <= len (document self)) ->
  search finditer self pattern flags = Some hits ->
  In h hits ->
  context_clipped (document self) h.
Proof.
  intros Hspan Hsearch Hh. unfold search in Hsearch.
  destruct (finditer pattern (document self) flags) as [ms|] eqn:E; [|discriminate].
  injection Hsearch as <-. apply in_map_iff in Hh as [m [<- Hm]].
  destruct (Hspan ms m eq_refl Hm) as [[H0 Hse] Hend].
  unfold context_clipped, search_hit. cbn [hit_start hit_end hit_context].
  set (doc := document self) in *.
  set (lo := Z.max 0 (m_start m - 50)).
  set (hi := Z.min (len doc) (m_end m + 50)).
  assert (Hlo : 0 <= lo <= hi) by (unfold lo, hi; lia).
  assert (Hhi : hi <= len doc) by (unfold hi; lia).
  assert (Hctx : slice doc lo (m_end m + 50) = substring doc lo hi).
  { unfold slice, substring, slice_index.
    destruct (Z.ltb_spec lo 0); [lia|].
    destruct (Z.ltb_spec (m_end m + 50) 0); [lia|].
    rewrite (Z.min_l lo (len doc)) by lia.
    rewrite (Z.min_comm (m_end m + 50) (len doc)). reflexivity. }
  rewrite Hctx. repeat split; try lia.
  apply substring_len; lia.
Qed.

Lemma search_context_clipped_witness :
  map (fun h => (hit_start h, hit_end h)) demo_hits = [(120, 128)] /\
  Forall (context_clipped doc_metric) demo_hits.
Proof.
  split; [vm_compute; reflexivity|].
  apply Forall_forall. intros h Hh.
  apply (search_context_clipped literal_finditer (new_context doc_metric)
           (str "Metric A") 0 demo_hits h).
  - intros ms m E Hm. vm_compute in E. injection E as <-.
    destruct Hm as [<- | []]. vm_compute. repeat split; discriminate.
  - reflexivity.
  - exact Hh.
Defined.

(** ** Metadata *)

Lemma split_on_length (sep : char) (s : pystr) :
  forall cur, length (split_on sep cur s) = S (count_occ N.eq_dec s sep).
Proof.
  induction s as [|c s IH]; intros cur; simpl; [reflexivity|].
  unfold char_eqb. destruct (N.eqb_spec c sep) as [-> | Hne].
  - destruct (N.eq_dec sep sep) as [_ | Hn]; [|contradiction].
    simpl. rewrite IH. reflexivity.
  - destruct (N.eq_dec c sep) as [He | _]; [contradiction|]. apply IH.
Qed.

Lemma slice_to_firstn (doc : pystr) (n : nat) :
  slice_to doc (Z.of_nat n) = firstn n doc.
Proof.
  unfold slice_to, slice, slice_index.
  destruct (Z.ltb_spec 0 0); [lia|]. destruct (Z.ltb_spec (Z.of_nat n) 0); [lia|].
  pose proof (len_nonneg doc). rewrite (Z.min_l 0) by lia.
  simpl skipn. rewrite Z.sub_0_r.
  destruct (Z.le_ge_cases (Z.of_nat n) (len doc)) as [Hle | Hge].
  - rewrite Z.min_l by lia. rewrite Nat2Z.id. reflexivity.
  - rewrite Z.min_r by lia. unfold len in *. rewrite Nat2Z.id.
    rewrite !firstn_all2 by lia. reflexivity.
Qed.

Lemma slice_from_last (doc : pystr) (n : nat) :
  (0 < n)%nat -> Z.of_nat n < len doc ->
  slice_from doc (- Z.of_nat n) = skipn (length doc - n) doc.
Proof.
  intros Hpos Hn. unfold slice_from, slice, slice_index, len in *.
  destruct (Z.ltb_spec (Z.of_nat (length doc)) 0); [lia|].
  rewrite Z.min_id.
  destruct (Z.ltb_spec (- Z.of_nat n) 0) as [Hneg | Hzero].
  - rewrite Z.max_r by lia.
    replace (Z.to_nat (- Z.of_nat n + Z.of_nat (length doc))) with (length doc - n)%nat by lia.
    apply firstn_all2. rewrite length_skipn. lia.
  - lia.
Qed.

(** C9. Metadata depends on the document and on nothing else: computing it
    again on a context changes nothing, two contexts with the same document
    get the same metadata in every field, and the fields are the character
    count, that count [// 4], the number of lines (line breaks plus one),
    the number of words, the number of headers, the first ten headers, the
    first 500 and the last 500 characters. *)
Theorem metadata_idempotent (self : RLMContext) :
  post_init (post_init self) = post_init self /\
  (forall other, document other = document self ->
     metadata (post_init other) = metadata (post_init self)) /\
  metadata (post_init self) = create_metadata (document self) /\
  let doc := document self in
  let m := create_metadata doc in
  char_count m = len doc /\
  md_token_estimate m = char_count m / 4 /\
  line_count m = Z.of_nat (count_occ N.eq_dec doc NL) + 1 /\
  word_count m = Z.of_nat (length (split_ws [] doc)) /\
  header_count m = Z.of_nat (length (Re.findall_headers doc)) /\
  headers_preview m = firstn 10 (Re.findall_headers doc) /\
  first_500_chars m = firstn 500 doc /\
  last_500_chars m = skipn (length doc - 500) doc.
Proof.
  split; [reflexivity|].
  split; [intros other H; unfold post_init; simpl; rewrite H; reflexivity|].
  split; [reflexivity|].
  cbv zeta. unfold create_metadata. simpl.
  repeat split.
  - rewrite split_on_length. lia.
  - apply (slice_to_firstn (document self) 500).
  - destruct (Z.gtb_spec (len (document self)) 500) as [Hgt | Hle].
    + apply (slice_from_last (document self) 500); lia.
    + unfold len in Hle.
      replace (length (document self) - 500)%nat with O by lia. reflexivity.
Qed.

Lemma metadata_idempotent_witness :
  metadata (post_init (mkRLMContext doc_headers (create_metadata doc_abc) demo_chunks))
  = metadata (post_init (new_context doc_headers)) /\
  header_count (metadata (new_context doc_headers)) = 2.
Proof.
  split.
  - apply (proj1 (proj2 (metadata_idempotent (new_context doc_headers)))).
    reflexivity.
  - vm_compute. reflexivity.
Defined.

(* ================================================================== *)
(** * Further properties *)

(** ** Indices *)

Lemma chunks_of_index (B : list pystr) :
  forall start idx n c,
    nth_error (chunks_of start idx B) n = Some c -> index c = idx + Z.of_nat n.
Proof.
  induction B as [|b B IH]; intros start idx n c H.
  - destruct n; discriminate.
  - destruct n as [|n]; simpl in H.
    + injection H as <-. simpl. lia.
    + apply IH in H. lia.
Qed.

Lemma loop_index (fuel : nat) (doc : pystr) (cs ov : Z) :
  forall start idx l n c,
    chunk_document_loop fuel doc cs ov start idx = Some l ->
    nth_error l n = Some c -> index c = idx + Z.of_nat n.
Proof.
  induction fuel as [|fuel IH]; intros start idx l n c H Hn; [discriminate|].
  rewrite chunk_document_loop_S in H.
  destruct (start <? len doc); [|injection H as <-; destruct n; discriminate].
  cbv zeta in H.
  destruct (chunk_document_loop fuel doc cs ov _ (idx + 1)) as [l'|] eqn:E;
    [|discriminate].
  injection H as <-. destruct n as [|n]; simpl in Hn.
  - injection Hn as <-. simpl. lia.
  - specialize (IH _ _ _ _ _ E Hn). lia.
Qed.

(** X1. Under each of the three strategies the chunk at position [n] of the
    result carries the index [n]. *)
Theorem chunk_indices (doc : pystr) :
  (forall fuel chunk_size overlap l,
      chunk_document fuel doc chunk_size overlap = Some l -> indexed_from_zero l) /\
  (forall max_size, indexed_from_zero (chunk_by_paragraphs doc max_size)) /\
  (forall max_size, indexed_from_zero (chunk_by_headers doc max_size)).
Proof.
  split; [|split].
  - intros fuel cs ov l H n c Hn.
    exact (loop_index fuel doc cs ov 0 0 l n c H Hn).
  - intros max_size n c Hn. rewrite chunk_by_paragraphs_groups in Hn.
    exact (chunks_of_index _ 0 0 n c Hn).
  - intros max_size n c Hn. rewrite chunk_by_headers_groups in Hn.
    exact (chunks_of_index _ 0 0 n c Hn).
Qed.

Lemma chunk_indices_witness : indexed_from_zero demo_chunks.
Proof.
  apply (proj1 (chunk_indices demo_doc) 20%nat 10 1 demo_chunks).
  vm_compute. reflexivity.
Defined.

(** ** The uniform strategy with room between overlap and chunk size *)

Lemma chunk_end_upper (doc : pystr) (cs start : Z) :
  0 <= start -> 0 < cs -> chunk_end doc cs start <= start + cs.
Proof.
  intros Hs Hcs. unfold chunk_end.
  set (e := Z.min (start + cs) (len doc)).
  assert (He : e <= start + cs) by (unfold e; lia).
  destruct (Z.ltb_spec e (len doc)) as [Hlt | Hge]; [|exact He].
  assert (Hadj : adjust_end (len doc) e = e).
  { unfold adjust_end. destruct (Z.gtb_spec e (len doc)); [lia|].
    pose proof (len_nonneg doc).
    destruct (Z.ltb_spec e 0); [unfold e in *; lia | reflexivity]. }
  destruct (Z.gtb_spec (rfind doc [NL] (e - 200) e) start) as [Hgt | Hle].
  - destruct (rfind_range doc [NL] (e - 200) e) as [H | [_ H]]; [lia|].
    rewrite Hadj in H. unfold len in H at 1. simpl in H. lia.
  - destruct (Z.gtb_spec (rfind doc [DOT; SP] (e - 200) e) start) as [Hgt | Hle'];
      [|exact He].
    destruct (rfind_range doc [DOT; SP] (e - 200) e) as [H | [_ H]]; [lia|].
    rewrite Hadj in H. unfold len in H at 1. simpl in H. lia.
Qed.

Lemma chain_overlap_exact (doc : pystr) (ov start : Z) (l : list ChunkInfo) :
  Chain doc ov start l -> overlap_exact ov l.
Proof.
  induction 1 as [| start c rest Hlt Hs He Hrest IH].
  - intros [|i] c1 c2 H1; discriminate.
  - intros [|i] c1 c2 H1 H2; simpl in H1, H2.
    + injection H1 as <-. destruct rest as [|c' rest]; [discriminate|].
      injection H2 as <-. inversion Hrest; subst.
      destruct (Z.ltb_spec (end_char c) (len doc)); lia.
    + exact (IH i c1 c2 H1 H2).
Qed.

(** The loop started at a non-negative offset, in the wide setting. *)
Lemma loop_wide (fuel : nat) (doc : pystr) (cs ov : Z) :
  0 <= ov -> ov + 200 <= cs ->
  forall start idx l,
    0 <= start ->
    chunk_document_loop fuel doc cs ov start idx = Some l ->
    Forall (fun c => start <= start_char c /\ end_char c <= start_char c + cs) l /\
    starts_increase l.
Proof.
  intros Hov Hcs. induction fuel as [|fuel IH]; intros start idx l Hs H;
    [discriminate|].
  rewrite chunk_document_loop_S in H.
  destruct (Z.ltb_spec start (len doc)) as [Hlt | Hge].
  - cbv zeta in H.
    destruct (chunk_document_loop fuel doc cs ov _ (idx + 1)) as [l'|] eqn:E;
      [|discriminate].
    injection H as <-.
    pose proof (chunk_end_bounds doc cs start ltac:(lia) Hlt) as Hb.
    pose proof (chunk_end_progress doc cs ov start Hov Hcs Hs) as Hp.
    pose proof (chunk_end_upper doc cs start Hs ltac:(lia)) as Hu.
    assert (Hnext : start < (if chunk_end doc cs start <? len doc
                             then chunk_end doc cs start - ov
                             else chunk_end doc cs start)).
    { destruct (Z.ltb_spec (chunk_end doc cs start) (len doc)); lia. }
    destruct (IH _ _ _ (Z.le_trans _ _ _ Hs (Z.lt_le_incl _ _ Hnext)) E)
      as [Hall Hinc].
    split.
    + constructor; [simpl; lia|].
      eapply Forall_impl; [|exact Hall]. simpl. intros c [H1 H2]. lia.
    + intros [|i] c1 c2 H1 H2; simpl in H1, H2.
      * injection H1 as <-. simpl. destruct l' as [|c' l']; [discriminate|].
        injection H2 as <-. inversion Hall as [|? ? [Hc' _] _]; subst. lia.
      * exact (Hinc i c1 c2 H1 H2).
  - injection H as <-. split; [constructor|].
    intros [|i] c1 c2 H1; discriminate.
Qed.

(** X2. Whatever the uniform strategy returns, each segment starts exactly
    [overlap] characters before the end of the previous one.  When
    [overlap >= 0] and [chunk_size >= overlap + 200] (as for the default
    parameters) it returns, every segment satisfies
    [0 <= start < end <= len(document)] with the text between its offsets as
    content, no segment is longer than [chunk_size], and the starts grow
    strictly. *)
Theorem uniform_wide_regime (doc : pystr) (chunk_size overlap : Z) :
  (forall fuel l,
      0 < chunk_size ->
      chunk_document fuel doc chunk_size overlap = Some l ->
      overlap_exact overlap l) /\
  (0 <= overlap -> overlap + 200 <= chunk_size ->
   exists l,
     chunk_document (S (length doc)) doc chunk_size overlap = Some l /\
     Forall (segment_ok doc) l /\
     Forall (fun c => len (content c) <= chunk_size) l /\
     starts_increase l).
Proof.
  split.
  - intros fuel l Hcs H. apply loop_chain in H; [|exact Hcs].
    eapply chain_overlap_exact; exact H.
  - intros Hov Hcs.
    destruct (chunk_document_terminates_wide doc chunk_size overlap Hov Hcs)
      as [l Hl].
    exists l. split; [exact Hl|].
    destruct (loop_wide _ doc chunk_size overlap Hov Hcs 0 0 l ltac:(lia) Hl)
      as [Hall Hinc].
    pose proof (loop_chain _ doc chunk_size overlap ltac:(lia) 0 0 l Hl) as Hchain.
    assert (Hok : Forall (segment_ok doc) l).
    { apply Forall_forall. intros c Hc.
      rewrite Forall_forall in Hall. destruct (Hall c Hc) as [H0 _].
      pose proof (chain_spans doc overlap 0 l Hchain c Hc) as Hspan.
      destruct (loop_fields _ doc chunk_size overlap 0 0 l Hl c Hc) as [Hct Htok].
      unfold segment_ok. repeat split; try lia; try assumption.
      rewrite Hct at 1. apply slice_substring; lia. }
    split; [exact Hok | split; [|exact Hinc]].
    apply Forall_forall. intros c Hc.
    rewrite Forall_forall in Hall, Hok.
    destruct (Hall c Hc) as [H0 Hup].
    destruct (Hok c Hc) as [[H1 H2] [H3 [H4 _]]].
    rewrite H4, substring_len; lia.
Qed.

Lemma uniform_wide_regime_witness :
  overlap_exact 1 demo_chunks /\
  exists l,
    chunk_document (S (length doc_1000_A)) doc_1000_A 300 50 = Some l /\
    Forall (segment_ok doc_1000_A) l /\
    Forall (fun c => len (content c) <= 300) l /\
    starts_increase l.
Proof.
  split.
  - apply (proj1 (uniform_wide_regime demo_doc 10 1) 20%nat demo_chunks);
      [lia | vm_compute; reflexivity].
  - apply (proj2 (uniform_wide_regime doc_1000_A 300 50)); lia.
Defined.

(** ** The uniform strategy without overlap *)

Lemma chunk_document_loop_terminates_zero (doc : pystr) (cs : Z) :
  0 < cs ->
  forall (n : nat) (start idx : Z),
    len doc - start <= Z.of_nat n ->
    exists l, chunk_document_loop (S n) doc cs 0 start idx = Some l.
Proof.
  intros Hcs. induction n as [|n IH]; intros start idx Hn.
  - exists []. rewrite chunk_document_loop_S.
    destruct (Z.ltb_spec start (len doc)); [lia | reflexivity].
  - rewrite chunk_document_loop_S.
    destruct (Z.ltb_spec start (len doc)) as [Hlt | Hge]; [|exists []; reflexivity].
    cbv zeta.
    pose proof (chunk_end_bounds doc cs start Hcs Hlt) as Hb.
    destruct (IH (if chunk_end doc cs start <? len doc
                  then chunk_end doc cs start - 0
                  else chunk_end doc cs start) (idx + 1)) as [l Hl].
    + destruct (Z.ltb_spec (chunk_end doc cs start) (len doc)); lia.
    + rewrite Hl. eexists; reflexivity.
Qed.

Lemma substring_skipn (doc : pystr) (s e : Z) :
  0 <= s -> s <= e ->
  substring doc s e ++ skipn (Z.to_nat e) doc = skipn (Z.to_nat s) doc.
Proof.
  intros Hs He. unfold substring.
  replace (Z.to_nat e) with (Z.to_nat (e - s) + Z.to_nat s)%nat by lia.
  rewrite <- skipn_skipn. apply firstn_skipn.
Qed.

Lemma chain_zero_concat (doc : pystr) (start : Z) (l : list ChunkInfo) :
  Chain doc 0 start l -> 0 <= start ->
  (forall c, In c l -> content c = slice doc (start_char c) (end_char c)) ->
  concat (map content l) = skipn (Z.to_nat start) doc /\
  Forall (fun c => 0 <= start_char c) l.
Proof.
  induction 1 as [| start c rest Hlt Hs He Hrest IH]; intros H0 Hct.
  - split; [|constructor]. simpl. symmetry. apply skipn_all2. unfold len in *. lia.
  - assert (Enext : (if end_char c <? len doc then end_char c - 0 else end_char c)
                    = end_char c)
      by (destruct (end_char c <? len doc); lia).
    rewrite Enext in IH.
    destruct (IH ltac:(lia) (fun c' Hc' => Hct c' (or_intror Hc'))) as [IH1 IH2].
    split; [|constructor; [lia | exact IH2]].
    simpl. rewrite IH1, (Hct c (or_introl eq_refl)), Hs.
    rewrite slice_substring by lia. apply substring_skipn; lia.
Qed.

(** X3. With [overlap = 0] and a positive chunk size the uniform strategy
    returns, its segments lie end to end from offset 0, each satisfies the
    segment invariants, and their contents, put together, are the
    document. *)
Theorem uniform_zero_overlap_partitions (doc : pystr) (chunk_size : Z) :
  0 < chunk_size ->
  exists l,
    chunk_document (S (length doc)) doc chunk_size 0 = Some l /\
    concat (map content l) = doc /\
    tiles_from_zero l /\
    Forall (segment_ok doc) l.
Proof.
  intros Hcs.
  destruct (chunk_document_loop_terminates_zero doc chunk_size Hcs
              (length doc) 0 0) as [l Hl]; [unfold len; lia|].
  exists l. split; [exact Hl|].
  pose proof (loop_chain _ doc chunk_size 0 Hcs 0 0 l Hl) as Hchain.
  pose proof (loop_fields _ doc chunk_size 0 0 0 l Hl) as Hf.
  destruct (chain_zero_concat doc 0 l Hchain ltac:(lia)
              (fun c Hc => proj1 (Hf c Hc))) as [Hcat Hpos].
  split; [exact Hcat | split; [split|]].
  - intros c Hc. destruct l as [|c' l]; [discriminate|].
    injection Hc as <-. eapply chain_head; exact Hchain.
  - intros i c1 c2 H1 H2.
    rewrite (chain_overlap_exact doc 0 0 l Hchain i c1 c2 H1 H2). lia.
  - apply Forall_forall. intros c Hc. rewrite Forall_forall in Hpos.
    pose proof (Hpos c Hc) as H0. destruct (Hf c Hc) as [Hct Htok].
    pose proof (chain_spans doc 0 0 l Hchain c Hc) as Hspan.
    unfold segment_ok. repeat split; try lia; try assumption.
    rewrite Hct at 1. apply slice_substring; lia.
Qed.

Lemma uniform_zero_overlap_partitions_witness :
  exists l,
    chunk_document (S (length demo_doc)) demo_doc 10 0 = Some l /\
    concat (map content l) = demo_doc /\
    tiles_from_zero l /\
    Forall (segment_ok demo_doc) l.
Proof. apply (uniform_zero_overlap_partitions demo_doc 10). lia. Defined.

(** ** Documents that fit into one chunk *)

Lemma slice_full (doc : pystr) : slice doc 0 (len doc) = doc.
Proof.
  pose proof (len_nonneg doc).
  rewrite slice_substring by lia. unfold substring, len.
  rewrite Z.sub_0_r, Nat2Z.id. simpl. apply firstn_all.
Qed.

Lemma ink_app (a b : pystr) : ink (a ++ b) = ink a ++ ink b.
Proof. apply filter_app. Qed.

Lemma ink_space (s : pystr) : all_space s -> ink s = [].
Proof.
  induction 1 as [|c s Hc Hs IH]; [reflexivity|].
  simpl. rewrite Hc. exact IH.
Qed.

Lemma strip_nonempty_ink (s : pystr) : strip_nonempty s = nonempty (ink s).
Proof.
  induction s as [|c s IH]; [reflexivity|].
  simpl. destruct (isspace c); simpl; [exact IH | reflexivity].
Qed.

Lemma last_nl_in_ws_space (s : pystr) (j : nat) :
  Re.last_nl_in_ws s = Some j -> all_space (firstn (S j) s).
Proof.
  revert j. induction s as [|c s IH]; intros j; simpl; [discriminate|].
  destruct (isspace c) eqn:Ec; [|discriminate].
  destruct (Re.last_nl_in_ws s) as [j'|].
  - intros [= <-]. constructor; [exact Ec | apply IH; reflexivity].
  - destruct (char_eqb c NL); [|discriminate]. intros [= <-].
    constructor; [exact Ec | constructor].
Qed.

(** A paragraph separator is whitespace. *)
Lemma match_blank_space (s : pystr) (n : nat) :
  Re.match_blank s = Some n -> all_space (firstn n s).
Proof.
  destruct s as [|c s]; simpl; [discriminate|].
  unfold char_eqb. destruct (N.eqb_spec c NL) as [-> | _]; [|discriminate].
  destruct (Re.last_nl_in_ws s) as [j|] eqn:E; [|discriminate].
  intros [= <-]. constructor; [reflexivity | apply last_nl_in_ws_space, E].
Qed.

(** Splitting into paragraphs and putting them together again keeps the
    characters that are not whitespace, in their order. *)
Lemma split_blank_ink (s : pystr) :
  forall skip cur,
    all_space (firstn skip s) ->
    ink (block SEP2 (Re.split_blank skip cur s)) = ink cur ++ ink (skipn skip s).
Proof.
  induction s as [|c s IH]; intros skip cur Hskip; cbn [Re.split_blank].
  - rewrite block_one, ink_app, skipn_nil. reflexivity.
  - destruct skip as [|k].
    + destruct (Re.match_blank (c :: s)) as [n|] eqn:E.
      * pose proof (match_blank_bound _ _ E) as Hn.
        apply match_blank_space in E. destruct n as [|n]; [lia|].
        simpl in E. inversion E as [|? ? Hc Hrest]; subst.
        assert (Hink : ink (c :: s) = ink (skipn n s)).
        { rewrite <- (firstn_skipn n s) at 1.
          change (c :: firstn n s ++ skipn n s)
            with ((c :: firstn n s) ++ skipn n s).
          rewrite ink_app, (ink_space (c :: firstn n s) E). reflexivity. }
        rewrite block_cons, !ink_app, IH by exact Hrest.
        rewrite (ink_space SEP2 SEP2_space), app_nil_r.
        simpl pred. simpl skipn. rewrite Hink. reflexivity.
      * rewrite IH by constructor. rewrite ink_app, <- app_assoc.
        simpl skipn. rewrite <- ink_app. reflexivity.
    + simpl in Hskip. inversion Hskip; subst. rewrite IH by assumption. reflexivity.
Qed.

Lemma paragraph_units_ink (doc : pystr) :
  ink (block SEP2 (paragraph_units doc)) = ink doc.
Proof.
  unfold paragraph_units, Re.split_paragraphs.
  rewrite split_blank_ink by constructor. reflexivity.
Qed.

Lemma pack_groups_fit (sep : pystr) (max_size : Z) (units : list pystr) :
  len (block sep units) <= max_size + len sep ->
  map (block sep) (emitted sep (all_groups (pack_groups sep max_size units)))
  = if strip_nonempty (block sep units) then [block sep units] else [].
Proof.
  intros H. unfold pack_groups. rewrite groups_no_close by exact H.
  unfold all_groups, emitted. simpl.
  destruct (strip_nonempty (block sep units)); reflexivity.
Qed.

(** X4. A document that is not longer than the size given is not cut: the
    uniform strategy returns it as one chunk with the offsets 0 and
    [len(document)] (nothing for the empty document), whatever the overlap;
    the semantic strategy does the same unless the document is whitespace,
    for which it returns nothing; the paragraph strategy returns one chunk
    that holds all paragraphs, each followed by two line breaks, or nothing
    for whitespace. *)
Theorem document_fits_one_chunk (doc : pystr) (size : Z) :
  len doc <= size ->
  (forall fuel overlap, (2 <= fuel)%nat ->
     chunk_document fuel doc size overlap
     = Some (if nonempty doc then [whole_chunk doc] else [])) /\
  chunk_by_headers doc size
  = (if strip_nonempty doc then [whole_chunk doc] else []) /\
  chunk_by_paragraphs doc size
  = (if strip_nonempty doc
     then [whole_chunk (block SEP2 (paragraph_units doc))] else []).
Proof.
  intros Hfit. split; [|split].
  - intros fuel overlap Hfuel.
    destruct fuel as [|[|fuel]]; try lia.
    unfold chunk_document. rewrite chunk_document_loop_S.
    destruct doc as [|c doc].
    + reflexivity.
    + set (d := c :: doc) in *.
      assert (Hpos : 0 < len d) by (unfold d, len; simpl; lia).
      destruct (Z.ltb_spec 0 (len d)); [|lia]. cbv zeta.
      rewrite chunk_end_at_end by lia. rewrite Z.ltb_irrefl.
      rewrite chunk_document_loop_S, Z.ltb_irrefl, slice_full.
      reflexivity.
  - rewrite chunk_by_headers_groups, pack_groups_fit.
    + rewrite block_empty_sep, semantic_units_concat.
      destruct (strip_nonempty doc); reflexivity.
    + rewrite block_empty_sep, semantic_units_concat. unfold len at 2. simpl. lia.
  - rewrite chunk_by_paragraphs_groups, pack_groups_fit.
    + rewrite (strip_nonempty_ink (block SEP2 _)), paragraph_units_ink,
        <- strip_nonempty_ink.
      destruct (strip_nonempty doc); reflexivity.
    + pose proof (paragraph_units_len doc). change (len SEP2) with 2. lia.
Qed.

Lemma document_fits_one_chunk_witness :
  chunk_document 2 doc_headers 50 7 = Some [whole_chunk doc_headers] /\
  chunk_by_headers doc_headers 50 = [whole_chunk doc_headers] /\
  chunk_by_paragraphs doc_headers 50 = [whole_chunk (doc_headers ++ SEP2)].
Proof.
  destruct (document_fits_one_chunk doc_headers 50) as [H1 [H2 H3]].
  - vm_compute. discriminate.
  - split; [apply (H1 2%nat 7); lia | split; [exact H2 | exact H3]].
Defined.

(** ** What the paragraph and semantic strategies keep *)

(** X5. The paragraph strategy keeps every character of the document that
    is not whitespace, in its order: the contents of its segments, put
    together and stripped of whitespace, are the document stripped of
    whitespace. *)
Theorem paragraphs_keep_ink (doc : pystr) (max_size : Z) :
  ink (concat (map content (chunk_by_paragraphs doc max_size))) = ink doc.
Proof.
  rewrite chunk_by_paragraphs_groups, chunks_of_content.
  destruct (emitted_cover SEP2 (pack_groups SEP2 max_size (paragraph_units doc)))
    as [rest [Hrest Hcov]].
  rewrite pack_groups_concat in Hcov.
  rewrite <- (paragraph_units_ink doc), <- Hcov, ink_app, (ink_space rest Hrest),
    app_nil_r.
  reflexivity.
Qed.

Lemma chunks_of_tiles (B : list pystr) :
  forall start idx,
    (forall c, hd_error (chunks_of start idx B) = Some c -> start_char c = start) /\
    forall i c1 c2,
      nth_error (chunks_of start idx B) i = Some c1 ->
      nth_error (chunks_of start idx B) (S i) = Some c2 ->
      start_char c2 = end_char c1.
Proof.
  induction B as [|b B IH]; intros start idx.
  - split; [discriminate | intros [|i] c1 c2 H; discriminate].
  - split.
    + simpl. intros c [= <-]. reflexivity.
    + intros [|i] c1 c2 H1 H2; simpl in H1, H2.
      * injection H1 as <-. simpl.
        destruct (IH (start + len b) (idx + 1)) as [Hhd _].
        apply Hhd. destruct (chunks_of (start + len b) (idx + 1) B);
          [discriminate | exact H2].
      * destruct (IH (start + len b) (idx + 1)) as [_ Hnext].
        exact (Hnext i c1 c2 H1 H2).
Qed.

(** X7. The segments of the paragraph and of the semantic strategy lie end
    to end: the first one starts at offset 0 and every other one starts
    where the one in front of it ends. *)
Theorem packed_segments_tile (doc : pystr) (max_size : Z) :
  tiles_from_zero (chunk_by_paragraphs doc max_size) /\
  tiles_from_zero (chunk_by_headers doc max_size).
Proof.
  rewrite chunk_by_paragraphs_groups, chunk_by_headers_groups.
  split; apply chunks_of_tiles.
Qed.

(** *** The size of a segment *)

Section Sizes.

Variable sep : pystr.
Variable max_size : Z.

Lemma group_step_sizes (Gg : groups) (u : pystr) :
  Forall (within_or_single sep max_size) (all_groups Gg) ->
  Forall (within_or_single sep max_size) (all_groups (group_step sep max_size Gg u)).
Proof.
  destruct Gg as [G g]. unfold group_step, all_groups. simpl fst. simpl snd.
  intros H. apply Forall_app in H as [HG Hg]. inversion Hg as [|? ? Hg' _]; subst.
  destruct (Z.gtb_spec (len (block sep g) + len u) max_size) as [Hgt | Hle];
    simpl andb.
  - destruct (nonempty (block sep g)) eqn:En; simpl fst; simpl snd.
    + apply Forall_app. split.
      * apply Forall_app. split; [exact HG | constructor; [exact Hg' | constructor]].
      * constructor; [|constructor]. right. right. exists [], u. split; reflexivity.
    + apply Forall_app. split; [exact HG|]. constructor; [|constructor].
      right. right. exists g, u. split; [reflexivity|].
      destruct (block sep g); [reflexivity | discriminate].
  - simpl fst. simpl snd. apply Forall_app. split; [exact HG|].
    constructor; [|constructor]. right. left.
    rewrite block_app, block_one, !len_app. lia.
Qed.

Lemma groups_sizes (units : list pystr) :
  forall Gg,
    Forall (within_or_single sep max_size) (all_groups Gg) ->
    Forall (within_or_single sep max_size)
      (all_groups (fold_left (group_step sep max_size) units Gg)).
Proof.
  induction units as [|u units IH]; intros Gg H; simpl; [exact H|].
  apply IH, group_step_sizes, H.
Qed.

Lemma pack_groups_sizes (units : list pystr) :
  Forall (within_or_single sep max_size) (all_groups (pack_groups sep max_size units)).
Proof.
  unfold pack_groups. apply groups_sizes.
  constructor; [left; reflexivity | constructor].
Qed.

End Sizes.

Lemma emitted_incl (sep : pystr) (gs : list (list pystr)) (g : list pystr) :
  In g (emitted sep gs) -> In g gs.
Proof.
  unfold emitted. destruct (strip_nonempty (block sep (last gs []))); [auto|].
  destruct gs as [|g0 gs] using rev_ind; [auto|].
  rewrite removelast_last. intros H. apply in_or_app. left. exact H.
Qed.

Lemma in_concat_group (gs : list (list pystr)) (g : list pystr) (u : pystr) :
  In g gs -> In u g -> In u (concat gs).
Proof. intros Hg Hu. apply in_concat. exists g. split; assumption. Qed.

(** X6. A segment of the semantic strategy has at most [max_size]
    characters unless it is a single unit.  A segment of the paragraph
    strategy has at most [max_size + 2] characters unless it is a single
    paragraph with its two line breaks: the paragraph that fills a segment
    up is measured without the line breaks put behind it. *)
Theorem packed_segment_sizes (doc : pystr) (max_size : Z) :
  (forall c, In c (chunk_by_headers doc max_size) ->
     len (content c) <= max_size \/ In (content c) (semantic_units doc)) /\
  (forall c, In c (chunk_by_paragraphs doc max_size) ->
     len (content c) <= max_size + 2 \/
     exists p, In p (paragraph_units doc) /\ content c = p ++ SEP2).
Proof.
  split.
  - intros c Hc. rewrite chunk_by_headers_groups in Hc.
    destruct (chunks_of_fields _ 0 0 c Hc) as [_ [_ [_ Hin]]].
    pose proof (pack_groups_nonempty [] max_size (semantic_units doc)) as Hne.
    apply in_map_iff in Hin as [g [Eg Hg]].
    rewrite Forall_forall in Hne.
    assert (Hblock : block [] g <> [])
      by (apply Hne, in_map_iff; exists g; split; [reflexivity | exact Hg]).
    apply emitted_incl in Hg.
    pose proof (pack_groups_sizes [] max_size (semantic_units doc)) as Hall.
    rewrite Forall_forall in Hall.
    destruct (Hall g Hg) as [-> | [Hle | [pre [u [-> Hpre]]]]].
    + contradiction Hblock. reflexivity.
    + left. rewrite <- Eg. unfold len at 2 in Hle. simpl in Hle. lia.
    + right. rewrite <- Eg, block_app, Hpre, block_one, app_nil_r. simpl.
      rewrite <- (pack_groups_concat [] max_size (semantic_units doc)).
      eapply in_concat_group; [exact Hg|]. apply in_or_app. right. left. reflexivity.
  - intros c Hc. rewrite chunk_by_paragraphs_groups in Hc.
    destruct (chunks_of_fields _ 0 0 c Hc) as [_ [_ [_ Hin]]].
    pose proof (pack_groups_nonempty SEP2 max_size (paragraph_units doc)) as Hne.
    apply in_map_iff in Hin as [g [Eg Hg]].
    rewrite Forall_forall in Hne.
    assert (Hblock : block SEP2 g <> [])
      by (apply Hne, in_map_iff; exists g; split; [reflexivity | exact Hg]).
    apply emitted_incl in Hg.
    pose proof (pack_groups_sizes SEP2 max_size (paragraph_units doc)) as Hall.
    rewrite Forall_forall in Hall.
    destruct (Hall g Hg) as [-> | [Hle | [pre [u [-> Hpre]]]]].
    + contradiction Hblock. reflexivity.
    + left. rewrite <- Eg. change (len SEP2) with 2 in Hle. exact Hle.
    + right. apply block_SEP2_nil in Hpre. subst pre. exists u. split.
      * rewrite <- (pack_groups_concat SEP2 max_size (paragraph_units doc)).
        eapply in_concat_group; [exact Hg | left; reflexivity].
      * rewrite <- Eg. apply block_one.
Qed.

Lemma packed_segment_sizes_witness :
  Forall (fun c => len (content c) <= 10 + 2 \/
                   exists p, In p (paragraph_units doc_two_paragraphs) /\
                             content c = p ++ SEP2)
    (chunk_by_paragraphs doc_two_paragraphs 10).
Proof.
  apply Forall_forall.
  exact (proj2 (packed_segment_sizes doc_two_paragraphs 10)).
Defined.

(** The bound [max_size + 2] is reached: two paragraphs of four letters are
    packed into one segment of twelve characters for [max_size = 10]. *)
Lemma paragraph_segment_over_max :
  map (fun c => len (content c)) (chunk_by_paragraphs doc_two_paragraphs 10) = [12].
Proof. vm_compute. reflexivity. Qed.

(** ** Sections of the document *)

Lemma firstn_plus (n m : nat) (l : pystr) :
  firstn (n + m) l = firstn n l ++ firstn m (skipn n l).
Proof.
  revert l. induction n as [|n IH]; intros l; [reflexivity|].
  destruct l as [|x l]; simpl.
  - rewrite firstn_nil. reflexivity.
  - rewrite IH. reflexivity.
Qed.

Lemma slice_index_range (n i : Z) : 0 <= n -> 0 <= slice_index n i <= n.
Proof. intros Hn. unfold slice_index. destruct (Z.ltb_spec i 0); lia. Qed.

Lemma slice_index_mono (n i j : Z) :
  0 <= i -> i <= j -> slice_index n i <= slice_index n j.
Proof.
  intros Hi Hij. unfold slice_index.
  destruct (Z.ltb_spec i 0); [lia|]. destruct (Z.ltb_spec j 0); lia.
Qed.

(** X9. For offsets [0 <= a <= b <= c], even behind the end of the
    document, [get_section(a, b) + get_section(b, c)] is
    [get_section(a, c)], and a section from [a] to [b] has at most [b - a]
    characters; it has exactly that many when [b <= len(document)]. *)
Theorem get_section_joins (self : RLMContext) (a b c : Z) :
  0 <= a -> a <= b -> b <= c ->
  get_section self a b ++ get_section self b c = get_section self a c /\
  len (get_section self a b) <= b - a /\
  (b <= len (document self) -> len (get_section self a b) = b - a).
Proof.
  intros Ha Hab Hbc. unfold get_section, slice.
  set (doc := document self). pose proof (len_nonneg doc) as Hn.
  pose proof (slice_index_range (len doc) a Hn) as Ra.
  pose proof (slice_index_range (len doc) b Hn) as Rb.
  pose proof (slice_index_range (len doc) c Hn) as Rc.
  pose proof (slice_index_mono (len doc) a b Ha Hab) as Mab.
  pose proof (slice_index_mono (len doc) b c ltac:(lia) Hbc) as Mbc.
  set (a' := slice_index (len doc) a) in *.
  set (b' := slice_index (len doc) b) in *.
  set (c' := slice_index (len doc) c) in *.
  split; [|split].
  - fold (substring doc a' b'). fold (substring doc b' c'). fold (substring doc a' c').
    unfold substring.
    replace (Z.to_nat b') with (Z.to_nat (b' - a') + Z.to_nat a')%nat by lia.
    rewrite <- skipn_skipn.
    replace (Z.to_nat (c' - a')) with (Z.to_nat (b' - a') + Z.to_nat (c' - b'))%nat
      by lia.
    rewrite firstn_plus. reflexivity.
  - fold (substring doc a' b'). rewrite substring_len by lia.
    unfold a', b', slice_index.
    destruct (Z.ltb_spec a 0); [lia|]. destruct (Z.ltb_spec b 0); lia.
  - intros Hb. fold (substring doc a' b'). rewrite substring_len by lia.
    unfold a', b', slice_index.
    destruct (Z.ltb_spec a 0); [lia|]. destruct (Z.ltb_spec b 0); lia.
Qed.

Lemma get_section_joins_witness :
  get_section (new_context demo_doc) 3 12 ++ get_section (new_context demo_doc) 12 90
  = get_section (new_context demo_doc) 3 90 /\
  len (get_section (new_context demo_doc) 3 12) <= 12 - 3 /\
  (12 <= len (document (new_context demo_doc)) ->
   len (get_section (new_context demo_doc) 3 12) = 12 - 3).
Proof. apply (get_section_joins (new_context demo_doc) 3 12 90); lia. Defined.

(** X8. For every chunk that [RLMContext.chunk] returns under the uniform
    or the semantic strategy, [get_section] of the new context at the
    offsets of the chunk gives back its content. *)
Theorem get_section_of_chunk (fuel : nat) (self self' : RLMContext)
    (chunk_size overlap : Z) (strategy : pystr) (l : list ChunkInfo) :
  strategy = str "uniform" \/ strategy = str "semantic" ->
  chunk fuel self chunk_size overlap strategy = Returned (self', l) ->
  chunks self' = l /\ document self' = document self /\
  forall c, In c l -> get_section self' (start_char c) (end_char c) = content c.
Proof.
  intros Hs H. unfold chunk in H.
  destruct Hs as [-> | ->].
  - change (str_eqb (str "uniform") (str "uniform")) with true in H. cbv iota in H.
    destruct (chunk_document fuel (document self) chunk_size overlap) as [cs|] eqn:E;
      [|discriminate].
    injection H as <- <-. repeat split.
    intros c Hc. unfold get_section. simpl document.
    destruct (loop_fields fuel (document self) chunk_size overlap 0 0 cs E c Hc)
      as [Hct _].
    symmetry. exact Hct.
  - change (str_eqb (str "semantic") (str "uniform")) with false in H.
    change (str_eqb (str "semantic") (str "paragraph")) with false in H.
    change (str_eqb (str "semantic") (str "semantic")) with true in H.
    cbv iota in H. injection H as <- <-. repeat split.
    intros c Hc. unfold get_section. simpl document.
    destruct (semantic_segment_ok (document self) chunk_size c Hc)
      as [[H0 H1] [H2 [H3 _]]].
    rewrite slice_substring by lia. symmetry. exact H3.
Qed.

Lemma get_section_of_chunk_witness :
  Forall (fun c => get_section (new_context doc_headers) (start_char c) (end_char c)
                   = content c)
    (chunk_by_headers doc_headers 3).
Proof.
  apply Forall_forall.
  apply (get_section_of_chunk 0 (new_context doc_headers)
           (mkRLMContext doc_headers (create_metadata doc_headers)
              (chunk_by_headers doc_headers 3))
           3 0 (str "semantic") (chunk_by_headers doc_headers 3)).
  - right. reflexivity.
  - reflexivity.
Defined.

(** ** Headers in the metadata and in the semantic strategy *)

Lemma split_hdr_findall (s : pystr) :
  forall skip bol cur,
    odd_items (Re.split_hdr skip bol cur s) = Re.findall_hdr skip bol s /\
    length (Re.split_hdr skip bol cur s)
    = S (2 * length (Re.findall_hdr skip bol s)).
Proof.
  induction s as [|c s IH]; intros skip bol cur.
  - split; reflexivity.
  - destruct skip as [|k]; cbn [Re.split_hdr Re.findall_hdr].
    + destruct (if bol then Re.match_header (c :: s) else None) as [[|n]|].
      * apply IH.
      * destruct (IH n (char_eqb c NL) []) as [H1 H2]. split.
        -- cbn [odd_items]. rewrite H1. reflexivity.
        -- cbn [length]. rewrite H2. lia.
      * apply IH.
    + apply IH.
Qed.

Lemma no_headers_one_section (doc : pystr) :
  Re.findall_headers doc = [] -> Re.split_headers doc = [doc].
Proof.
  intros H. unfold Re.findall_headers, Re.split_headers in *.
  destruct (split_hdr_findall doc O true []) as [_ Hlen].
  pose proof (split_hdr_concat doc O true []) as Hcat.
  rewrite H in Hlen. simpl in Hlen, Hcat.
  destruct (Re.split_hdr 0 true [] doc) as [|x [|y l]]; try discriminate.
  simpl in Hcat. rewrite app_nil_r in Hcat. rewrite Hcat. reflexivity.
Qed.

(** X10. The headers that [create_metadata] finds are the sections at which
    the semantic strategy splits the document, so that there are
    [2 * header_count + 1] sections.  When the metadata report no header,
    the semantic strategy returns the document as one chunk whatever
    [max_size] is, and nothing if the document is whitespace. *)
Theorem headers_of_metadata_and_split (doc : pystr) (max_size : Z) :
  Re.findall_headers doc = odd_items (Re.split_headers doc) /\
  Z.of_nat (length (Re.split_headers doc))
  = 2 * header_count (create_metadata doc) + 1 /\
  (header_count (create_metadata doc) = 0 ->
   chunk_by_headers doc max_size
   = if strip_nonempty doc then [whole_chunk doc] else []).
Proof.
  destruct (split_hdr_findall doc O true []) as [H1 H2].
  split; [symmetry; exact H1 | split].
  - unfold Re.split_headers. rewrite H2. simpl header_count.
    unfold Re.findall_headers. lia.
  - simpl header_count. intros H0.
    assert (Hnone : Re.findall_headers doc = []).
    { destruct (Re.findall_headers doc); [reflexivity | simpl in H0; lia]. }
    unfold chunk_by_headers. rewrite (no_headers_one_section doc Hnone).
    simpl. unfold header_step, pack_finish. simpl. rewrite andb_false_r. simpl.
    destruct (strip_nonempty doc); reflexivity.
Qed.

Lemma headers_of_metadata_and_split_witness :
  chunk_by_headers doc_paragraphs 3 = [whole_chunk doc_paragraphs].
Proof.
  apply (proj2 (proj2 (headers_of_metadata_and_split doc_paragraphs 3))).
  vm_compute. reflexivity.
Defined.

(** ** Bounds on the metadata *)

Lemma findall_hdr_lines (s : pystr) :
  forall skip bol,
    (length (Re.findall_hdr skip bol s)
     <= count_occ N.eq_dec s NL + (if bol then 1 else 0))%nat.
Proof.
  induction s as [|c s IH]; intros skip bol; [simpl; lia|].
  assert (Hc : (count_occ N.eq_dec (c :: s) NL
                = count_occ N.eq_dec s NL + (if char_eqb c NL then 1 else 0))%nat).
  { simpl. unfold char_eqb. destruct (N.eq_dec c NL) as [-> | Hne].
    - rewrite N.eqb_refl. lia.
    - destruct (N.eqb_spec c NL); [contradiction | lia]. }
  rewrite Hc. destruct skip as [|k]; cbn [Re.findall_hdr].
  - destruct bol.
    + destruct (Re.match_header (c :: s)) as [[|n]|]; cbn [length];
        [specialize (IH O (char_eqb c NL))
        |specialize (IH n (char_eqb c NL))
        |specialize (IH O (char_eqb c NL))]; lia.
    + specialize (IH O (char_eqb c NL)). lia.
  - specialize (IH k (char_eqb c NL)). destruct bol; lia.
Qed.

Lemma split_ws_count (s : pystr) :
  forall cur,
    (2 * length (split_ws cur s)
     <= length s + 1 + (if nonempty cur then 1 else 0))%nat.
Proof.
  induction s as [|c s IH]; intros cur.
  - destruct cur; simpl; lia.
  - cbn [split_ws]. destruct (isspace c).
    + destruct cur; cbn [length nonempty]; specialize (IH []); simpl in IH; lia.
    + specialize (IH (cur ++ [c])).
      assert (nonempty (cur ++ [c]) = true) by (destruct cur; reflexivity).
      rewrite H in IH. cbn [length]. destruct (nonempty cur); lia.
Qed.

Lemma metadata_fields (doc : pystr) :
  let m := create_metadata doc in
  header_count m = Z.of_nat (length (Re.findall_headers doc)) /\
  line_count m = Z.of_nat (count_occ N.eq_dec doc NL) + 1 /\
  char_count m = len doc /\
  word_count m = Z.of_nat (length (split_ws [] doc)) /\
  md_token_estimate m = len doc / 4 /\
  headers_preview m = firstn 10 (Re.findall_headers doc) /\
  first_500_chars m = firstn 500 doc /\
  last_500_chars m = skipn (length doc - 500) doc.
Proof.
  cbv zeta. unfold create_metadata. simpl.
  repeat split.
  - rewrite split_on_length. lia.
  - apply (slice_to_firstn doc 500).
  - destruct (Z.gtb_spec (len doc) 500) as [Hgt | Hle].
    + apply (slice_from_last doc 500); lia.
    + unfold len in Hle. replace (length doc - 500)%nat with O by lia. reflexivity.
Qed.

(** X11. The fields of the metadata bound each other: there are at most as
    many headers as lines and at most [char_count + 1] lines, twice the word
    count is at most [char_count + 1], the token estimate [t] satisfies
    [4 t <= char_count < 4 t + 4], at most ten headers are previewed, the
    two previews have [min(500, char_count)] characters, and the document
    starts with the first and ends with the last preview. *)
Theorem metadata_bounds (doc : pystr) :
  let m := create_metadata doc in
  0 <= header_count m <= line_count m /\
  1 <= line_count m <= char_count m + 1 /\
  0 <= 2 * word_count m <= char_count m + 1 /\
  4 * md_token_estimate m <= char_count m < 4 * md_token_estimate m + 4 /\
  Z.of_nat (length (headers_preview m)) = Z.min 10 (header_count m) /\
  len (first_500_chars m) = Z.min 500 (char_count m) /\
  len (last_500_chars m) = Z.min 500 (char_count m) /\
  (exists rest, doc = first_500_chars m ++ rest) /\
  (exists front, doc = front ++ last_500_chars m).
Proof.
  destruct (metadata_fields doc) as [F1 [F2 [F3 [F4 [F5 [F6 [F7 F8]]]]]]].
  cbv zeta. rewrite F1, F2, F3, F4, F5, F6, F7, F8. clear.
  pose proof (findall_hdr_lines doc O true) as Hh. fold (Re.findall_headers doc) in Hh.
  cbv iota in Hh.
  pose proof (split_ws_count doc []) as Hw. simpl in Hw.
  assert (Hl : (count_occ N.eq_dec doc NL <= length doc)%nat)
    by apply count_occ_bound.
  unfold len. rewrite !length_firstn, length_skipn.
  pose proof (Z.mul_div_le (Z.of_nat (length doc)) 4 ltac:(lia)).
  pose proof (Z.mul_succ_div_gt (Z.of_nat (length doc)) 4 ltac:(lia)).
  split; [lia|]. split; [lia|]. split; [lia|]. split; [lia|].
  split; [lia|]. split; [lia|]. split; [lia|]. split.
  - exists (skipn 500 doc). symmetry. apply firstn_skipn.
  - exists (firstn (length doc - 500) doc). symmetry. apply firstn_skipn.
Qed.

(** ** Previews *)

(** X12. The preview of a chunk has at most 103 characters and starts with
    the first 100 characters of the content.  It is the content when that
    has at most 100 characters; for a longer content it has exactly 103
    characters, the last three being dots. *)
Theorem preview_bounds (c : ChunkInfo) :
  len (preview c) <= 103 /\
  firstn 100 (preview c) = firstn 100 (content c) /\
  (len (content c) <= 100 -> preview c = content c) /\
  (100 < len (content c) ->
   preview c = firstn 100 (content c) ++ str "..." /\ len (preview c) = 103).
Proof.
  unfold preview.
  destruct (Z.gtb_spec (len (content c)) 100) as [Hgt | Hle].
  - replace (slice_to (content c) 100) with (firstn 100 (content c))
      by (symmetry; apply (slice_to_firstn (content c) 100)).
    assert (Hl : length (firstn 100 (content c)) = 100%nat)
      by (rewrite length_firstn; unfold len in Hgt; lia).
    assert (Hlen : len (firstn 100 (content c) ++ str "...") = 103)
      by (rewrite len_app; unfold len; rewrite Hl; reflexivity).
    split; [lia | split; [|split; [lia | intros _; split; [reflexivity | exact Hlen]]]].
    rewrite <- Hl at 1. rewrite firstn_length_app. reflexivity.
  - split; [lia | split; [reflexivity | split; [reflexivity | lia]]].
Qed.

Lemma preview_bounds_witness :
  preview (whole_chunk doc_abc) = doc_abc /\
  len (preview (whole_chunk doc_1000_A)) = 103.
Proof.
  split.
  - apply (proj1 (proj2 (proj2 (preview_bounds (whole_chunk doc_abc))))).
    vm_compute. discriminate.
  - apply (proj2 (proj2 (proj2 (preview_bounds (whole_chunk doc_1000_A))))).
    vm_compute. reflexivity.
Defined.

(** ** The context of a search hit *)

Lemma substring_join (doc : pystr) (a b c : Z) :
  0 <= a -> a <= b -> b <= c ->
  substring doc a c = substring doc a b ++ substring doc b c.
Proof.
  intros Ha Hab Hbc. unfold substring.
  replace (Z.to_nat (c - a)) with (Z.to_nat (b - a) + Z.to_nat (c - b))%nat by lia.
  rewrite firstn_plus, skipn_skipn.
  replace (Z.to_nat (b - a) + Z.to_nat a)%nat with (Z.to_nat b) by lia.
  reflexivity.
Qed.

Lemma search_hit_context (doc : pystr) (m : MatchObject) :
  0 <= m_start m <= m_end m -> m_end m <= len doc ->
  hit_context (search_hit doc m)
  = substring doc (Z.max 0 (m_start m - 50)) (Z.min (len doc) (m_end m + 50)).
Proof.
  intros Hse Hend. unfold search_hit. cbn [hit_context].
  unfold slice, substring, slice_index.
  destruct (Z.ltb_spec (Z.max 0 (m_start m - 50)) 0); [lia|].
  destruct (Z.ltb_spec (m_end m + 50) 0); [lia|].
  rewrite (Z.min_l (Z.max 0 (m_start m - 50)) (len doc)) by lia.
  rewrite (Z.min_comm (m_end m + 50) (len doc)). reflexivity.
Qed.

(** X13. When the engine reports matches that lie inside the document
    together with their text, every hit of [search] shows its match inside
    its context: the context is the match with the [min(50, start)]
    characters in front of it and the [min(50, len(document) - end)]
    characters behind it; and the hits are the matches, one for one and in
    their order. *)
Theorem search_context_surrounds
    (finditer : pystr -> pystr -> Z -> option (list MatchObject))
    (self : RLMContext) (pattern : pystr) (flags : Z)
    (ms : list MatchObject) :
  finditer pattern (document self) flags = Some ms ->
  (forall m, In m ms ->
     0 <= m_start m <= m_end m /\ m_end m <= len (document self) /\
     m_group m = substring (document self) (m_start m) (m_end m)) ->
  exists hits,
    search finditer self pattern flags = Some hits /\
    map (fun h => (hit_match h, hit_start h, hit_end h, hit_groups h)) hits
    = map (fun m => (m_group m, m_start m, m_end m, m_groups m)) ms /\
    Forall (context_surrounds (document self)) hits.
Proof.
  intros E Hms. unfold search. rewrite E. eexists. split; [reflexivity|]. split.
  - rewrite map_map. reflexivity.
  - apply Forall_map, Forall_forall. intros m Hm.
    destruct (Hms m Hm) as [Hse [Hend Hgroup]].
    set (doc := document self) in *.
    exists (substring doc (Z.max 0 (m_start m - 50)) (m_start m)),
           (substring doc (m_end m) (Z.min (len doc) (m_end m + 50))).
    rewrite search_hit_context by lia. cbn [search_hit hit_match hit_start hit_end].
    rewrite Hgroup. split; [|split].
    + rewrite (substring_join doc _ (m_start m)) by lia.
      rewrite (substring_join doc (m_start m) (m_end m)) by lia. reflexivity.
    + rewrite substring_len; lia.
    + rewrite substring_len; lia.
Qed.

Lemma literal_scan_spans (pattern : pystr) (s : pystr) :
  forall (front : pystr) (skip : nat) (m : MatchObject),
    In m (literal_scan pattern skip (len front) s) ->
    0 <= m_start m <= m_end m /\ m_end m <= len (front ++ s) /\
    m_group m = substring (front ++ s) (m_start m) (m_end m).
Proof.
  induction s as [|c s IH]; intros front skip m Hm; [contradiction|].
  assert (Hnext : forall k, In m (literal_scan pattern k (len front + 1) s) ->
            0 <= m_start m <= m_end m /\ m_end m <= len (front ++ c :: s) /\
            m_group m = substring (front ++ c :: s) (m_start m) (m_end m)).
  { intros k Hk.
    replace (len front + 1) with (len (front ++ [c])) in Hk
      by (rewrite len_app; reflexivity).
    apply IH in Hk. rewrite <- app_assoc in Hk. exact Hk. }
  cbn [literal_scan] in Hm. destruct skip as [|k]; [|exact (Hnext _ Hm)].
  destruct (nonempty pattern && startswith pattern (c :: s)) eqn:E;
    [|exact (Hnext _ Hm)].
  destruct Hm as [<- | Hm]; [|exact (Hnext _ Hm)].
  apply andb_true_iff in E as [_ E]. cbn [m_start m_end m_group].
  assert (Hpre : exists rest, c :: s = pattern ++ rest).
  { clear - E. revert E. generalize (c :: s). induction pattern as [|x p IHp];
      intros t E; [exists t; reflexivity|].
    destruct t as [|y t]; [discriminate|]. simpl in E.
    apply andb_true_iff in E as [Exy E]. apply N.eqb_eq in Exy. subst y.
    destruct (IHp t E) as [rest ->]. exists rest. reflexivity. }
  destruct Hpre as [rest ->].
  pose proof (len_nonneg front). pose proof (len_nonneg pattern).
  pose proof (len_nonneg rest).
  split; [lia | split; [rewrite !len_app; lia|]].
  rewrite substring_mid. reflexivity.
Qed.

Lemma search_context_surrounds_witness :
  exists hits,
    search literal_finditer (new_context doc_metric) (str "Metric A") 0 = Some hits /\
    map (fun h => (hit_match h, hit_start h, hit_end h, hit_groups h)) hits
    = map (fun m => (m_group m, m_start m, m_end m, m_groups m))
        (literal_scan (str "Metric A") O 0 doc_metric) /\
    Forall (context_surrounds doc_metric) hits.
Proof.
  apply (search_context_surrounds literal_finditer (new_context doc_metric)
           (str "Metric A") 0 (literal_scan (str "Metric A") O 0 doc_metric)).
  - reflexivity.
  - intros m Hm. exact (literal_scan_spans (str "Metric A") doc_metric [] O m Hm).
Defined.

(** ** Tasks for chunks *)

Lemma chunk_result_indexed (fuel : nat) (self self' : RLMContext)
    (chunk_size overlap : Z) (strategy : pystr) (l : list ChunkInfo) :
  chunk fuel self chunk_size overlap strategy = Returned (self', l) ->
  chunks self' = l /\ indexed_from_zero l.
Proof.
  unfold chunk. intros H.
  destruct (str_eqb strategy (str "uniform")).
  - destruct (chunk_document fuel (document self) chunk_size overlap) as [cs|] eqn:E;
      [|discriminate].
    injection H as <- <-. split; [reflexivity|].
    intros n c Hn. exact (loop_index _ _ _ _ 0 0 cs n c E Hn).
  - destruct (str_eqb strategy (str "paragraph")).
    + injection H as <- <-. split; [reflexivity|].
      intros n c Hn. rewrite chunk_by_paragraphs_groups in Hn.
      exact (chunks_of_index _ 0 0 n c Hn).
    + destruct (str_eqb strategy (str "semantic")); [|discriminate].
      injection H as <- <-. split; [reflexivity|].
      intros n c Hn. rewrite chunk_by_headers_groups in Hn.
      exact (chunks_of_index _ 0 0 n c Hn).
Qed.

Lemma filter_indices_increase (f : ChunkInfo -> bool) (l : list ChunkInfo) :
  forall base,
    (forall n c, nth_error l n = Some c -> index c = base + Z.of_nat n) ->
    forall i c1 c2,
      nth_error (filter f l) i = Some c1 ->
      nth_error (filter f l) (S i) = Some c2 ->
      base <= index c1 < index c2.
Proof.
  induction l as [|c l IH]; intros base Hidx i c1 c2 H1 H2.
  - destruct i; discriminate.
  - assert (Htl : forall n c', nth_error l n = Some c' ->
                               index c' = (base + 1) + Z.of_nat n).
    { intros n c' Hn. rewrite (Hidx (S n) c' Hn). lia. }
    cbn [filter] in H1, H2. destruct (f c).
    + destruct i as [|i].
      * change (nth_error (filter f l) 0 = Some c2) in H2.
        injection H1 as <-. rewrite (Hidx O c eq_refl).
        assert (Hin : In c2 l).
        { apply nth_error_In in H2. apply filter_In in H2. apply H2. }
        apply In_nth_error in Hin as [n Hn]. rewrite (Htl n c2 Hn). lia.
      * change (nth_error (filter f l) i = Some c1) in H1.
        change (nth_error (filter f l) (S i) = Some c2) in H2.
        specialize (IH (base + 1) Htl i c1 c2 H1 H2). lia.
    + specialize (IH (base + 1) Htl i c1 c2 H1 H2). lia.
Qed.

(** X14. After [RLMContext.chunk] has returned, [create_chunk_tasks] makes
    one task per chunk that passes the filter, in the order of the chunks
    and with the description, agent and background flag given; without a
    filter the task at position [n] is for the chunk with index [n], with a
    filter the tasks are for [filter_chunks] of the context and the indices
    of their chunks grow.  The tasks made replace the pending ones. *)
Theorem tasks_follow_chunks (fuel : nat) (self ctx : RLMContext)
    (chunk_size overlap : Z) (strategy : pystr) (l : list ChunkInfo)
    (orch : RLMOrchestrator) (description agent : pystr) (parallel : bool)
    (chunk_filter : option (ChunkInfo -> bool)) :
  chunk fuel self chunk_size overlap strategy = Returned (ctx, l) ->
  let (orch', tasks) :=
    create_chunk_tasks ctx orch description agent parallel chunk_filter in
  pending_tasks orch' = tasks /\
  Forall (fun t => task_description t = description /\ agent_type t = agent /\
                   run_in_background t = parallel) tasks /\
  match chunk_filter with
  | None =>
      map task_chunk tasks = l /\
      forall n t, nth_error tasks n = Some t -> index (task_chunk t) = Z.of_nat n
  | Some f =>
      map task_chunk tasks = filter_chunks ctx f /\
      (length tasks <= length l)%nat /\
      Forall (fun t => f (task_chunk t) = true /\ In (task_chunk t) l) tasks /\
      forall i t1 t2,
        nth_error tasks i = Some t1 -> nth_error tasks (S i) = Some t2 ->
        index (task_chunk t1) < index (task_chunk t2)
  end.
Proof.
  intros H. apply chunk_result_indexed in H as [Hl Hidx].
  unfold create_chunk_tasks. rewrite Hl.
  split; [reflexivity|]. split.
  - apply Forall_map, Forall_forall. intros c _. simpl. auto.
  - destruct chunk_filter as [f|].
    + split; [|split; [|split]].
      * rewrite map_map. simpl. rewrite map_id. unfold filter_chunks.
        rewrite Hl. reflexivity.
      * rewrite length_map. apply filter_length_le.
      * apply Forall_map, Forall_forall. intros c Hc. simpl.
        apply filter_In in Hc. tauto.
      * intros i t1 t2 H1 H2. rewrite nth_error_map in H1, H2.
        destruct (nth_error (filter f l) i) as [c1|] eqn:E1; [|discriminate].
        destruct (nth_error (filter f l) (S i)) as [c2|] eqn:E2; [|discriminate].
        injection H1 as <-. injection H2 as <-. simpl.
        apply (filter_indices_increase f l 0 (fun n c Hn => Hidx n c Hn) i c1 c2 E1 E2).
    + split.
      * rewrite map_map. simpl. apply map_id.
      * intros n t Hn. rewrite nth_error_map in Hn.
        destruct (nth_error l n) as [c|] eqn:E; [|discriminate].
        injection Hn as <-. simpl. exact (Hidx n c E).
Qed.

Lemma tasks_follow_chunks_witness :
  map task_chunk
    (snd (create_chunk_tasks
            (mkRLMContext doc_headers (create_metadata doc_headers)
               (chunk_by_headers doc_headers 3))
            (mkRLMOrchestrator []) (str "count") (str "sisyphus-junior") true None))
  = chunk_by_headers doc_headers 3.
Proof.
  pose proof (tasks_follow_chunks 0 (new_context doc_headers)
                (mkRLMContext doc_headers (create_metadata doc_headers)
                   (chunk_by_headers doc_headers 3))
                3 0 (str "semantic") (chunk_by_headers doc_headers 3)
                (mkRLMOrchestrator []) (str "count") (str "sisyphus-junior") true None
                eq_refl) as H.
  cbv beta iota zeta delta [create_chunk_tasks] in H.
  exact (proj1 (proj2 (proj2 H))).
Defined.

(** ** The strategies of the orchestrator *)

Lemma strategy_lookup_in (key : pystr) (d : list (pystr * Strategy)) (s : Strategy) :
  strategy_lookup key d = Some s -> In s (map snd d).
Proof.
  induction d as [|[k s'] d IH]; simpl; [discriminate|].
  destruct (str_eqb key k).
  - intros [= <-]. left. reflexivity.
  - intros H. right. exact (IH H).
Qed.

Lemma chunk_returns (doc : pystr) (chunk_size overlap : Z) (strategy : pystr) :
  (strategy = str "uniform" /\ 0 <= overlap /\ overlap + 200 <= chunk_size) \/
  strategy = str "paragraph" \/ strategy = str "semantic" ->
  exists ctx l,
    chunk (S (length doc)) (new_context doc) chunk_size overlap strategy
    = Returned (ctx, l).
Proof.
  intros [[-> [Hov Hcs]] | [-> | ->]]; unfold chunk.
  - change (str_eqb (str "uniform") (str "uniform")) with true. cbv iota.
    destruct (chunk_document_terminates_wide doc chunk_size overlap Hov Hcs)
      as [l Hl].
    simpl document. rewrite Hl. eexists. eexists. reflexivity.
  - eexists. eexists. reflexivity.
  - eexists. eexists. reflexivity.
Qed.

(** X15. [get_strategy] never fails: it returns the entry of [STRATEGIES]
    for a known task type and the entry for needle_search for any other
    one.  Whatever it returns names a strategy that [RLMContext.chunk]
    knows, and with its chunk size and the default overlap [chunk] returns
    for every document. *)
Theorem strategies_are_usable (task_type : pystr) :
  exists s,
    get_strategy task_type = Some s /\
    (strategy_lookup task_type STRATEGIES = None -> s = strategy_needle_search) /\
    (forall s', strategy_lookup task_type STRATEGIES = Some s' -> s = s') /\
    known_strategy (chunk_strategy s) = true /\
    forall doc, exists ctx l,
      chunk (S (length doc)) (new_context doc) (strategy_chunk_size s)
        default_overlap (chunk_strategy s)
      = Returned (ctx, l).
Proof.
  assert (Hall : Forall (fun s =>
              (chunk_strategy s = str "uniform" /\
               default_overlap + 200 <= strategy_chunk_size s) \/
              chunk_strategy s = str "semantic") (map snd STRATEGIES)).
  { unfold STRATEGIES. simpl map.
    repeat (apply Forall_cons;
            [first [left; split; [reflexivity | unfold default_overlap; simpl; lia]
                   | right; reflexivity] |]).
    apply Forall_nil. }
  assert (Hdef : strategy_lookup (str "needle_search") STRATEGIES
                 = Some strategy_needle_search) by reflexivity.
  unfold get_strategy. rewrite Hdef.
  assert (Hin : In (match strategy_lookup task_type STRATEGIES with
                    | Some s => s | None => strategy_needle_search end)
                  (map snd STRATEGIES)).
  { destruct (strategy_lookup task_type STRATEGIES) as [s|] eqn:E.
    - eapply strategy_lookup_in; exact E.
    - eapply strategy_lookup_in; exact Hdef. }
  eexists. split; [reflexivity|].
  rewrite Forall_forall in Hall. specialize (Hall _ Hin).
  destruct (strategy_lookup task_type STRATEGIES) as [s|].
  - split; [discriminate | split; [intros s' [= <-]; reflexivity|]].
    destruct Hall as [[Hu Hsz] | Hsem].
    + split; [rewrite Hu; reflexivity|]. intros doc. apply chunk_returns.
      left. unfold default_overlap in *. split; [exact Hu | lia].
    + split; [rewrite Hsem; reflexivity|]. intros doc. apply chunk_returns.
      right. right. exact Hsem.
  - split; [reflexivity | split; [discriminate|]].
    destruct Hall as [[Hu Hsz] | Hsem].
    + split; [rewrite Hu; reflexivity|]. intros doc. apply chunk_returns.
      left. unfold default_overlap in *. split; [exact Hu | lia].
    + split; [rewrite Hsem; reflexivity|]. intros doc. apply chunk_returns.
      right. right. exact Hsem.
Qed.

Lemma strategies_are_usable_witness :
  get_strategy (str "no such task") = Some strategy_needle_search /\
  get_strategy (str "comparison") = Some strategy_comparison.
Proof.
  destruct (strategies_are_usable (str "no such task")) as [s [H1 [H2 _]]].
  destruct (strategies_are_usable (str "comparison")) as [s' [H1' [_ [H3 _]]]].
  split.
  - rewrite H1. rewrite (H2 eq_refl). reflexivity.
  - rewrite H1'. rewrite (H3 strategy_comparison eq_refl). reflexivity.
Defined.

(** ** The result buffer *)

Lemma str_eqb_refl (k : pystr) : str_eqb k k = true.
Proof. apply str_eqb_eq. reflexivity. Qed.

Lemma dict_get_set_same (k : pystr) (v : pyval) (d : list (pystr * pyval)) :
  dict_get k (dict_set k v d) = Some v.
Proof.
  induction d as [|[k0 v0] d IH]; simpl.
  - rewrite str_eqb_refl. reflexivity.
  - destruct (str_eqb k k0) eqn:E; simpl; rewrite E; [reflexivity | exact IH].
Qed.

Lemma dict_get_set_other (k k' : pystr) (v : pyval) (d : list (pystr * pyval)) :
  k' <> k -> dict_get k' (dict_set k v d) = dict_get k' d.
Proof.
  intros Hne. apply str_eqb_false in Hne.
  induction d as [|[k0 v0] d IH]; simpl.
  - rewrite Hne. reflexivity.
  - destruct (str_eqb k k0) eqn:E; simpl.
    + apply str_eqb_eq in E. subst k0. rewrite Hne. reflexivity.
    + rewrite IH. reflexivity.
Qed.

Lemma dict_set_keys (k : pystr) (v : pyval) (d : list (pystr * pyval)) :
  map fst (dict_set k v d) = add_key k (map fst d).
Proof.
  unfold add_key. induction d as [|[k0 v0] d IH]; simpl; [reflexivity|].
  destruct (str_eqb k k0); simpl; [reflexivity|].
  rewrite IH. destruct (existsb (str_eqb k) (map fst d)); reflexivity.
Qed.

Lemma add_key_nodup (k : pystr) (ks : list pystr) : NoDup ks -> NoDup (add_key k ks).
Proof.
  intros H. unfold add_key. destruct (existsb (str_eqb k) ks) eqn:E; [exact H|].
  apply NoDup_app; [exact H | constructor; [intros [] | constructor] |].
  intros x Hx [Hk | []]. subst x.
  assert (existsb (str_eqb k) ks = true); [|congruence].
  apply existsb_exists. exists k. split; [exact Hx | apply str_eqb_refl].
Qed.

(** X16. After [store_result(key, value)] the buffer holds [value] under
    [key] and what it held under every other key; a key that was present
    keeps its place among the keys and a new one comes last, so the keys
    stay distinct; no list is changed. *)
Theorem store_result_lookup (b : Buffer) (key : pystr) (value : pyval) :
  dict_get key (entries (store_result b key value)) = Some value /\
  (forall k, k <> key ->
     dict_get k (entries (store_result b key value)) = dict_get k (entries b)) /\
  map fst (entries (store_result b key value)) = add_key key (map fst (entries b)) /\
  (NoDup (map fst (entries b)) ->
   NoDup (map fst (entries (store_result b key value)))) /\
  lists (store_result b key value) = lists b.
Proof.
  unfold store_result. cbn [entries lists].
  split; [apply dict_get_set_same|].
  split; [intros k Hk; apply dict_get_set_other; exact Hk|].
  split; [apply dict_set_keys|].
  split; [|reflexivity].
  intros H. rewrite dict_set_keys. apply add_key_nodup, H.
Qed.

Lemma store_result_lookup_witness :
  dict_get (str "b")
    (entries (store_result (store_result (mkBuffer [] []) (str "b") (VInt 1))
                (str "a") (VInt 2)))
  = Some (VInt 1).
Proof.
  rewrite (proj1 (proj2 (store_result_lookup
                           (store_result (mkBuffer [] []) (str "b") (VInt 1))
                           (str "a") (VInt 2)))).
  - reflexivity.
  - intros H. vm_compute in H. discriminate.
Defined.

Lemma nth_error_set_nth_same (r : nat) (x : list pyval) (l : list (list pyval)) :
  (r < length l)%nat -> nth_error (set_nth r x l) r = Some x.
Proof.
  revert r. induction l as [|y l IH]; intros r Hr; simpl in Hr; [lia|].
  destruct r as [|r]; simpl; [reflexivity | apply IH; lia].
Qed.

Lemma nth_error_set_nth_other (r r' : nat) (x : list pyval) (l : list (list pyval)) :
  r' <> r -> nth_error (set_nth r x l) r' = nth_error l r'.
Proof.
  revert r r'. induction l as [|y l IH]; intros r r' Hne.
  - destruct r; reflexivity.
  - destruct r as [|r], r' as [|r']; simpl; try reflexivity; try lia.
    apply IH. lia.
Qed.

(** X17. When the buffer holds a list under [key], [append_result] puts
    the value at the end of that list and leaves the dict as it is: the
    list reads [old + [value]] under every key that holds this same list,
    and every other list is unchanged.  When the buffer holds something
    that is not a list under [key], [append_result] raises
    [AttributeError]. *)
Theorem append_result_existing (b : Buffer) (key : pystr) (value : pyval) :
  (forall r xs,
      dict_get key (entries b) = Some (VList r) ->
      nth_error (lists b) r = Some xs ->
      exists b',
        append_result b key value = Done b' /\
        entries b' = entries b /\
        (forall k, dict_get k (entries b) = Some (VList r) ->
                   read b' k = Some (xs ++ [value])) /\
        (forall r', r' <> r -> nth_error (lists b') r' = nth_error (lists b) r')) /\
  (forall v0,
      dict_get key (entries b) = Some v0 ->
      (forall r, v0 <> VList r) ->
      append_result b key value = AttributeError).
Proof.
  split.
  - intros r xs Hk Hr. unfold append_result. rewrite Hk. cbv zeta. rewrite Hk, Hr.
    eexists. split; [reflexivity|]. cbn [entries lists].
    split; [reflexivity | split].
    + intros k Hk'. unfold read. cbn [entries lists]. rewrite Hk'.
      apply nth_error_set_nth_same. apply nth_error_Some. congruence.
    + intros r' Hne. apply nth_error_set_nth_other. exact Hne.
  - intros v0 Hk Hv. unfold append_result. rewrite Hk. cbv zeta. rewrite Hk.
    destruct v0; try reflexivity. contradiction (Hv ref). reflexivity.
Qed.

Lemma append_result_existing_witness :
  (exists b',
     append_result
       (store_result (store_result (mkBuffer [[VInt 1]] []) (str "a") (VList 0))
          (str "b") (VList 0))
       (str "a") (VInt 2) = Done b' /\
     read b' (str "b") = Some [VInt 1; VInt 2]) /\
  append_result (store_result (mkBuffer [] []) (str "a") (VStr (str "x")))
    (str "a") (VInt 2) = AttributeError.
Proof.
  split.
  - destruct (proj1 (append_result_existing
                       (store_result
                          (store_result (mkBuffer [[VInt 1]] []) (str "a") (VList 0))
                          (str "b") (VList 0))
                       (str "a") (VInt 2)) 0%nat [VInt 1] eq_refl eq_refl)
      as [b' [H1 [_ [H2 _]]]].
    exists b'. split; [exact H1 | apply H2; reflexivity].
  - apply (proj2 (append_result_existing
                    (store_result (mkBuffer [] []) (str "a") (VStr (str "x")))
                    (str "a") (VInt 2)) (VStr (str "x"))); [reflexivity|].
    intros r H. discriminate.
Defined.

(** *** Runs of [append_result] *)

Lemma dict_get_app_absent (k : pystr) (d d' : list (pystr * pyval)) :
  dict_get k d = None -> dict_get k (d ++ d') = dict_get k d'.
Proof.
  induction d as [|[k0 v0] d IH]; simpl; [reflexivity|].
  destruct (str_eqb k k0); [discriminate | exact IH].
Qed.

Lemma dict_set_app_absent (k : pystr) (v : pyval) (d d' : list (pystr * pyval)) :
  dict_get k d = None -> dict_set k v (d ++ d') = d ++ dict_set k v d'.
Proof.
  induction d as [|[k0 v0] d IH]; simpl; [reflexivity|].
  destruct (str_eqb k k0); [discriminate|]. intros H. rewrite IH by exact H.
  reflexivity.
Qed.

Lemma nth_error_middle (h : list (list pyval)) (y : list pyval) (t : list (list pyval)) :
  nth_error (h ++ y :: t) (length h) = Some y.
Proof. induction h as [|x h IH]; simpl; [reflexivity | exact IH]. Qed.

Lemma set_nth_middle (h : list (list pyval)) (x y : list pyval) (t : list (list pyval)) :
  set_nth (length h) x (h ++ y :: t) = h ++ x :: t.
Proof. induction h as [|z h IH]; simpl; [reflexivity | rewrite IH; reflexivity]. Qed.

Lemma firstn_length_app_lists (a b : list (list pyval)) :
  firstn (length a) (a ++ b) = a.
Proof. induction a as [|x a IH]; simpl; [reflexivity | rewrite IH; reflexivity]. Qed.

(** One call on a buffer that the calls before it have built. *)
Lemma append_result_push (k : pystr) (v : pyval) (gs : key_groups) :
  forall (h : list (list pyval)) (E : list (pystr * pyval)),
    dict_get k E = None ->
    append_result (mkBuffer (h ++ map snd gs) (E ++ entries_of (length h) gs)) k v
    = Done (mkBuffer (h ++ map snd (push k v gs))
              (E ++ entries_of (length h) (push k v gs))).
Proof.
  induction gs as [|[k0 xs] gs IH]; intros h E HE.
  - assert (Hset : dict_set k (VList (length h)) E = E ++ [(k, VList (length h))]).
    { pose proof (dict_set_app_absent k (VList (length h)) E [] HE) as H.
      rewrite app_nil_r in H. exact H. }
    assert (Hget : dict_get k (E ++ [(k, VList (length h))]) = Some (VList (length h))).
    { rewrite dict_get_app_absent by exact HE. cbn [dict_get].
      rewrite str_eqb_refl. reflexivity. }
    unfold append_result. cbn [entries lists map push entries_of snd].
    rewrite !app_nil_r, HE. cbv zeta. cbn [entries lists].
    rewrite Hset, Hget, nth_error_middle, set_nth_middle. reflexivity.
  - cbn [map push entries_of snd]. destruct (str_eqb k k0) eqn:Ek.
    + unfold append_result. cbn [entries lists map entries_of snd].
      assert (Hget : dict_get k (E ++ (k0, VList (length h))
                                   :: entries_of (S (length h)) gs)
                     = Some (VList (length h))).
      { rewrite dict_get_app_absent by exact HE. cbn [dict_get]. rewrite Ek.
        reflexivity. }
      rewrite Hget. cbn [entries lists]. rewrite Hget.
      rewrite nth_error_middle, set_nth_middle. reflexivity.
    + specialize (IH (h ++ [xs]) (E ++ [(k0, VList (length h))])).
      rewrite length_app, Nat.add_1_r, <- !app_assoc in IH. cbn [app] in IH.
      cbn [map entries_of snd]. apply IH.
      rewrite dict_get_app_absent by exact HE. cbn [dict_get]. rewrite Ek.
      reflexivity.
Qed.

Lemma append_all_groups (calls : list (pystr * pyval)) :
  forall (others : list (list pyval)) (gs : key_groups),
    append_all calls (buffer_of others gs)
    = Done (buffer_of others
              (fold_left (fun gs kv => push (fst kv) (snd kv) gs) calls gs)).
Proof.
  induction calls as [|[k v] calls IH]; intros others gs; [reflexivity|].
  cbn [append_all fold_left fst snd]. unfold buffer_of at 1.
  pose proof (append_result_push k v gs others [] eq_refl) as H.
  change ([] ++ entries_of (length others) gs)
    with (entries_of (length others) gs) in H.
  change ([] ++ entries_of (length others) (push k v gs))
    with (entries_of (length others) (push k v gs)) in H.
  rewrite H. apply IH.
Qed.

Lemma read_buffer_of (k : pystr) (gs : key_groups) :
  forall h, read (mkBuffer (h ++ map snd gs) (entries_of (length h) gs)) k
            = assoc k gs.
Proof.
  induction gs as [|[k0 xs] gs IH]; intros h; [reflexivity|].
  unfold read. cbn [entries lists map entries_of snd dict_get assoc].
  destruct (str_eqb k k0).
  - apply nth_error_middle.
  - specialize (IH (h ++ [xs])). unfold read in IH. cbn [entries lists] in IH.
    rewrite length_app, Nat.add_1_r, <- app_assoc in IH. exact IH.
Qed.

Lemma entries_of_keys (gs : key_groups) :
  forall n, map fst (entries_of n gs) = map fst gs.
Proof.
  induction gs as [|[k0 xs] gs IH]; intros n; simpl; [reflexivity|].
  rewrite IH. reflexivity.
Qed.

Lemma push_keys (k : pystr) (v : pyval) (gs : key_groups) :
  map fst (push k v gs) = add_key k (map fst gs).
Proof.
  unfold add_key. induction gs as [|[k0 xs] gs IH]; simpl; [reflexivity|].
  destruct (str_eqb k k0); simpl; [reflexivity|].
  rewrite IH. destruct (existsb (str_eqb k) (map fst gs)); reflexivity.
Qed.

Lemma assoc_push (k k' : pystr) (v : pyval) (gs : key_groups) :
  assoc k' (push k v gs)
  = if str_eqb k' k
    then Some (match assoc k gs with Some xs => xs | None => [] end ++ [v])
    else assoc k' gs.
Proof.
  induction gs as [|[k0 xs] gs IH]; cbn [push assoc].
  - destruct (str_eqb k' k); reflexivity.
  - destruct (str_eqb k k0) eqn:E; cbn [assoc].
    + apply str_eqb_eq in E. subst k0.
      destruct (str_eqb k' k); reflexivity.
    + rewrite IH. destruct (str_eqb k' k0) eqn:E0; [|reflexivity].
      destruct (str_eqb k' k) eqn:E1; [|reflexivity].
      apply str_eqb_eq in E0, E1. subst. rewrite str_eqb_refl in E. discriminate.
Qed.

Lemma assoc_fold_push (k : pystr) (calls : list (pystr * pyval)) :
  forall gs,
    assoc k (fold_left (fun gs kv => push (fst kv) (snd kv) gs) calls gs)
    = match assoc k gs with
      | Some xs => Some (xs ++ grouped k calls)
      | None => if existsb (fun kv => str_eqb k (fst kv)) calls
                then Some (grouped k calls) else None
      end.
Proof.
  unfold grouped.
  induction calls as [|[k1 v1] calls IH]; intros gs; cbn [fold_left fst snd].
  - simpl. destruct (assoc k gs); [rewrite app_nil_r|]; reflexivity.
  - rewrite IH, assoc_push. cbn [filter existsb fst].
    destruct (str_eqb k k1) eqn:E.
    + apply str_eqb_eq in E. subst k1. cbn [map snd orb].
      destruct (assoc k gs); rewrite <- app_assoc; reflexivity.
    + reflexivity.
Qed.

Lemma keys_fold_push (calls : list (pystr * pyval)) :
  forall gs,
    map fst (fold_left (fun gs kv => push (fst kv) (snd kv) gs) calls gs)
    = fold_left (fun ks kv => add_key (fst kv) ks) calls (map fst gs).
Proof.
  induction calls as [|[k1 v1] calls IH]; intros gs; cbn [fold_left fst snd];
    [reflexivity|].
  rewrite IH, push_keys. reflexivity.
Qed.

(** X18. A run of [append_result] calls on an empty buffer never fails.
    Afterwards the keys of the buffer are the keys of the calls in the order
    of their first use, the list under a key holds the values appended under
    that key in the order of the calls, a key that was not used is absent,
    and the lists that existed before are unchanged. *)
Theorem append_result_groups (others : list (list pyval))
    (calls : list (pystr * pyval)) :
  exists b,
    append_all calls (mkBuffer others []) = Done b /\
    map fst (entries b) = first_keys calls /\
    (forall k,
        read b k = if existsb (fun kv => str_eqb k (fst kv)) calls
                   then Some (grouped k calls) else None) /\
    firstn (length others) (lists b) = others.
Proof.
  assert (E0 : mkBuffer others [] = buffer_of others [])
    by (unfold buffer_of; simpl; rewrite app_nil_r; reflexivity).
  rewrite E0, append_all_groups. eexists. split; [reflexivity|].
  unfold buffer_of. cbn [entries lists]. split; [|split].
  - rewrite entries_of_keys, keys_fold_push. reflexivity.
  - intros k. rewrite read_buffer_of, assoc_fold_push. reflexivity.
  - apply firstn_length_app_lists.
Qed.

(** ** The cuts of the uniform strategy *)

Lemma loop_ends (fuel : nat) (doc : pystr) (cs ov : Z) :
  forall start idx l,
    chunk_document_loop fuel doc cs ov start idx = Some l ->
    forall c, In c l -> end_char c = chunk_end doc cs (start_char c).
Proof.
  induction fuel as [|fuel IH]; intros start idx l H c Hc; [discriminate|].
  rewrite chunk_document_loop_S in H.
  destruct (start <? len doc); [|injection H as <-; contradiction].
  cbv zeta in H.
  destruct (chunk_document_loop fuel doc cs ov _ (idx + 1)) as [l'|] eqn:E;
    [|discriminate].
  injection H as <-. destruct Hc as [<- | Hc]; [reflexivity|].
  eapply IH; eassumption.
Qed.

(** X19. When [overlap >= 0] and [chunk_size >= overlap + 200], every cut
    of the uniform strategy follows the boundary policy: a segment whose
    provisional end [start + chunk_size] lies inside the document ends
    behind the last line break of the 200 characters in front of that end,
    else behind the last period-and-space there, else at the provisional
    end; a segment whose provisional end reaches the end of the document
    ends there. *)
Theorem uniform_cuts_follow_policy (doc : pystr) (chunk_size overlap : Z)
    (fuel : nat) (l : list ChunkInfo) :
  0 <= overlap -> overlap + 200 <= chunk_size ->
  chunk_document fuel doc chunk_size overlap = Some l ->
  Forall (fun c =>
            (start_char c + chunk_size < len doc ->
             Cut doc (start_char c) (start_char c + chunk_size) (end_char c)) /\
            (len doc <= start_char c + chunk_size -> end_char c = len doc)) l.
Proof.
  intros Hov Hcs H. apply Forall_forall. intros c Hc.
  destruct (loop_wide fuel doc chunk_size overlap Hov Hcs 0 0 l ltac:(lia) H)
    as [Hall _].
  rewrite Forall_forall in Hall. destruct (Hall c Hc) as [H0 _].
  rewrite (loop_ends fuel doc chunk_size overlap 0 0 l H c Hc).
  split.
  - intros Hin. apply chunk_end_policy; lia.
  - intros Hout. apply chunk_end_at_end. exact Hout.
Qed.

Lemma uniform_cuts_follow_policy_witness :
  exists l,
    chunk_document 5 doc_1000_A 300 50 = Some l /\
    Forall (fun c =>
              (start_char c + 300 < len doc_1000_A ->
               Cut doc_1000_A (start_char c) (start_char c + 300) (end_char c)) /\
              (len doc_1000_A <= start_char c + 300 -> end_char c = len doc_1000_A)) l.
Proof.
  destruct (chunk_document 5 doc_1000_A 300 50) as [l|] eqn:E.
  - exists l. split; [reflexivity|].
    apply (uniform_cuts_follow_policy doc_1000_A 300 50 5 l); [lia | lia | exact E].
  - vm_compute in E. discriminate.
Defined.

(** ** Where the segments of the semantic strategy begin *)

Lemma run_firstn (p : char -> bool) (s : pystr) :
  forall n, Re.run p (firstn n s) = Nat.min n (Re.run p s).
Proof.
  induction s as [|c s IH]; intros n.
  - rewrite firstn_nil. simpl. lia.
  - destruct n as [|n]; [reflexivity|]. simpl.
    destruct (p c); [rewrite IH; reflexivity | reflexivity].
Qed.

Lemma ws_then_text_head (s : pystr) (j : nat) :
  Re.ws_then_text s = Some j ->
  (1 <= j)%nat /\ exists c t, s = c :: t /\ isspace c = true.
Proof.
  destruct s as [|c s]; simpl; [discriminate|].
  destruct (isspace c) eqn:Ec; [|discriminate].
  intros H. split; [|exists c, s; split; [reflexivity | exact Ec]].
  destruct (Re.ws_then_text s) as [j'|].
  - injection H as <-. lia.
  - destruct s as [|d s]; [discriminate|].
    destruct (Re.not_nl d); [injection H as <-; lia | discriminate].
Qed.

(** What the header pattern matches starts like a header. *)
Lemma match_header_starts (s : pystr) (n : nat) :
  Re.match_header s = Some n -> Re.starts_header (firstn n s) = true.
Proof.
  unfold Re.match_header, Re.starts_header.
  set (h := Re.run Re.is_hash s).
  destruct ((1 <=? h)%nat && (h <=? 6)%nat) eqn:Eh; [|discriminate].
  destruct (Re.ws_then_text (skipn h s)) as [j|] eqn:Ej; [|discriminate].
  intros [= <-]. apply ws_then_text_head in Ej as [Hj [c [t [Es Ec]]]].
  rewrite run_firstn. fold h.
  replace (Nat.min (h + j + Re.run Re.not_nl (skipn (h + j) s)) h) with h by lia.
  rewrite Eh, skipn_firstn_comm, Es. simpl andb.
  replace (h + j + Re.run Re.not_nl (skipn (h + j) s) - h)%nat
    with (S (j - 1 + Re.run Re.not_nl (skipn (h + j) s))) by lia.
  simpl. exact Ec.
Qed.

Lemma starts_header_headed (s : pystr) : Re.starts_header s = true -> headed s.
Proof.
  unfold Re.starts_header. destruct s as [|c s]; [discriminate|]. simpl.
  unfold Re.is_hash at 1 2, char_eqb. destruct (N.eqb_spec c HASH) as [-> | _].
  - intros _. exists s. reflexivity.
  - discriminate.
Qed.

(** The split alternates between texts and headers. *)
Lemma split_hdr_alternating (s : pystr) :
  forall skip bol cur,
    exists x rest, Re.split_hdr skip bol cur s = x :: rest /\ Alternating rest.
Proof.
  induction s as [|c s IH]; intros skip bol cur.
  - exists cur, []. split; [reflexivity | constructor].
  - destruct skip as [|k]; cbn [Re.split_hdr]; [|apply IH].
    destruct (if bol then Re.match_header (c :: s) else None) as [[|n]|] eqn:E;
      try apply IH.
    destruct (IH n (char_eqb c NL) []) as [x [rest [Hx Hrest]]].
    exists cur, (firstn (S n) (c :: s) :: x :: rest). rewrite Hx.
    split; [reflexivity|]. constructor; [|exact Hrest].
    destruct bol; [|discriminate]. apply match_header_starts, E.
Qed.

Lemma alternating_units (rest : list pystr) :
  Alternating rest -> Forall headed (header_units rest).
Proof.
  induction 1 as [| h b rest Hh Hrest IH]; [constructor|].
  rewrite header_units_two, Hh. constructor; [|exact IH].
  destruct (starts_header_headed h Hh) as [t ->]. exists (t ++ b). reflexivity.
Qed.

Lemma ws_then_text_none (s : pystr) :
  Re.ws_then_text s = None ->
  (exists c t, s = c :: t /\ isspace c = true) -> all_space s.
Proof.
  induction s as [|c s IH]; intros H [c0 [t [E Ec]]]; [discriminate|].
  injection E as <- <-. simpl in H. rewrite Ec in H.
  constructor; [exact Ec|].
  destruct (Re.ws_then_text s) eqn:Es; [discriminate|].
  destruct s as [|d s]; [constructor|].
  apply IH; [reflexivity|]. exists d, s. split; [reflexivity|].
  unfold Re.not_nl, char_eqb in H. destruct (N.eqb_spec d NL) as [-> | _];
    [reflexivity | discriminate].
Qed.

Lemma split_hdr_hashes (s : pystr) :
  forall cur,
    all_space (skipn (Re.run Re.is_hash s) s) ->
    Re.split_hdr O false cur s = [cur ++ s].
Proof.
  induction s as [|c s IH]; intros cur H.
  - simpl. rewrite app_nil_r. reflexivity.
  - cbn [Re.split_hdr]. simpl in H. destruct (Re.is_hash c) eqn:Ec.
    + assert (Enl : char_eqb c NL = false).
      { unfold Re.is_hash, char_eqb in *. apply N.eqb_eq in Ec. subst c. reflexivity. }
      rewrite Enl, IH by exact H. rewrite <- app_assoc. reflexivity.
    + simpl in H. inversion H; subst.
      rewrite split_hdr_space by assumption. rewrite <- app_assoc. reflexivity.
Qed.

Lemma run_app_stop (p : char -> bool) (x y : pystr) :
  (Re.run p x < length x)%nat -> Re.run p (x ++ y) = Re.run p x.
Proof.
  induction x as [|c x IH]; simpl; [lia|].
  destruct (p c); [|reflexivity]. intros H. rewrite IH by lia. reflexivity.
Qed.

Lemma starts_header_app (x y : pystr) :
  Re.starts_header x = true ->
  Re.run Re.is_hash (x ++ y) = Re.run Re.is_hash x /\
  Re.starts_header (x ++ y) = true /\
  exists c t, skipn (Re.run Re.is_hash x) (x ++ y) = c :: t /\ isspace c = true.
Proof.
  unfold Re.starts_header. intros H. apply andb_true_iff in H as [Hr Hs].
  destruct (skipn (Re.run Re.is_hash x) x) as [|c t] eqn:Esk; [discriminate|].
  assert (Hlt : (Re.run Re.is_hash x < length x)%nat).
  { destruct (Nat.lt_ge_cases (Re.run Re.is_hash x) (length x)) as [Hl | Hg];
      [exact Hl|].
    rewrite skipn_all2 in Esk by exact Hg. discriminate. }
  assert (Eapp : skipn (Re.run Re.is_hash x) (x ++ y) = c :: t ++ y).
  { rewrite skipn_app, Esk.
    replace (Re.run Re.is_hash x - length x)%nat with O by lia. reflexivity. }
  rewrite (run_app_stop Re.is_hash x y Hlt), Hr, Eapp.
  split; [reflexivity | split; [exact Hs|]].
  exists c, (t ++ y). split; [reflexivity | exact Hs].
Qed.

(** A text in front of the first header does not start like a header. *)
Lemma first_section_plain (doc x : pystr) (rest : list pystr) :
  Re.split_headers doc = x :: rest -> Re.starts_header x = true -> rest = [].
Proof.
  intros Hsplit Hx.
  pose proof (split_hdr_concat doc O true []) as Hcat.
  fold (Re.split_headers doc) in Hcat. rewrite Hsplit in Hcat. simpl in Hcat.
  destruct (starts_header_app x (concat rest) Hx) as [Hrun [Hdoc [c0 [t [Hsk Hsp]]]]].
  rewrite Hcat in Hrun, Hdoc, Hsk.
  unfold Re.split_headers in Hsplit. destruct doc as [|c s].
  - simpl in Hsplit. injection Hsplit as <- <-. reflexivity.
  - cbn [Re.split_hdr] in Hsplit.
    destruct (Re.match_header (c :: s)) as [[|n]|] eqn:Em.
    + exfalso. unfold Re.match_header in Em.
      set (h := Re.run Re.is_hash (c :: s)) in Em.
      destruct ((1 <=? h)%nat && (h <=? 6)%nat) eqn:Eh; [|discriminate].
      destruct (Re.ws_then_text (skipn h (c :: s))) as [j|]; [|discriminate].
      apply andb_true_iff in Eh as [Eh _]. apply Nat.leb_le in Eh.
      assert (Hsum : (h + j + Re.run Re.not_nl (skipn (h + j) (c :: s)) = 0)%nat)
        by congruence.
      lia.
    + injection Hsplit as <- _. discriminate.
    + assert (Hws : all_space (skipn (Re.run Re.is_hash (c :: s)) (c :: s))).
      { unfold Re.match_header in Em. unfold Re.starts_header in Hdoc.
        apply andb_true_iff in Hdoc as [Hh _]. rewrite Hh in Em.
        destruct (Re.ws_then_text (skipn (Re.run Re.is_hash (c :: s)) (c :: s)))
          eqn:Ew; [discriminate|].
        apply ws_then_text_none; [exact Ew|].
        rewrite Hrun. exists c0, t. split; [exact Hsk | exact Hsp]. }
      assert (Hc : Re.is_hash c = true).
      { unfold Re.starts_header in Hdoc. simpl in Hdoc.
        destruct (Re.is_hash c); [reflexivity | discriminate]. }
      assert (Enl : char_eqb c NL = false).
      { unfold Re.is_hash, char_eqb in *. apply N.eqb_eq in Hc. subst c. reflexivity. }
      rewrite Enl in Hsplit. simpl in Hws. rewrite Hc in Hws.
      rewrite split_hdr_hashes in Hsplit by exact Hws.
      injection Hsplit as _ <-. reflexivity.
Qed.

(** All units of the semantic strategy but the first begin with a header. *)
Lemma semantic_units_headed (doc : pystr) :
  exists u0 us, semantic_units doc = u0 :: us /\ Forall headed us.
Proof.
  unfold semantic_units.
  destruct (split_hdr_alternating doc O true []) as [x [rest [Hsplit Halt]]].
  fold (Re.split_headers doc) in Hsplit. rewrite Hsplit.
  destruct rest as [|h [|b rest]].
  - exists x, []. split; [reflexivity | constructor].
  - inversion Halt.
  - rewrite header_units_two.
    destruct (Re.starts_header x) eqn:Ex.
    + apply (first_section_plain doc x _ Hsplit) in Ex. discriminate.
    + exists x, (header_units (h :: b :: rest)). split; [reflexivity|].
      apply alternating_units, Halt.
Qed.

Lemma group_step_tail_headed (max_size : Z) (Gg : groups) (u : pystr) :
  headed u -> tail_headed (all_groups Gg) ->
  tail_headed (all_groups (group_step [] max_size Gg u)).
Proof.
  intros Hu. destruct Gg as [G g]. unfold group_step, all_groups.
  simpl fst. simpl snd.
  destruct ((len (block [] g) + len u >? max_size) && nonempty (block [] g));
    simpl fst; simpl snd; intros H.
  - destruct G as [|g0 G]; simpl in *.
    + constructor; [|constructor]. exists u, []. split; [reflexivity | exact Hu].
    + apply Forall_app. split; [|constructor; [|constructor]].
      * exact H.
      * exists u, []. split; [reflexivity | exact Hu].
  - destruct G as [|g0 G]; simpl in *; [constructor|].
    apply Forall_app in H as [HG Hg]. apply Forall_app. split; [exact HG|].
    inversion Hg as [|? ? [u' [t [-> Hu']]] _]; subst.
    constructor; [|constructor]. exists u', (t ++ [u]). split; [reflexivity | exact Hu'].
Qed.

Lemma groups_tail_headed (max_size : Z) (units : list pystr) :
  Forall headed units ->
  forall Gg, tail_headed (all_groups Gg) ->
    tail_headed (all_groups (fold_left (group_step [] max_size) units Gg)).
Proof.
  induction 1 as [|u units Hu Hunits IH]; intros Gg H; simpl; [exact H|].
  apply IH, group_step_tail_headed; assumption.
Qed.

Lemma nth_error_emitted (sep : pystr) (gs : list (list pystr)) (n : nat)
    (g : list pystr) :
  nth_error (emitted sep gs) n = Some g -> nth_error gs n = Some g.
Proof.
  unfold emitted. destruct (strip_nonempty (block sep (last gs []))); [auto|].
  destruct gs as [|g0 gs] using rev_ind; [auto|].
  rewrite removelast_last. intros H.
  rewrite nth_error_app1; [exact H|]. apply nth_error_Some. congruence.
Qed.

(** X20. Every chunk of the semantic strategy but the first begins with a
    header: its content starts with the header sign. *)
Theorem semantic_chunks_start_with_headers (doc : pystr) (max_size : Z) :
  forall n c,
    nth_error (chunk_by_headers doc max_size) (S n) = Some c ->
    headed (content c).
Proof.
  intros n c Hc. rewrite chunk_by_headers_groups in Hc.
  apply (map_nth_error content) in Hc. rewrite chunks_of_content in Hc.
  rewrite nth_error_map in Hc.
  destruct (nth_error (emitted [] _) (S n)) as [g|] eqn:Eg; [|discriminate].
  injection Hc as Hc. apply nth_error_emitted in Eg.
  destruct (semantic_units_headed doc) as [u0 [us [Hunits Hus]]].
  unfold pack_groups in Eg. rewrite Hunits in Eg. cbn [fold_left] in Eg.
  assert (Hstep : group_step [] max_size ([], []) u0 = ([], [u0])).
  { unfold group_step. simpl. rewrite andb_false_r. reflexivity. }
  rewrite Hstep in Eg.
  pose proof (groups_tail_headed max_size us Hus ([], [u0]) (Forall_nil _)) as Ht.
  destruct (all_groups (fold_left (group_step [] max_size) us ([], [u0])))
    as [|g0 gs]; [discriminate|].
  simpl in Ht, Eg. apply nth_error_In in Eg.
  rewrite Forall_forall in Ht. destruct (Ht g Eg) as [u [t [-> [t' ->]]]].
  rewrite <- Hc. exists ((t' ++ []) ++ block [] t). reflexivity.
Qed.

Lemma semantic_chunks_start_with_headers_witness :
  Forall (fun c => headed (content c)) (skipn 1 (chunk_by_headers doc_headers 3)).
Proof.
  apply Forall_forall. intros c Hc. apply In_nth_error in Hc as [n Hn].
  apply (semantic_chunks_start_with_headers doc_headers 3 n c).
  rewrite <- Hn. reflexivity.
Defined.

(** ** How many chunks there are *)

Lemma alternating_units_length (rest : list pystr) :
  Alternating rest -> (2 * length (header_units rest) = length rest)%nat.
Proof.
  induction 1 as [| h b rest Hh Hrest IH]; [reflexivity|].
  rewrite header_units_two, Hh. simpl. lia.
Qed.

Lemma semantic_units_count (doc : pystr) :
  Z.of_nat (length (semantic_units doc)) = header_count (create_metadata doc) + 1.
Proof.
  destruct (split_hdr_findall doc O true []) as [_ Hlen].
  fold (Re.split_headers doc) in Hlen. fold (Re.findall_headers doc) in Hlen.
  simpl header_count. unfold semantic_units.
  destruct (split_hdr_alternating doc O true []) as [x [rest [Hsplit Halt]]].
  fold (Re.split_headers doc) in Hsplit. rewrite Hsplit in *.
  pose proof (alternating_units_length rest Halt) as Hr.
  destruct rest as [|h [|b rest]].
  - simpl in *. lia.
  - inversion Halt.
  - rewrite header_units_two.
    destruct (Re.starts_header x) eqn:Ex.
    + apply (first_section_plain doc x _ Hsplit) in Ex. discriminate.
    + cbn [length] in *. lia.
Qed.

Lemma nonempty_groups_length (gs : list (list pystr)) :
  Forall (fun g => g <> []) gs -> (length gs <= length (concat gs))%nat.
Proof.
  induction 1 as [|g gs Hg Hgs IH]; [simpl; lia|].
  simpl. rewrite length_app. destruct g; [contradiction | simpl; lia].
Qed.

Lemma emitted_count (sep : pystr) (max_size : Z) (units : list pystr) :
  (length (emitted sep (all_groups (pack_groups sep max_size units)))
   <= length units)%nat.
Proof.
  pose proof (pack_groups_nonempty sep max_size units) as Hne.
  pose proof (pack_groups_concat sep max_size units) as Hcat.
  set (gs := all_groups (pack_groups sep max_size units)) in *.
  assert (Hlists : Forall (fun g => g <> []) (emitted sep gs)).
  { apply Forall_forall. intros g Hg ->.
    rewrite Forall_forall in Hne. apply (Hne (block sep [])); [|reflexivity].
    apply in_map_iff. exists []. split; [reflexivity | exact Hg]. }
  apply nonempty_groups_length in Hlists.
  assert (Hsub : (length (concat (emitted sep gs)) <= length (concat gs))%nat).
  { unfold emitted. destruct (strip_nonempty (block sep (last gs []))); [lia|].
    destruct gs as [|g0 gs0] using rev_ind; [simpl; lia|].
    rewrite removelast_last, concat_app, length_app. lia. }
  rewrite Hcat in Hsub. lia.
Qed.

Lemma chunks_of_length (B : list pystr) (start idx : Z) :
  length (chunks_of start idx B) = length B.
Proof.
  rewrite <- (chunks_of_content B start idx) at 2. rewrite length_map. reflexivity.
Qed.

(** X21. The semantic strategy works on exactly [header_count + 1] units
    and returns at most that many chunks; the paragraph strategy returns at
    most as many chunks as the document has paragraphs. *)
Theorem packed_chunk_counts (doc : pystr) (max_size : Z) :
  Z.of_nat (length (semantic_units doc)) = header_count (create_metadata doc) + 1 /\
  Z.of_nat (length (chunk_by_headers doc max_size))
  <= header_count (create_metadata doc) + 1 /\
  (length (chunk_by_paragraphs doc max_size) <= length (paragraph_units doc))%nat.
Proof.
  split; [apply semantic_units_count | split].
  - rewrite <- semantic_units_count.
    rewrite chunk_by_headers_groups, chunks_of_length, length_map.
    pose proof (emitted_count [] max_size (semantic_units doc)). lia.
  - rewrite chunk_by_paragraphs_groups, chunks_of_length, length_map.
    apply emitted_count.
Qed.
